(** * Obsidian Copilot: conversation state, context files and file parsers

    A shallow embedding of the parts of the plugin that the specification
    talks about:

    - [ActiveFileTracker]    src/state/activeFileTracker.ts
    - [ExternalServices]     src/LLMProviders/externalServicesClient.ts
    - [FileParsers]          src/tools/FileParserManager.ts
    - [InlineMessageEditor]  the edit-mode wrapper around ChatInput
    - [MessageStore], [Orchestrator]   the conversation state engine, whose
      code is not part of the sources at hand and is modelled from the
      specification.

    Asynchronous functions are embedded as state-passing functions that
    return either a value or a thrown error; [await] is sequencing. *)

From Stdlib Require Import ZArith List Bool Lia Ascii String.
From stdpp Require Import base option list gmap strings pretty sorting.

Set Default Proof Using "Type".
Open Scope string_scope.

(** ** Obsidian file handles *)

Record FileStats := { size : Z; mtime : Z; ctime : Z }.

(** [TFile]: the fields of Obsidian's file handle that the sources read. *)
Record TFile := {
  path : string;
  basename : string;
  extension : string;
  stat : option FileStats
}.

(** ** src/state/activeFileTracker.ts *)
Module ActiveFileTracker.

(** [leaf.view]: either a [FileView] carrying [view.file], or any other
    view. *)
Inductive View :=
| FileView (file : option TFile)
| OtherView.

Record WorkspaceLeaf := { view : View }.

(** [app.workspace.getActiveFile()] is all that is read from [App]. *)
Record App := { getActiveFile : option TFile }.

(** The module-level variable [lastActiveContextFile]. *)
Definition Tracker := option TFile.

Definition initial : Tracker := None.

Section Tracker.
(** [isAllowedFileForNoteContext] is imported from [@/utils]; it is
    taken as a parameter. *)
Variable isAllowedFileForNoteContext : option TFile -> bool.

Definition getLeafContextFile (leaf : option WorkspaceLeaf) : option TFile :=
  match leaf with
  | None => None
  | Some l =>
      let file := match view l with
                  | FileView f => f
                  | OtherView => None
                  end in
      if isAllowedFileForNoteContext file then file else None
  end.

Definition trackContextFile (file : option TFile) (last : Tracker) : Tracker :=
  if isAllowedFileForNoteContext file then file else last.

Definition trackLeafContextFile (leaf : option WorkspaceLeaf) (last : Tracker) : Tracker :=
  let file := getLeafContextFile leaf in
  trackContextFile file last.

Definition getLastActiveContextFile (last : Tracker) : option TFile := last.

(** Returns the value and the tracker afterwards. *)
Definition getActiveContextFile (app : App) (last : Tracker) : option TFile * Tracker :=
  let activeFile := getActiveFile app in
  if isAllowedFileForNoteContext activeFile
  then (activeFile, trackContextFile activeFile last)
  else (last, last).

(** A call of one of the three functions that can write the tracker. *)
Inductive Call :=
| CallTrackContextFile (file : option TFile)
| CallTrackLeafContextFile (leaf : option WorkspaceLeaf)
| CallGetActiveContextFile (app : App).

Definition step (last : Tracker) (c : Call) : Tracker :=
  match c with
  | CallTrackContextFile file => trackContextFile file last
  | CallTrackLeafContextFile leaf => trackLeafContextFile leaf last
  | CallGetActiveContextFile app => snd (getActiveContextFile app last)
  end.

Definition run (cs : list Call) (last : Tracker) : Tracker :=
  fold_left step cs last.

(** The file a call gets to see, before any eligibility test. *)
Definition seen (c : Call) : option TFile :=
  match c with
  | CallTrackContextFile file => file
  | CallTrackLeafContextFile None => None
  | CallTrackLeafContextFile (Some l) =>
      match view l with
      | FileView f => f
      | OtherView => None
      end
  | CallGetActiveContextFile app => getActiveFile app
  end.

(** The most recently seen eligible file of a call sequence, written
    independently of [run]: search the calls from the latest one. *)
Fixpoint firstEligible (rev_cs : list Call) : option TFile :=
  match rev_cs with
  | [] => None
  | c :: older =>
      match seen c with
      | Some f => if isAllowedFileForNoteContext (Some f) then Some f
                  else firstEligible older
      | None => firstEligible older
      end
  end.

Definition lastEligible (cs : list Call) : option TFile :=
  firstEligible (rev cs).

(** *** Properties *)

Hypothesis null_not_allowed : isAllowedFileForNoteContext None = false.

Lemma getLeafContextFile_seen leaf :
  getLeafContextFile leaf =
  if isAllowedFileForNoteContext (seen (CallTrackLeafContextFile leaf))
  then seen (CallTrackLeafContextFile leaf) else None.
Proof using null_not_allowed.
  destruct leaf as [l|]; simpl; [reflexivity|].
  now rewrite null_not_allowed.
Qed.

Lemma step_seen last c :
  step last c =
  if isAllowedFileForNoteContext (seen c) then seen c else last.
Proof using null_not_allowed.
  destruct c as [file|leaf|app].
  - reflexivity.
  - change (step last (CallTrackLeafContextFile leaf))
      with (trackContextFile (getLeafContextFile leaf) last).
    unfold trackContextFile. rewrite getLeafContextFile_seen.
    destruct (isAllowedFileForNoteContext (seen _)) eqn:E.
    + now rewrite E.
    + now rewrite null_not_allowed.
  - simpl. unfold getActiveContextFile, trackContextFile.
    destruct (isAllowedFileForNoteContext (getActiveFile app)) eqn:E;
      reflexivity.
Qed.

Lemma step_firstEligible last c :
  step last c =
  match firstEligible [c] with Some f => Some f | None => last end.
Proof using null_not_allowed.
  rewrite step_seen. simpl.
  destruct (seen c) as [f|] eqn:E.
  - destruct (isAllowedFileForNoteContext (Some f)); reflexivity.
  - now rewrite null_not_allowed.
Qed.

Lemma run_snoc cs c last : run (cs ++ [c]) last = step (run cs last) c.
Proof. unfold run. now rewrite fold_left_app. Qed.

Lemma run_lastEligible cs last :
  run cs last =
  match lastEligible cs with Some f => Some f | None => last end.
Proof using null_not_allowed.
  induction cs as [|c cs IH] using rev_ind.
  - reflexivity.
  - rewrite run_snoc, step_firstEligible, IH.
    unfold lastEligible. rewrite rev_app_distr. simpl.
    destruct (seen c) as [f|].
    + destruct (isAllowedFileForNoteContext (Some f)); reflexivity.
    + reflexivity.
Qed.

Lemma lastEligible_allowed cs f :
  lastEligible cs = Some f ->
  isAllowedFileForNoteContext (Some f) = true /\ exists c, In c cs /\ seen c = Some f.
Proof.
  unfold lastEligible. intros H.
  assert (G : isAllowedFileForNoteContext (Some f) = true /\
              exists c, In c (rev cs) /\ seen c = Some f).
  { induction (rev cs) as [|c l IH]; simpl in H; [discriminate|].
    destruct (seen c) as [g|] eqn:E.
    - destruct (isAllowedFileForNoteContext (Some g)) eqn:A.
      + inversion H; subst. split; [assumption|].
        exists c. split; [now left | assumption].
      + destruct (IH H) as [? [c' [? ?]]]. split; [assumption|].
        exists c'. split; [now right | assumption].
    - destruct (IH H) as [? [c' [? ?]]]. split; [assumption|].
      exists c'. split; [now right | assumption]. }
  destruct G as [A [c [I S]]]. split; [assumption|].
  exists c. split; [|assumption]. now apply in_rev.
Qed.

Lemma lastEligible_None cs :
  lastEligible cs = None <->
  Forall (fun c => isAllowedFileForNoteContext (seen c) = false) cs.
Proof using null_not_allowed.
  unfold lastEligible.
  assert (R : Forall (fun c => isAllowedFileForNoteContext (seen c) = false) (rev cs)
              <-> Forall (fun c => isAllowedFileForNoteContext (seen c) = false) cs).
  { split; intros F.
    - rewrite <- (rev_involutive cs). now apply List.Forall_rev.
    - now apply List.Forall_rev. }
  rewrite <- R. clear R.
  induction (rev cs) as [|c l IH]; simpl.
  - split; [constructor | reflexivity].
  - destruct (seen c) as [g|] eqn:E.
    + destruct (isAllowedFileForNoteContext (Some g)) eqn:A.
      * split; [discriminate|]. intros F. inversion F; subst.
        rewrite E in *. congruence.
      * rewrite IH. split; intros F.
        -- constructor; [now rewrite E | assumption].
        -- now inversion F.
    + rewrite IH. split; intros F.
      * constructor; [now rewrite E | assumption].
      * now inversion F.
Qed.

(** C9. The tracker is only ever overwritten with a context-eligible
    file and is never reset.  For every sequence [cs] of
    trackContextFile / trackLeafContextFile / getActiveContextFile
    calls, started from the initial null tracker:
    - the tracked file is the most recently seen eligible file
      ([lastEligible]), and it is null exactly when no call has seen an
      eligible file;
    - each single call either leaves the tracker as it is or stores the
      eligible file it has just seen;
    - once [getLastActiveContextFile] is non-null it stays non-null
      after any further calls;
    - [getActiveContextFile] returns the active file when that file is
      eligible (and tracks it), and otherwise returns the last tracked
      file and leaves the tracker unchanged. *)
Theorem tracker_keeps_last_eligible (cs : list Call) :
  getLastActiveContextFile (run cs initial) = lastEligible cs
  /\ (getLastActiveContextFile (run cs initial) = None <->
      Forall (fun c => isAllowedFileForNoteContext (seen c) = false) cs)
  /\ (forall f, getLastActiveContextFile (run cs initial) = Some f ->
        isAllowedFileForNoteContext (Some f) = true /\
        exists c, In c cs /\ seen c = Some f)
  /\ (forall last c,
        step last c = last \/
        exists f, step last c = Some f /\ seen c = Some f /\
                  isAllowedFileForNoteContext (Some f) = true)
  /\ (forall last more,
        getLastActiveContextFile last <> None ->
        getLastActiveContextFile (run more last) <> None)
  /\ (forall app last,
        (isAllowedFileForNoteContext (getActiveFile app) = true ->
         getActiveContextFile app last = (getActiveFile app, getActiveFile app))
        /\ (isAllowedFileForNoteContext (getActiveFile app) = false ->
            getActiveContextFile app last = (last, last))).
Proof using null_not_allowed.
  unfold getLastActiveContextFile.
  assert (R : run cs initial = lastEligible cs).
  { rewrite run_lastEligible. now destruct (lastEligible cs). }
  split; [exact R|].
  split; [rewrite R; apply lastEligible_None|].
  split; [rewrite R; apply lastEligible_allowed|].
  split.
  { intros last c. rewrite step_seen.
    destruct (seen c) as [f|] eqn:E.
    - destruct (isAllowedFileForNoteContext (Some f)) eqn:A.
      + right. exists f. auto.
      + now left.
    - rewrite null_not_allowed. now left. }
  split.
  { intros last more Hl. rewrite run_lastEligible.
    destruct (lastEligible more); [discriminate | assumption]. }
  intros app last. unfold getActiveContextFile, trackContextFile.
  split; intros ->; reflexivity.
Qed.

End Tracker.

(** A concrete eligibility test for examples: markdown and canvas files. *)
Definition allowMdCanvas (file : option TFile) : bool :=
  match file with
  | None => false
  | Some f => bool_decide (extension f = "md") || bool_decide (extension f = "canvas")
  end.

Definition noteA : TFile :=
  {| path := "notes/a.md"; basename := "a"; extension := "md"; stat := None |}.
Definition picture : TFile :=
  {| path := "img/p.png"; basename := "p"; extension := "png"; stat := None |}.

Example tracker_run_example :
  run allowMdCanvas
    [CallTrackContextFile (Some noteA);
     CallTrackLeafContextFile (Some {| view := FileView (Some picture) |});
     CallGetActiveContextFile {| getActiveFile := None |}] initial
  = Some noteA.
Proof. reflexivity. Qed.

Lemma tracker_keeps_last_eligible_witness :
  allowMdCanvas None = false /\
  getLastActiveContextFile
    (run allowMdCanvas
       [CallTrackContextFile (Some noteA); CallTrackContextFile (Some picture)]
       initial) = Some noteA.
Proof.
  split; [reflexivity|].
  destruct (tracker_keeps_last_eligible allowMdCanvas eq_refl
              [CallTrackContextFile (Some noteA); CallTrackContextFile (Some picture)])
    as [H _].
  rewrite H. reflexivity.
Defined.

End ActiveFileTracker.


(** ** JavaScript values, strings and promises *)
Module Js.

(** [ArrayBuffer]: the binary content of a file or HTTP body. *)
Definition ArrayBuffer := list Byte.byte.

(** What a collaborator hands back: a value, or a rejection with the
    message of its [Error]. *)
Inductive IO (A : Type) :=
| Resolved (a : A)
| Rejected (msg : string).
Arguments Resolved {A} a.
Arguments Rejected {A} msg.

Definition io_bind {A B} (m : IO A) (k : A -> IO B) : IO B :=
  match m with
  | Resolved a => k a
  | Rejected msg => Rejected msg
  end.

(** [try { body } catch (error) { handler }] without state. *)
Definition io_catch {A} (body : IO A) (handler : string -> IO A) : IO A :=
  match body with
  | Resolved a => Resolved a
  | Rejected msg => handler msg
  end.

(** Errors that leave the file parsers, told apart by where they are
    raised. *)
Inductive Error :=
| NoParserFound (ext : string)      (* `No parser found for file type: ${ext}` *)
| EmptyDocs4llmResponse             (* "Empty response from docs4llm API" *)
| Propagated (msg : string).        (* the rejection of a collaborator, passed on *)

Inductive Outcome (A : Type) :=
| Returned (a : A)
| Thrown (e : Error).
Arguments Returned {A} a.
Arguments Thrown {A} e.

(** An async function over mutable state [S]: state changes made before a
    throw stay. *)
Definition M (S A : Type) := S -> Outcome A * S.

Definition ret {S A} (a : A) : M S A := fun s => (Returned a, s).

Definition throw {S A} (e : Error) : M S A := fun s => (Thrown e, s).

Definition bind {S A B} (m : M S A) (k : A -> M S B) : M S B :=
  fun s =>
    match m s with
    | (Returned a, s') => k a s'
    | (Thrown e, s') => (Thrown e, s')
    end.

Definition tryCatch {S A} (body : M S A) (handler : Error -> M S A) : M S A :=
  fun s =>
    match body s with
    | (Returned a, s') => (Returned a, s')
    | (Thrown e, s') => handler e s'
    end.

(** Await a collaborator that does not touch the state. *)
Definition await {S A} (c : IO A) : M S A :=
  fun s =>
    match c with
    | Resolved a => (Returned a, s)
    | Rejected msg => (Thrown (Propagated msg), s)
    end.

(** Await a collaborator that reads the state. *)
Definition awaitRead {S A} (c : S -> IO A) : M S A :=
  fun s => await (c s) s.

(** Await a collaborator that replaces the state when it resolves. *)
Definition awaitWrite {S} (c : S -> IO S) : M S unit :=
  fun s =>
    match c s with
    | Resolved s' => (Returned tt, s')
    | Rejected msg => (Thrown (Propagated msg), s)
    end.

Declare Scope js_scope.
Delimit Scope js_scope with js.
Notation "x <- m ;; k" := (bind m (fun x => k))
  (at level 100, m at next level, right associativity) : js_scope.
Notation "m ;;; k" := (bind m (fun _ => k))
  (at level 100, right associativity) : js_scope.
Notation "x <~ m ;; k" := (io_bind m (fun x => k))
  (at level 100, m at next level, right associativity) : js_scope.

(** *** Strings (the ASCII range of the built-ins) *)

(** [String.prototype.includes]. *)
Fixpoint includes (needle hay : string) : bool :=
  String.prefix needle hay ||
  match hay with
  | EmptyString => false
  | String _ rest => includes needle rest
  end.

Definition lowerAscii (a : Ascii.ascii) : Ascii.ascii :=
  let n := Ascii.nat_of_ascii a in
  if (65 <=? n)%nat && (n <=? 90)%nat then Ascii.ascii_of_nat (n + 32) else a.

(** [String.prototype.toLowerCase]. *)
Fixpoint toLowerCase (s : string) : string :=
  match s with
  | EmptyString => EmptyString
  | String a rest => String (lowerAscii a) (toLowerCase rest)
  end.

Fixpoint trimStart (s : string) : string :=
  match s with
  | EmptyString => EmptyString
  | String a rest => if Ascii.is_space a then trimStart rest else s
  end.

(** [String.prototype.trim]. *)
Definition trim (s : string) : string :=
  String.rev (trimStart (String.rev (trimStart s))).

(** [s.replace(/\s+/g, " ")]: every run of white space becomes one space;
    [inRun] tells that the previous character was white space. *)
Fixpoint collapseFrom (inRun : bool) (s : string) : string :=
  match s with
  | EmptyString => EmptyString
  | String a rest =>
      if Ascii.is_space a
      then (if inRun then collapseFrom true rest
            else String " "%char (collapseFrom true rest))
      else String a (collapseFrom false rest)
  end.

Definition collapseWhitespace (s : string) : string := collapseFrom false s.

(** [parts.join(sep)] on strings. *)
Definition join (sep : string) (parts : list string) : string :=
  String.concat sep parts.

(** *** Values of unknown type *)

#[warnings="-register-all"]
Inductive JsValue :=
| JsUndefined
| JsNull
| JsBool (b : bool)
| JsNumber (n : Z)                        (* integral numbers *)
| JsString (s : string)
| JsArray (items : list JsValue)
| JsObject (fields : list (string * JsValue)).

(** [Boolean(v)]; equivalently [!v] is its negation. *)
Definition truthy (v : JsValue) : bool :=
  match v with
  | JsUndefined | JsNull => false
  | JsBool b => b
  | JsNumber n => negb (n =? 0)%Z
  | JsString s => negb (bool_decide (s = ""))
  | JsArray _ | JsObject _ => true
  end.

(** Truthiness of a [string | null]. *)
Definition truthyString (o : option string) : bool :=
  match o with
  | Some s => negb (bool_decide (s = ""))
  | None => false
  end.

Fixpoint assoc (name : string) (fields : list (string * JsValue)) : JsValue :=
  match fields with
  | [] => JsUndefined
  | (k, v) :: rest => if bool_decide (k = name) then v else assoc name rest
  end.

(** [v?.name] for the data properties read by the parsers: only plain
    objects carry them. *)
Definition getProp (v : JsValue) (name : string) : JsValue :=
  match v with
  | JsObject fields => assoc name fields
  | _ => JsUndefined
  end.

Definition decimal (n : Z) : string :=
  match n with
  | Z0 => "0"
  | Zpos p => pretty (Npos p)
  | Zneg p => "-" +:+ pretty (Npos p)
  end.

(** [String(v)], as performed by [String(response)] and by [join] on the
    collected parts. *)
Fixpoint ToString (v : JsValue) : string :=
  match v with
  | JsUndefined => "undefined"
  | JsNull => "null"
  | JsBool true => "true"
  | JsBool false => "false"
  | JsNumber n => decimal n
  | JsString s => s
  | JsArray items =>
      join "," (map (fun item =>
                       match item with
                       | JsUndefined | JsNull => ""
                       | _ => ToString item
                       end) items)
  | JsObject _ => "[object Object]"
  end.

End Js.


(** ** src/LLMProviders/externalServicesClient.ts *)
Module ExternalServices.
Import Js.
Local Open Scope js_scope.

(** The responses; [elapsed_time_ms] is a wall-clock measurement that no
    caller in the sources reads, and is left out. *)
Record Url4llmResponse := { url_response : string }.
Record Pdf4llmResponse := { pdf_response : string }.
Record Docs4llmResponse := { docs_response : JsValue }.

(** What [ExternalServicesClient] offers to the file parsers. *)
Record Client := {
  pdf4llm : ArrayBuffer -> IO Pdf4llmResponse;
  docs4llm : ArrayBuffer -> string -> IO Docs4llmResponse
}.

(** The result of [fetch]. *)
Record HttpResponse := {
  ok : bool;
  status : Z;
  contentType : option string;            (* headers.get("content-type") *)
  arrayBuffer : IO ArrayBuffer;
  text : IO string
}.

(** The libraries and browser objects the client calls. *)
Record Host := {
  fetch : string -> IO HttpResponse;
  (** pdfjs: loading a document gives its pages; reading the text items of
      a page may fail; an item has a [str] or not. *)
  pdfjs_getDocument : ArrayBuffer -> IO (list (IO (list (option string))));
  (** [import("mammoth")] and its [convertToHtml], when it has one. *)
  mammoth_import : IO (option (ArrayBuffer -> IO string));
  (** [new DOMParser().parseFromString(html, "text/html").body?.textContent] *)
  DOMParser_bodyText : string -> IO (option string);
  (** [new TextDecoder("utf-8").decode(binary)] *)
  TextDecoder_decode : ArrayBuffer -> IO string
}.

Definition newline : string := String "010"%char EmptyString.

Section Client.
Variable host : Host.

Fixpoint readPages (pages : list (IO (list (option string)))) (combinedText : string)
  : IO string :=
  match pages with
  | [] => Resolved combinedText
  | page :: rest =>
      items <~ page ;;
      let pageText := join " " (map (fun item => match item with
                                                 | Some str => str
                                                 | None => ""
                                                 end) items) in
      readPages rest (combinedText +:+ pageText +:+ newline +:+ newline)
  end.

Definition pdf4llm_impl (binaryContent : ArrayBuffer) : IO Pdf4llmResponse :=
  io_catch
    (pages <~ pdfjs_getDocument host binaryContent ;;
     combinedText <~ readPages pages "" ;;
     Resolved {| pdf_response := trim combinedText |})
    (fun _ => Resolved {| pdf_response := "" |}).

Definition decodeToText (binaryContent : ArrayBuffer) : string :=
  match TextDecoder_decode host binaryContent with
  | Resolved s => s
  | Rejected _ => ""
  end.

Definition htmlToText (html : string) : IO string :=
  body <~ DOMParser_bodyText host html ;;
  let textContent := match body with
                     | Some s => s
                     | None => ""
                     end in
  Resolved (trim (collapseWhitespace textContent)).

Definition docs4llm_impl (binaryContent : ArrayBuffer) (fileType : string)
  : IO Docs4llmResponse :=
  let normalizedExtension := toLowerCase fileType in
  io_catch
    (if bool_decide (normalizedExtension = "pdf") then
       r <~ pdf4llm_impl binaryContent ;;
       Resolved {| docs_response := JsString (pdf_response r) |}
     else if bool_decide (normalizedExtension = "docx") then
       mammothModule <~ mammoth_import host ;;
       match mammothModule with
       | None => Rejected "mammoth.convertToHtml is not available"
       | Some convertToHtml =>
           value <~ convertToHtml binaryContent ;;
           t <~ htmlToText value ;;
           Resolved {| docs_response := JsString t |}
       end
     else if bool_decide (normalizedExtension = "html")
             || bool_decide (normalizedExtension = "htm") then
       let decoded := decodeToText binaryContent in
       t <~ htmlToText decoded ;;
       Resolved {| docs_response := JsString t |}
     else
       Resolved {| docs_response := JsString (decodeToText binaryContent) |})
    (fun _ => Resolved {| docs_response := JsString "" |}).

Definition url4llm (url : string) : IO Url4llmResponse :=
  io_catch
    (response <~ fetch host url ;;
     if negb (ok response)
     then Rejected ("URL fetch failed with status " +:+ decimal (status response))
     else
       let contentType := match contentType response with
                          | Some c => c
                          | None => ""
                          end in
       content <~ (if includes "application/pdf" contentType then
                     binary <~ arrayBuffer response ;;
                     parsed <~ pdf4llm_impl binary ;;
                     Resolved (pdf_response parsed)
                   else if includes "text/html" contentType then
                     html <~ text response ;;
                     htmlToText html
                   else text response) ;;
       Resolved {| url_response := content |})
    (fun _ => Resolved {| url_response := "" |}).

(** The singleton handed to the parsers. *)
Definition getInstance : Client :=
  {| pdf4llm := pdf4llm_impl; docs4llm := docs4llm_impl |}.

(** *** The client absorbs every failure *)

Lemma pdf4llm_resolves binaryContent :
  exists r, pdf4llm_impl binaryContent = Resolved r.
Proof.
  unfold pdf4llm_impl, io_catch, io_bind.
  destruct (pdfjs_getDocument host binaryContent) as [pages|]; [|eauto].
  destruct (readPages pages ""); eauto.
Qed.

Lemma docs4llm_resolves_string binaryContent fileType :
  exists s, docs4llm_impl binaryContent fileType =
            Resolved {| docs_response := JsString s |}.
Proof.
  unfold docs4llm_impl, io_catch, io_bind.
  destruct (bool_decide (toLowerCase fileType = "pdf")).
  { destruct (pdf4llm_resolves binaryContent) as [r ->]. eauto. }
  destruct (bool_decide (toLowerCase fileType = "docx")).
  { destruct (mammoth_import host) as [[conv|]|]; eauto.
    destruct (conv binaryContent) as [v|]; eauto.
    destruct (htmlToText v); eauto. }
  destruct (bool_decide (toLowerCase fileType = "html")
            || bool_decide (toLowerCase fileType = "htm")).
  { destruct (htmlToText _); eauto. }
  eauto.
Qed.

Lemma url4llm_resolves url : exists r, url4llm url = Resolved r.
Proof.
  unfold url4llm, io_catch.
  match goal with |- context [match ?b with Resolved _ => _ | Rejected _ => _ end] =>
    destruct b end; eauto.
Qed.

Lemma url4llm_unreachable url msg :
  fetch host url = Rejected msg -> url4llm url = Resolved {| url_response := "" |}.
Proof. intros H. unfold url4llm. now rewrite H. Qed.

End Client.
End ExternalServices.


(** ** src/tools/FileParserManager.ts *)
Module FileParsers.
Import Js ExternalServices.
Local Open Scope js_scope.

(** [Vault]: the three reads the parsers perform; each may reject (file
    deleted or unreadable).  A vault value is the vault as it is at the
    time of the call. *)
Record Vault := {
  cachedRead : TFile -> IO string;
  read : TFile -> IO string;
  readBinary : TFile -> IO ArrayBuffer
}.

(** A leaf returned by [app.workspace.getLeavesOfType("markdown")]. *)
Record MarkdownLeaf := {
  isMarkdownView : bool;                  (* view instanceof MarkdownView *)
  viewFile : option TFile;                (* view.file *)
  viewData : string                       (* view.getViewData() *)
}.

(** The global [app]; [None] when [app?.workspace?.getLeavesOfType] or
    [MarkdownView] is not available. *)
Record App := { markdownLeaves : option (list MarkdownLeaf) }.

(** The collaborators whose code is outside the sources: [ProjectConfig]
    (@/aiParams), [PDFCache] (@/cache/pdfCache), [ProjectContextCache]
    (@/cache/projectContextCache), [CanvasLoader] (./CanvasLoader) and
    [JSON.stringify].  They are parameters; the two caches are mutable
    singletons, read by [get] and replaced by [set]. *)
Record Collaborators := {
  ProjectConfig : Type;
  PDFCache : Type;
  PDFCache_get : TFile -> PDFCache -> IO (option Pdf4llmResponse);
  PDFCache_set : TFile -> Pdf4llmResponse -> PDFCache -> IO PDFCache;
  PDFCache_clear : PDFCache -> IO PDFCache;
  ProjectContextCache : Type;
  getOrReuseFileContext :
    ProjectConfig -> string -> ProjectContextCache -> IO (option string);
  setFileContext :
    ProjectConfig -> string -> string -> ProjectContextCache -> IO ProjectContextCache;
  CanvasData : Type;
  CanvasLoader_load : Vault -> TFile -> IO CanvasData;
  CanvasLoader_buildPrompt : CanvasData -> IO string;
  JSON_stringify : JsValue -> string
}.

Section Parsers.
Variable C : Collaborators.
Variable externalServicesClient : Client.

(** The mutable state around the parsers: the global [app] and the two
    cache singletons.  (Logging, the rate-limit [Notice] and its timer only
    write to the console and the screen and are left out.) *)
Record Globals := {
  app : App;
  pdfCache : PDFCache C;
  projectContextCache : ProjectContextCache C
}.

Definition withPdfCache (g : Globals) (c : PDFCache C) : Globals :=
  {| app := app g; pdfCache := c; projectContextCache := projectContextCache g |}.

Definition withProjectContextCache (g : Globals) (c : ProjectContextCache C) : Globals :=
  {| app := app g; pdfCache := pdfCache g; projectContextCache := c |}.

(** *** MarkdownParser *)

Fixpoint findOpenView (leaves : list MarkdownLeaf) (file : TFile) : option string :=
  match leaves with
  | [] => None
  | leaf :: rest =>
      if isMarkdownView leaf &&
         bool_decide (path <$> viewFile leaf = Some (path file))
      then Some (viewData leaf)
      else findOpenView rest file
  end.

Definition readOpenMarkdownViewText (a : App) (file : TFile) : option string :=
  match markdownLeaves a with
  | None => None
  | Some leaves => findOpenView leaves file
  end.

Definition MarkdownParser_parseFile (file : TFile) (vault : Vault) : M Globals string :=
  fun g =>
    match readOpenMarkdownViewText (app g) file with
    | Some openViewText => ret openViewText g
    | None =>
        tryCatch
          (cachedText <- await (cachedRead vault file) ;;
           if (0 <? String.length cachedText)%nat
              || bool_decide (size <$> stat file = Some 0%Z)
           then ret cachedText
           else await (read vault file))
          (fun _ =>
             tryCatch (await (read vault file)) (fun _ => ret ""))
          g
    end.

(** *** PDFParser *)

Definition pdfErrorMarker (file : TFile) : string :=
  "[Error: Could not extract content from PDF " +:+ basename file +:+ "]".

Definition PDFParser_parseFile (file : TFile) (vault : Vault) : M Globals string :=
  tryCatch
    (cachedResponse <- awaitRead (fun g => PDFCache_get C file (pdfCache g)) ;;
     match cachedResponse with
     | Some cached => ret (pdf_response cached)
     | None =>
         binaryContent <- await (readBinary vault file) ;;
         pdf4llmResponse <- await (pdf4llm externalServicesClient binaryContent) ;;
         awaitWrite (fun g => c <~ PDFCache_set C file pdf4llmResponse (pdfCache g) ;;
                              Resolved (withPdfCache g c)) ;;;
         ret (pdf_response pdf4llmResponse)
     end)
    (fun _ => ret (pdfErrorMarker file)).

Definition PDFParser_clearCache : M Globals unit :=
  awaitWrite (fun g => c <~ PDFCache_clear C (pdfCache g) ;;
                       Resolved (withPdfCache g c)).

(** *** CanvasParser *)

Definition canvasErrorMarker (file : TFile) : string :=
  "[Error: Could not parse Canvas file " +:+ basename file +:+ "]".

Definition CanvasParser_parseFile (file : TFile) (vault : Vault) : M Globals string :=
  tryCatch
    (canvasData <- await (CanvasLoader_load C vault file) ;;
     await (CanvasLoader_buildPrompt C canvasData))
    (fun _ => ret (canvasErrorMarker file)).

(** *** Docs4LLMParser *)

(** The part a document of an array response contributes, if any. *)
Definition docPart (doc : JsValue) : option string :=
  let docContent := getProp doc "content" in
  if truthy docContent then
    if truthy (getProp docContent "md") then Some (ToString (getProp docContent "md"))
    else if truthy (getProp docContent "text") then Some (ToString (getProp docContent "text"))
    else None
  else None.

(** "Extract markdown content from response".  The casts [as string] are
    rendered by [ToString], which is the identity on strings. *)
Definition extractContent (response : JsValue) : string :=
  match response with
  | JsString s => s
  | JsArray docs => join (newline +:+ newline) (omap docPart docs)
  | JsObject _ =>
      if truthy (getProp response "md") then ToString (getProp response "md")
      else if truthy (getProp response "text") then ToString (getProp response "text")
      else if truthy (getProp response "content") then ToString (getProp response "content")
      else JSON_stringify C response
  | _ => ToString response
  end.

Definition Docs4LLMParser_parseFile (currentProject : option (ProjectConfig C))
    (file : TFile) (vault : Vault) : M Globals string :=
  tryCatch
    (cachedContent <-
       match currentProject with
       | Some project =>
           awaitRead (fun g => getOrReuseFileContext C project (path file)
                                 (projectContextCache g))
       | None => ret None
       end ;;
     if truthyString cachedContent then ret (default "" cachedContent)
     else
       binaryContent <- await (readBinary vault file) ;;
       docs4llmResponse <-
         await (docs4llm externalServicesClient binaryContent (extension file)) ;;
       let response := docs_response docs4llmResponse in
       if negb (truthy response) then throw EmptyDocs4llmResponse
       else
         let content := extractContent response in
         match currentProject with
         | Some project =>
             awaitWrite (fun g =>
                           c <~ setFileContext C project (path file) content
                                  (projectContextCache g) ;;
                           Resolved (withProjectContextCache g c))
         | None => ret tt
         end ;;;
         ret content)
    (fun error => throw error).

(** *** FileParserManager *)

(** The four classes implementing [FileParser]; a [Docs4LLMParser] carries
    the project it was constructed with. *)
Inductive FileParser :=
| MarkdownParser
| PDFParser
| CanvasParser
| Docs4LLMParser (currentProject : option (ProjectConfig C)).

Definition supportedExtensions (parser : FileParser) : list string :=
  match parser with
  | MarkdownParser => ["md"]
  | PDFParser => ["pdf"]
  | CanvasParser => ["canvas"]
  | Docs4LLMParser _ => ["pdf"; "docx"; "txt"; "md"; "html"; "htm"; "csv"; "json"]
  end.

Definition parser_parseFile (parser : FileParser) : TFile -> Vault -> M Globals string :=
  match parser with
  | MarkdownParser => MarkdownParser_parseFile
  | PDFParser => PDFParser_parseFile
  | CanvasParser => CanvasParser_parseFile
  | Docs4LLMParser currentProject => Docs4LLMParser_parseFile currentProject
  end.

Record FileParserManager := {
  parsers : gmap string FileParser;
  isProjectMode : bool;
  currentProject : option (ProjectConfig C)
}.

Definition registerParser (parser : FileParser) (m : gmap string FileParser)
  : gmap string FileParser :=
  fold_left (fun acc ext => <[ext := parser]> acc) (supportedExtensions parser) m.

(** The parsers the constructor registers, in order. *)
Definition registrationOrder (isProjectMode : bool)
    (project : option (ProjectConfig C)) : list FileParser :=
  [MarkdownParser; Docs4LLMParser project]
  ++ (if negb isProjectMode then [PDFParser] else [])
  ++ [CanvasParser].

Definition newFileParserManager (isProjectMode : bool)
    (project : option (ProjectConfig C)) : FileParserManager :=
  let m0 : gmap string FileParser := ∅ in
  let m1 := registerParser MarkdownParser m0 in
  let m2 := registerParser (Docs4LLMParser project) m1 in
  let m3 := if negb isProjectMode then registerParser PDFParser m2 else m2 in
  let m4 := registerParser CanvasParser m3 in
  {| parsers := m4; isProjectMode := isProjectMode; currentProject := project |}.

Definition parseFile (mgr : FileParserManager) (file : TFile) (vault : Vault)
  : M Globals string :=
  match parsers mgr !! extension file with
  | None => throw (NoParserFound (extension file))
  | Some parser => parser_parseFile parser file vault
  end.

Definition supportsExtension (mgr : FileParserManager) (extension : string) : bool :=
  bool_decide (is_Some (parsers mgr !! extension)).

Definition clearPDFCache (mgr : FileParserManager) : M Globals unit :=
  match parsers mgr !! "pdf" with
  | Some PDFParser => PDFParser_clearCache
  | _ => ret tt
  end.

(** *** Running the definitions *)

Ltac run_js :=
  unfold MarkdownParser_parseFile, PDFParser_parseFile, PDFParser_clearCache,
    CanvasParser_parseFile, Docs4LLMParser_parseFile,
    tryCatch, bind, awaitRead, awaitWrite, await, ret, throw, io_bind in *.

(** Case analysis on an innermost scrutinee of the goal. *)
Ltac case_step :=
  match goal with
  | |- context [match ?x with _ => _ end] =>
      lazymatch x with
      | context [match _ with _ => _ end] => fail
      | _ => destruct x eqn:?; cbn beta iota
      end
  end.

(** *** Which parser ever throws *)

Lemma MarkdownParser_returns file vault g :
  exists s, MarkdownParser_parseFile file vault g = (Returned s, g).
Proof. run_js. repeat case_step; eauto. Qed.

Lemma PDFParser_returns file vault g :
  exists s g', PDFParser_parseFile file vault g = (Returned s, g').
Proof. run_js. repeat case_step; eauto. Qed.

Lemma CanvasParser_returns file vault g :
  exists s, CanvasParser_parseFile file vault g = (Returned s, g).
Proof. run_js. repeat case_step; eauto. Qed.

Lemma Docs4LLMParser_thrown project file vault g e g' :
  Docs4LLMParser_parseFile project file vault g = (Thrown e, g') ->
  e = EmptyDocs4llmResponse \/ exists msg, e = Propagated msg.
Proof.
  run_js. repeat case_step; intros H; inversion H; subst; eauto.
Qed.

Lemma parser_never_NoParserFound parser file vault g ext g' :
  parser_parseFile parser file vault g <> (Thrown (NoParserFound ext), g').
Proof.
  intros H. destruct parser; simpl in H.
  - destruct (MarkdownParser_returns file vault g) as [s E]. congruence.
  - destruct (PDFParser_returns file vault g) as [s [g2 E]]. congruence.
  - destruct (CanvasParser_returns file vault g) as [s E]. congruence.
  - apply Docs4LLMParser_thrown in H. destruct H as [H|[msg H]]; discriminate.
Qed.

(** *** Registration and dispatch *)

Definition registerAll (ps : list FileParser) (m : gmap string FileParser)
  : gmap string FileParser :=
  fold_left (fun acc parser => registerParser parser acc) ps m.

(** The parser registered last among those of [ps] that list [ext]. *)
Fixpoint mostRecent (ext : string) (ps : list FileParser) : option FileParser :=
  match ps with
  | [] => None
  | parser :: later =>
      match mostRecent ext later with
      | Some q => Some q
      | None => if bool_decide (ext ∈ supportedExtensions parser)
                then Some parser else None
      end
  end.

Lemma insert_all_lookup (parser : FileParser) (exts : list string)
    (m : gmap string FileParser) (ext : string) :
  fold_left (fun acc e => <[e := parser]> acc) exts m !! ext =
  if bool_decide (ext ∈ exts) then Some parser else m !! ext.
Proof.
  revert m. induction exts as [|e exts IH]; intros m; simpl.
  - reflexivity.
  - rewrite IH. destruct (decide (e = ext)) as [->|Hne].
    + rewrite lookup_insert_eq.
      rewrite (bool_decide_eq_true_2 (ext ∈ ext :: exts)) by set_solver.
      destruct (bool_decide (ext ∈ exts)); reflexivity.
    + rewrite lookup_insert_ne by assumption.
      destruct (bool_decide (ext ∈ exts)) eqn:E.
      * apply bool_decide_eq_true_1 in E.
        now rewrite (bool_decide_eq_true_2 (ext ∈ e :: exts)) by set_solver.
      * apply bool_decide_eq_false_1 in E.
        rewrite (bool_decide_eq_false_2 (ext ∈ e :: exts)); [reflexivity|].
        intros [?|?]%elem_of_cons; congruence.
Qed.

Lemma registerParser_lookup parser (m : gmap string FileParser) ext :
  registerParser parser m !! ext =
  if bool_decide (ext ∈ supportedExtensions parser) then Some parser else m !! ext.
Proof. apply insert_all_lookup. Qed.

Lemma registerAll_lookup ps (m : gmap string FileParser) ext :
  registerAll ps m !! ext =
  match mostRecent ext ps with Some q => Some q | None => m !! ext end.
Proof.
  revert m. induction ps as [|parser ps IH]; intros m; simpl.
  - reflexivity.
  - unfold registerAll in *. rewrite IH.
    destruct (mostRecent ext ps); [reflexivity|].
    rewrite registerParser_lookup.
    now destruct (bool_decide (ext ∈ supportedExtensions parser)).
Qed.

Lemma newFileParserManager_parsers isProjectMode project :
  parsers (newFileParserManager isProjectMode project) =
  registerAll (registrationOrder isProjectMode project) ∅.
Proof. destruct isProjectMode; reflexivity. Qed.

Lemma manager_lookup isProjectMode project ext :
  parsers (newFileParserManager isProjectMode project) !! ext =
  mostRecent ext (registrationOrder isProjectMode project).
Proof.
  rewrite newFileParserManager_parsers, registerAll_lookup.
  now destruct (mostRecent ext _).
Qed.

(** C10. For the manager built by the constructor, [parseFile] throws the
    'No parser found' error exactly when [supportsExtension] of the file's
    extension is false (and then the state is untouched); otherwise it runs
    the parser registered last for that extension, the registration order
    being MarkdownParser, Docs4LLMParser, PDFParser unless in project mode,
    CanvasParser.  In particular "pdf" goes to PDFParser when
    [isProjectMode] is false and to Docs4LLMParser when it is true. *)
Theorem parseFile_dispatch (isProjectMode : bool) (project : option (ProjectConfig C))
    (file : TFile) (vault : Vault) (g : Globals) :
  let mgr := newFileParserManager isProjectMode project in
  let ext := extension file in
  (supportsExtension mgr ext = false <->
   exists g', parseFile mgr file vault g = (Thrown (NoParserFound ext), g'))
  /\ (supportsExtension mgr ext = false <->
      exists e g', parseFile mgr file vault g = (Thrown (NoParserFound e), g'))
  /\ (supportsExtension mgr ext = false ->
      parseFile mgr file vault g = (Thrown (NoParserFound ext), g))
  /\ (supportsExtension mgr ext = true ->
      exists parser,
        mostRecent ext (registrationOrder isProjectMode project) = Some parser /\
        parseFile mgr file vault g = parser_parseFile parser file vault g)
  /\ (ext = "pdf" ->
      parseFile mgr file vault g =
      if isProjectMode then Docs4LLMParser_parseFile project file vault g
      else PDFParser_parseFile file vault g).
Proof.
  intros mgr ext.
  assert (L : parsers mgr !! ext = mostRecent ext (registrationOrder isProjectMode project))
    by apply manager_lookup.
  assert (U : supportsExtension mgr ext = false ->
              parseFile mgr file vault g = (Thrown (NoParserFound ext), g)).
  { unfold supportsExtension, parseFile. fold ext. intros H.
    apply bool_decide_eq_false_1 in H.
    destruct (parsers mgr !! ext) as [q|] eqn:E; [|reflexivity].
    exfalso. apply H. eauto. }
  assert (S : forall e g', parseFile mgr file vault g = (Thrown (NoParserFound e), g') ->
              supportsExtension mgr ext = false).
  { unfold supportsExtension, parseFile. fold ext. intros e g' H.
    destruct (parsers mgr !! ext) as [q|] eqn:E.
    - exfalso. eapply parser_never_NoParserFound. exact H.
    - apply bool_decide_eq_false_2. intros [x Hx]. discriminate. }
  split; [|split; [|split; [|split]]].
  - split; [eauto|]. intros [g' H]. eauto.
  - split; [eauto|]. intros [e [g' H]]. eauto.
  - exact U.
  - unfold supportsExtension, parseFile. fold ext. intros H.
    apply bool_decide_eq_true_1 in H. destruct H as [q Hq].
    exists q. rewrite <- L, Hq. split; reflexivity.
  - intros Hpdf. unfold parseFile. fold ext. rewrite L, Hpdf.
    destruct isProjectMode; reflexivity.
Qed.

(** *** Failures: marker or rethrow *)

Lemma PDFParser_unreadable file vault g msg :
  PDFCache_get C file (pdfCache g) = Resolved None ->
  readBinary vault file = Rejected msg ->
  PDFParser_parseFile file vault g = (Returned (pdfErrorMarker file), g).
Proof. intros Hc Hr. run_js. now rewrite Hc, Hr. Qed.

Lemma PDFParser_failure_is_marker file vault g :
  PDFParser_parseFile file vault g = (Returned (pdfErrorMarker file), g)
  \/ (exists cached, PDFCache_get C file (pdfCache g) = Resolved (Some cached) /\
       PDFParser_parseFile file vault g = (Returned (pdf_response cached), g))
  \/ (exists binaryContent r c,
        readBinary vault file = Resolved binaryContent /\
        pdf4llm externalServicesClient binaryContent = Resolved r /\
        PDFCache_set C file r (pdfCache g) = Resolved c /\
        PDFParser_parseFile file vault g = (Returned (pdf_response r), withPdfCache g c)).
Proof.
  run_js.
  destruct (PDFCache_get C file (pdfCache g)) as [[cached|]|] eqn:G; cbn; eauto.
  destruct (readBinary vault file) as [b|] eqn:R; cbn; eauto.
  destruct (pdf4llm externalServicesClient b) as [r|] eqn:P; cbn; eauto.
  destruct (PDFCache_set C file r (pdfCache g)) as [c|] eqn:S; cbn; eauto 10.
Qed.

Lemma MarkdownParser_unreadable file vault g msg1 msg2 :
  readOpenMarkdownViewText (app g) file = None ->
  cachedRead vault file = Rejected msg1 ->
  read vault file = Rejected msg2 ->
  MarkdownParser_parseFile file vault g = (Returned "", g).
Proof. intros Ho Hc Hr. run_js. now rewrite Ho, Hc, Hr. Qed.

Lemma CanvasParser_unreadable file vault g msg :
  CanvasLoader_load C vault file = Rejected msg ->
  CanvasParser_parseFile file vault g = (Returned (canvasErrorMarker file), g).
Proof. intros H. run_js. now rewrite H. Qed.

(** No usable cache entry for the file: no project, or the project cache
    answers null or the empty string. *)
Definition cacheMiss (project : option (ProjectConfig C)) (file : TFile) (g : Globals) : Prop :=
  match project with
  | None => True
  | Some p =>
      exists c, getOrReuseFileContext C p (path file) (projectContextCache g) = Resolved c
                /\ truthyString c = false
  end.

Lemma Docs4LLMParser_unreadable project file vault g msg :
  cacheMiss project file g ->
  readBinary vault file = Rejected msg ->
  Docs4LLMParser_parseFile project file vault g = (Thrown (Propagated msg), g).
Proof.
  intros Hm Hr. run_js. destruct project as [p|]; cbn in *.
  - destruct Hm as [c [-> Hc]]. cbn. now rewrite Hc, Hr.
  - now rewrite Hr.
Qed.

Lemma Docs4LLMParser_empty_parse project file vault g binaryContent r :
  cacheMiss project file g ->
  readBinary vault file = Resolved binaryContent ->
  docs4llm externalServicesClient binaryContent (extension file) = Resolved r ->
  truthy (docs_response r) = false ->
  Docs4LLMParser_parseFile project file vault g = (Thrown EmptyDocs4llmResponse, g).
Proof.
  intros Hm Hr Hd Ht. run_js. destruct project as [p|]; cbn in *.
  - destruct Hm as [c [-> Hc]]. cbn. now rewrite Hc, Hr, Hd, Ht.
  - now rewrite Hr, Hd, Ht.
Qed.

Lemma PDFParser_cache_unavailable file vault g msg :
  PDFCache_get C file (pdfCache g) = Rejected msg ->
  PDFParser_parseFile file vault g = (Returned (pdfErrorMarker file), g).
Proof. intros H. run_js. now rewrite H. Qed.

Lemma PDFParser_client_rejects file vault g binaryContent msg :
  PDFCache_get C file (pdfCache g) = Resolved None ->
  readBinary vault file = Resolved binaryContent ->
  pdf4llm externalServicesClient binaryContent = Rejected msg ->
  PDFParser_parseFile file vault g = (Returned (pdfErrorMarker file), g).
Proof. intros Hg Hr Hp. run_js. now rewrite Hg, Hr, Hp. Qed.

Lemma PDFParser_store_fails file vault g binaryContent r msg :
  PDFCache_get C file (pdfCache g) = Resolved None ->
  readBinary vault file = Resolved binaryContent ->
  pdf4llm externalServicesClient binaryContent = Resolved r ->
  PDFCache_set C file r (pdfCache g) = Rejected msg ->
  PDFParser_parseFile file vault g = (Returned (pdfErrorMarker file), g).
Proof. intros Hg Hr Hp Hs. run_js. now rewrite Hg, Hr, Hp, Hs. Qed.

Lemma CanvasParser_prompt_fails file vault g canvasData msg :
  CanvasLoader_load C vault file = Resolved canvasData ->
  CanvasLoader_buildPrompt C canvasData = Rejected msg ->
  CanvasParser_parseFile file vault g = (Returned (canvasErrorMarker file), g).
Proof. intros Hl Hb. run_js. now rewrite Hl, Hb. Qed.

(** *** Caching: what a second resolution returns *)

Lemma PDFParser_cache_hit file vault g cached :
  PDFCache_get C file (pdfCache g) = Resolved (Some cached) ->
  PDFParser_parseFile file vault g = (Returned (pdf_response cached), g).
Proof. intros H. run_js. now rewrite H. Qed.

Lemma PDFParser_cache_miss file vault g binaryContent r c :
  PDFCache_get C file (pdfCache g) = Resolved None ->
  readBinary vault file = Resolved binaryContent ->
  pdf4llm externalServicesClient binaryContent = Resolved r ->
  PDFCache_set C file r (pdfCache g) = Resolved c ->
  PDFParser_parseFile file vault g = (Returned (pdf_response r), withPdfCache g c).
Proof. intros Hg Hr Hp Hs. run_js. now rewrite Hg, Hr, Hp, Hs. Qed.

Lemma Docs4LLMParser_cache_hit project file vault g content :
  getOrReuseFileContext C project (path file) (projectContextCache g)
    = Resolved (Some content) ->
  content <> "" ->
  Docs4LLMParser_parseFile (Some project) file vault g = (Returned content, g).
Proof.
  intros H Hne. run_js. rewrite H. cbn.
  now rewrite (bool_decide_eq_false_2 (content = "")).
Qed.

(** What [Docs4LLMParser] computes from the binary content it has read. *)
Definition freshDocs4LLM (file : TFile) (vault : Vault) : Outcome string :=
  match readBinary vault file with
  | Rejected msg => Thrown (Propagated msg)
  | Resolved binaryContent =>
      match docs4llm externalServicesClient binaryContent (extension file) with
      | Rejected msg => Thrown (Propagated msg)
      | Resolved r =>
          if truthy (docs_response r)
          then Returned (extractContent (docs_response r))
          else Thrown EmptyDocs4llmResponse
      end
  end.

Lemma Docs4LLMParser_no_project file vault g :
  Docs4LLMParser_parseFile None file vault g = (freshDocs4LLM file vault, g).
Proof.
  run_js. unfold freshDocs4LLM. cbn.
  destruct (readBinary vault file) as [b|]; cbn; [|reflexivity].
  destruct (docs4llm externalServicesClient b (extension file)) as [r|]; cbn;
    [|reflexivity].
  now destruct (truthy (docs_response r)).
Qed.

(** The cache laws assumed of the two singletons: an entry that has been
    stored is the one read back, and a store that went through can be
    repeated. *)
Hypothesis PDFCache_get_set : forall file r c c',
  PDFCache_set C file r c = Resolved c' ->
  PDFCache_get C file c' = Resolved (Some r).
Hypothesis getOrReuseFileContext_set : forall project key content c c',
  setFileContext C project key content c = Resolved c' ->
  getOrReuseFileContext C project key c' = Resolved (Some content).
Hypothesis setFileContext_again : forall project key content c c',
  setFileContext C project key content c = Resolved c' ->
  exists c'', setFileContext C project key content c' = Resolved c''.

Lemma PDFParser_twice file vault g :
  fst (PDFParser_parseFile file vault (snd (PDFParser_parseFile file vault g)))
  = fst (PDFParser_parseFile file vault g).
Proof using PDFCache_get_set.
  destruct (PDFParser_failure_is_marker file vault g)
    as [E | [[cached [G E]] | [b [r [c [R [P [S E]]]]]]]]; rewrite E; cbn [fst snd].
  - now rewrite E.
  - now rewrite E.
  - apply PDFCache_get_set in S.
    now rewrite (PDFParser_cache_hit file vault (withPdfCache g c) r S).
Qed.

Lemma Docs4LLMParser_twice project file vault g :
  fst (Docs4LLMParser_parseFile project file vault
         (snd (Docs4LLMParser_parseFile project file vault g)))
  = fst (Docs4LLMParser_parseFile project file vault g).
Proof using getOrReuseFileContext_set setFileContext_again.
  destruct project as [p|]; [|now rewrite !Docs4LLMParser_no_project].
  destruct (getOrReuseFileContext C p (path file) (projectContextCache g))
    as [cachedContent|msg] eqn:G.
  2:{ assert (E : Docs4LLMParser_parseFile (Some p) file vault g
                  = (Thrown (Propagated msg), g)) by (run_js; now rewrite G).
      rewrite E; cbn [fst snd]; now rewrite E. }
  destruct (truthyString cachedContent) eqn:T.
  { assert (E : Docs4LLMParser_parseFile (Some p) file vault g
                = (Returned (default "" cachedContent), g))
      by (run_js; rewrite G; cbn; now rewrite T).
    rewrite E; cbn [fst snd]; now rewrite E. }
  destruct (readBinary vault file) as [b|msg] eqn:R.
  2:{ assert (E : Docs4LLMParser_parseFile (Some p) file vault g
                  = (Thrown (Propagated msg), g))
        by (run_js; rewrite G; cbn; now rewrite T, R).
      rewrite E; cbn [fst snd]; now rewrite E. }
  destruct (docs4llm externalServicesClient b (extension file)) as [r|msg] eqn:D.
  2:{ assert (E : Docs4LLMParser_parseFile (Some p) file vault g
                  = (Thrown (Propagated msg), g))
        by (run_js; rewrite G; cbn; now rewrite T, R, D).
      rewrite E; cbn [fst snd]; now rewrite E. }
  destruct (truthy (docs_response r)) eqn:Tr.
  2:{ assert (E : Docs4LLMParser_parseFile (Some p) file vault g
                  = (Thrown EmptyDocs4llmResponse, g))
        by (run_js; rewrite G; cbn; now rewrite T, R, D, Tr).
      rewrite E; cbn [fst snd]; now rewrite E. }
  set (content := extractContent (docs_response r)).
  destruct (setFileContext C p (path file) content (projectContextCache g))
    as [c|msg] eqn:S.
  2:{ assert (E : Docs4LLMParser_parseFile (Some p) file vault g
                  = (Thrown (Propagated msg), g)).
      { run_js. rewrite G. cbn. rewrite T, R, D. cbn. rewrite Tr. cbn.
        fold content. now rewrite S. }
      rewrite E; cbn [fst snd]; now rewrite E. }
  assert (E : Docs4LLMParser_parseFile (Some p) file vault g
              = (Returned content, withProjectContextCache g c)).
  { run_js. rewrite G. cbn. rewrite T, R, D. cbn. rewrite Tr. cbn.
    fold content. now rewrite S. }
  rewrite E. cbn [fst snd].
  pose proof (getOrReuseFileContext_set _ _ _ _ _ S) as G'.
  destruct (decide (content = "")) as [Hc|Hc].
  - destruct (setFileContext_again _ _ _ _ _ S) as [c'' S'].
    clear E. run_js. cbn. rewrite G'. cbn.
    rewrite (bool_decide_eq_true_2 _ Hc). cbn. rewrite R, D. cbn.
    rewrite Tr. cbn. fold content. now rewrite S'.
  - now rewrite (Docs4LLMParser_cache_hit p file vault
                   (withProjectContextCache g c) content G' Hc).
Qed.

Lemma parser_twice parser file vault g :
  fst (parser_parseFile parser file vault
         (snd (parser_parseFile parser file vault g)))
  = fst (parser_parseFile parser file vault g).
Proof using PDFCache_get_set getOrReuseFileContext_set setFileContext_again.
  destruct parser as [| | |project]; simpl.
  - destruct (MarkdownParser_returns file vault g) as [s E].
    rewrite E; cbn [fst snd]; now rewrite E.
  - apply PDFParser_twice.
  - destruct (CanvasParser_returns file vault g) as [s E].
    rewrite E; cbn [fst snd]; now rewrite E.
  - apply Docs4LLMParser_twice.
Qed.

(** C1 (as amended).  Resolving the same file twice with nothing modified
    in between yields the same outcome, for each parser and through the
    manager.  The content is not always re-read, though: PDFParser and, for
    a project, Docs4LLMParser ask their cache first, and on a hit return
    the stored text whatever the vault holds at that time (the file is not
    read); only on a miss does PDFParser read the current content and store
    what it extracted.  Docs4LLMParser without a project uses no cache: its
    outcome is computed from the binary content read at call time and the
    state is left as it was. *)
Theorem resolution_consults_cache (file : TFile) (vault : Vault) (g : Globals) :
  (forall parser,
     fst (parser_parseFile parser file vault
            (snd (parser_parseFile parser file vault g)))
     = fst (parser_parseFile parser file vault g))
  /\ (forall isProjectMode project,
       let mgr := newFileParserManager isProjectMode project in
       fst (parseFile mgr file vault (snd (parseFile mgr file vault g)))
       = fst (parseFile mgr file vault g))
  /\ (forall cached vault',
       PDFCache_get C file (pdfCache g) = Resolved (Some cached) ->
       PDFParser_parseFile file vault' g = (Returned (pdf_response cached), g))
  /\ (forall project content vault',
       getOrReuseFileContext C project (path file) (projectContextCache g)
         = Resolved (Some content) ->
       content <> "" ->
       Docs4LLMParser_parseFile (Some project) file vault' g = (Returned content, g))
  /\ (forall binaryContent r c,
       PDFCache_get C file (pdfCache g) = Resolved None ->
       readBinary vault file = Resolved binaryContent ->
       pdf4llm externalServicesClient binaryContent = Resolved r ->
       PDFCache_set C file r (pdfCache g) = Resolved c ->
       PDFParser_parseFile file vault g
       = (Returned (pdf_response r), withPdfCache g c))
  /\ Docs4LLMParser_parseFile None file vault g = (freshDocs4LLM file vault, g).
Proof using PDFCache_get_set getOrReuseFileContext_set setFileContext_again.
  split; [intros parser; apply parser_twice|].
  split.
  { intros isProjectMode project mgr. unfold parseFile.
    destruct (parsers mgr !! extension file) as [parser|].
    - apply parser_twice.
    - reflexivity. }
  split; [intros cached vault'; apply PDFParser_cache_hit|].
  split; [intros project content vault'; apply Docs4LLMParser_cache_hit|].
  split; [intros b r c; apply PDFParser_cache_miss|].
  apply Docs4LLMParser_no_project.
Qed.

(** *** The manager's table of extensions *)

Definition acceptedExtensions : list string :=
  ["md"; "pdf"; "docx"; "txt"; "html"; "htm"; "csv"; "json"; "canvas"].

(** The parser each extension is dispatched to by a freshly constructed
    manager. *)
Definition dispatchTable (isProjectMode : bool) (project : option (ProjectConfig C))
    (ext : string) : option FileParser :=
  if bool_decide (ext = "canvas") then Some CanvasParser
  else if bool_decide (ext = "pdf")
       then Some (if isProjectMode then Docs4LLMParser project else PDFParser)
  else if bool_decide (ext ∈ ["docx"; "txt"; "md"; "html"; "htm"; "csv"; "json"])
       then Some (Docs4LLMParser project)
  else None.

Lemma manager_table isProjectMode project ext :
  parsers (newFileParserManager isProjectMode project) !! ext
  = dispatchTable isProjectMode project ext.
Proof.
  rewrite manager_lookup. unfold registrationOrder, dispatchTable.
  destruct (decide (ext = "canvas")) as [->|H1];
    [destruct isProjectMode; reflexivity|].
  destruct (decide (ext = "pdf")) as [->|H2];
    [destruct isProjectMode; reflexivity|].
  destruct (decide (ext = "md")) as [->|H3];
    [destruct isProjectMode; reflexivity|].
  destruct (decide (ext = "docx")) as [->|H4];
    [destruct isProjectMode; reflexivity|].
  destruct (decide (ext = "txt")) as [->|H5];
    [destruct isProjectMode; reflexivity|].
  destruct (decide (ext = "html")) as [->|H6];
    [destruct isProjectMode; reflexivity|].
  destruct (decide (ext = "htm")) as [->|H7];
    [destruct isProjectMode; reflexivity|].
  destruct (decide (ext = "csv")) as [->|H8];
    [destruct isProjectMode; reflexivity|].
  destruct (decide (ext = "json")) as [->|H9];
    [destruct isProjectMode; reflexivity|].
  assert (N : forall l : list string,
            Forall (fun e => ext <> e) l -> bool_decide (ext ∈ l) = false).
  { intros l Hl. apply bool_decide_eq_false_2. intros Hin.
    rewrite List.Forall_forall in Hl. apply list_elem_of_In in Hin.
    now apply Hl in Hin. }
  rewrite (bool_decide_eq_false_2 (ext = "canvas")) by assumption.
  rewrite (bool_decide_eq_false_2 (ext = "pdf")) by assumption.
  rewrite (N ["docx"; "txt"; "md"; "html"; "htm"; "csv"; "json"])
    by (repeat constructor; assumption).
  destruct isProjectMode; simpl;
    rewrite ?(N ["md"]), ?(N ["pdf"]), ?(N ["canvas"]),
      ?(N ["pdf"; "docx"; "txt"; "md"; "html"; "htm"; "csv"; "json"])
      by (repeat constructor; assumption);
    reflexivity.
Qed.

Lemma accepted_lowercase ext : ext ∈ acceptedExtensions -> toLowerCase ext = ext.
Proof.
  unfold acceptedExtensions. intros H.
  repeat (apply elem_of_cons in H; destruct H as [->|H]; [reflexivity|]).
  now apply elem_of_nil in H.
Qed.

Ltac in_list := repeat first [apply list_elem_of_here | apply list_elem_of_further].

Lemma dispatchTable_is_Some isProjectMode project ext :
  is_Some (dispatchTable isProjectMode project ext) <-> ext ∈ acceptedExtensions.
Proof.
  unfold dispatchTable, acceptedExtensions.
  destruct (decide (ext = "canvas")) as [->|H1].
  { split; intros _; [in_list | simpl; eauto]. }
  rewrite (bool_decide_eq_false_2 _ H1).
  destruct (decide (ext = "pdf")) as [->|H2].
  { split; intros _; [in_list | simpl; eauto]. }
  rewrite (bool_decide_eq_false_2 _ H2).
  destruct (decide (ext ∈ ["docx"; "txt"; "md"; "html"; "htm"; "csv"; "json"]))
    as [Hin|Hout].
  { rewrite (bool_decide_eq_true_2 _ Hin). split; intros _; [|eauto].
    repeat (apply elem_of_cons in Hin; destruct Hin as [->|Hin]; [in_list|]).
    now apply elem_of_nil in Hin. }
  rewrite (bool_decide_eq_false_2 _ Hout).
  split; [intros [p Hp]; discriminate|].
  intros Hin. exfalso.
  apply elem_of_cons in Hin. destruct Hin as [->|Hin]; [apply Hout; in_list|].
  apply elem_of_cons in Hin. destruct Hin as [->|Hin]; [congruence|].
  repeat (apply elem_of_cons in Hin; destruct Hin as [->|Hin];
          [first [congruence | apply Hout; in_list]|]).
  now apply elem_of_nil in Hin.
Qed.

(** X1. A freshly constructed manager accepts exactly the nine extensions
    md, pdf, docx, txt, html, htm, csv, json and canvas, in project mode
    and outside it, and only in that lower-case spelling.  No extension is
    dispatched to MarkdownParser: "md" goes to Docs4LLMParser, which is
    registered after it; "pdf" is the only extension whose parser depends
    on the mode. *)
Theorem manager_extension_table (isProjectMode : bool)
    (project : option (ProjectConfig C)) (ext : string) :
  let mgr := newFileParserManager isProjectMode project in
  supportsExtension mgr ext = bool_decide (ext ∈ acceptedExtensions)
  /\ parsers mgr !! ext = dispatchTable isProjectMode project ext
  /\ parsers mgr !! ext <> Some MarkdownParser
  /\ (supportsExtension mgr ext = true -> toLowerCase ext = ext)
  /\ (ext <> "pdf" ->
      parsers mgr !! ext = parsers (newFileParserManager (negb isProjectMode) project) !! ext).
Proof.
  intros mgr.
  assert (T : parsers mgr !! ext = dispatchTable isProjectMode project ext)
    by apply manager_table.
  assert (S : supportsExtension mgr ext = bool_decide (ext ∈ acceptedExtensions)).
  { unfold supportsExtension. rewrite T. apply bool_decide_ext.
    apply dispatchTable_is_Some. }
  split; [exact S|]. split; [exact T|]. split.
  { rewrite T. unfold dispatchTable.
    repeat case_bool_decide; try discriminate; destruct isProjectMode; discriminate. }
  split.
  { rewrite S. intros H. apply bool_decide_eq_true_1 in H.
    now apply accepted_lowercase. }
  intros Hne. rewrite T, manager_table. unfold dispatchTable.
  now rewrite (bool_decide_eq_false_2 (ext = "pdf")).
Qed.

(** *** Registering one more parser *)

(** [registerParser] as a method: it replaces [this.parsers]. *)
Definition FileParserManager_registerParser (parser : FileParser)
    (mgr : FileParserManager) : FileParserManager :=
  {| parsers := registerParser parser (parsers mgr);
     isProjectMode := isProjectMode mgr;
     currentProject := currentProject mgr |}.

(** X2. Registering a parser on any manager makes [parseFile] run that
    parser for every extension it lists, keeps the dispatch of every other
    extension, never withdraws support for an extension, and registering
    the same parser a second time changes nothing. *)
Theorem registerParser_takes_over (mgr : FileParserManager) (parser : FileParser)
    (file : TFile) (vault : Vault) (g : Globals) :
  let mgr' := FileParserManager_registerParser parser mgr in
  (extension file ∈ supportedExtensions parser ->
   parseFile mgr' file vault g = parser_parseFile parser file vault g)
  /\ (extension file ∉ supportedExtensions parser ->
      parseFile mgr' file vault g = parseFile mgr file vault g)
  /\ (forall ext, supportsExtension mgr ext = true -> supportsExtension mgr' ext = true)
  /\ (forall ext, ext ∈ supportedExtensions parser -> supportsExtension mgr' ext = true)
  /\ parsers (FileParserManager_registerParser parser mgr') = parsers mgr'.
Proof.
  intros mgr'.
  assert (L : forall ext, parsers mgr' !! ext =
                          if bool_decide (ext ∈ supportedExtensions parser)
                          then Some parser else parsers mgr !! ext)
    by (intros ext; apply registerParser_lookup).
  split; [|split; [|split; [|split]]].
  - intros H. unfold parseFile. now rewrite L, (bool_decide_eq_true_2 _ H).
  - intros H. unfold parseFile. now rewrite L, (bool_decide_eq_false_2 _ H).
  - intros ext. unfold supportsExtension. rewrite L.
    destruct (bool_decide (ext ∈ supportedExtensions parser)); [|tauto].
    intros _. apply bool_decide_eq_true_2. eauto.
  - intros ext H. unfold supportsExtension.
    rewrite L, (bool_decide_eq_true_2 _ H). apply bool_decide_eq_true_2. eauto.
  - apply map_eq. intros ext. simpl. rewrite registerParser_lookup.
    change (registerParser parser (parsers mgr)) with (parsers mgr').
    rewrite L. now destruct (bool_decide (ext ∈ supportedExtensions parser)).
Qed.

(** *** Clearing the PDF cache *)

(** X3. [clearPDFCache] only reaches the PDF cache outside project mode:
    for a manager constructed in project mode it does nothing at all, since
    "pdf" then belongs to Docs4LLMParser; otherwise it replaces the PDF
    cache by the cleared one, and a failing clear is passed on to the
    caller with the state untouched.  The project context cache is never
    touched. *)
Theorem clearPDFCache_outside_project_mode (project : option (ProjectConfig C))
    (g : Globals) :
  clearPDFCache (newFileParserManager true project) g = (Returned tt, g)
  /\ (forall c, PDFCache_clear C (pdfCache g) = Resolved c ->
        clearPDFCache (newFileParserManager false project) g
        = (Returned tt, withPdfCache g c))
  /\ (forall msg, PDFCache_clear C (pdfCache g) = Rejected msg ->
        clearPDFCache (newFileParserManager false project) g
        = (Thrown (Propagated msg), g))
  /\ (forall isProjectMode,
        projectContextCache
          (snd (clearPDFCache (newFileParserManager isProjectMode project) g))
        = projectContextCache g).
Proof.
  assert (P : clearPDFCache (newFileParserManager true project) g = (Returned tt, g)).
  { unfold clearPDFCache. rewrite manager_table. reflexivity. }
  assert (N : clearPDFCache (newFileParserManager false project) g
              = PDFParser_clearCache g).
  { unfold clearPDFCache. rewrite manager_table. reflexivity. }
  split; [exact P|]. split; [|split].
  - intros c H. rewrite N. run_js. now rewrite H.
  - intros msg H. rewrite N. run_js. now rewrite H.
  - intros [|]; [now rewrite P|]. rewrite N. run_js.
    destruct (PDFCache_clear C (pdfCache g)); reflexivity.
Qed.

(** *** What MarkdownParser reads *)

Definition showsFile (file : TFile) (leaf : MarkdownLeaf) : Prop :=
  isMarkdownView leaf = true /\ path <$> viewFile leaf = Some (path file).

Lemma findOpenView_first before leaf after file :
  Forall (fun l => ~ showsFile file l) before ->
  showsFile file leaf ->
  findOpenView (before ++ leaf :: after)%list file = Some (viewData leaf).
Proof.
  intros Hb [Hm Hp]. induction Hb as [|l before Hl _ IH]; simpl.
  - now rewrite Hm, (bool_decide_eq_true_2 _ Hp).
  - destruct (isMarkdownView l) eqn:E; simpl; [|exact IH].
    rewrite bool_decide_eq_false_2; [exact IH|].
    intros H. apply Hl. now split.
Qed.

(** X4. MarkdownParser prefers the editor: when the note is open in a
    markdown view, the text of the first such view is returned whatever the
    vault holds or fails to read.  Otherwise a non-empty cached read is
    returned as it is; an empty cached read is trusted only for a file of
    size 0 and is otherwise checked by a direct read; and a failing cached
    read falls back to the direct read.  The state is never changed. *)
Theorem MarkdownParser_reads (file : TFile) (vault : Vault) (g : Globals) :
  (forall before leaf after vault',
     markdownLeaves (app g) = Some (before ++ leaf :: after)%list ->
     Forall (fun l => ~ showsFile file l) before ->
     showsFile file leaf ->
     MarkdownParser_parseFile file vault' g = (Returned (viewData leaf), g))
  /\ (readOpenMarkdownViewText (app g) file = None ->
      (forall t, cachedRead vault file = Resolved t -> t <> "" ->
         MarkdownParser_parseFile file vault g = (Returned t, g))
      /\ (cachedRead vault file = Resolved "" ->
          size <$> stat file = Some 0%Z ->
          MarkdownParser_parseFile file vault g = (Returned "", g))
      /\ (forall t, cachedRead vault file = Resolved "" ->
          size <$> stat file <> Some 0%Z ->
          read vault file = Resolved t ->
          MarkdownParser_parseFile file vault g = (Returned t, g))
      /\ (forall msg t, cachedRead vault file = Rejected msg ->
          read vault file = Resolved t ->
          MarkdownParser_parseFile file vault g = (Returned t, g))).
Proof.
  split.
  - intros before leaf after vault' Hl Hb Hs. unfold MarkdownParser_parseFile,
      readOpenMarkdownViewText. rewrite Hl.
    now rewrite (findOpenView_first _ _ _ _ Hb Hs).
  - intros Ho. split; [|split; [|split]].
    + intros t Hc Ht. run_js. rewrite Ho, Hc.
      destruct t; [congruence|reflexivity].
    + intros Hc Hz. run_js. rewrite Ho, Hc. simpl.
      now rewrite (bool_decide_eq_true_2 _ Hz).
    + intros t Hc Hz Hr. run_js. rewrite Ho, Hc. simpl.
      now rewrite (bool_decide_eq_false_2 _ Hz), Hr.
    + intros msg t Hc Hr. run_js. now rewrite Ho, Hc, Hr.
Qed.

(** *** Where a returned text comes from *)

Lemma Docs4LLMParser_returned project file vault g s g' :
  Docs4LLMParser_parseFile project file vault g = (Returned s, g') ->
  truthyString (Some s) = true
  \/ exists binaryContent r,
       readBinary vault file = Resolved binaryContent
       /\ docs4llm externalServicesClient binaryContent (extension file) = Resolved r
       /\ truthy (docs_response r) = true
       /\ s = extractContent (docs_response r).
Proof.
  run_js. repeat case_step; intros H; inversion H; subst; clear H;
    repeat match goal with
           | E : (_, _) = (_, _) |- _ => inversion E; subst; clear E
           | E : negb _ = false |- _ => apply negb_false_iff in E
           end;
    try (right; eauto 10; fail);
    left.
  all: try (simpl in *; discriminate).
  all: match goal with
       | E : truthyString ?o = true |- _ =>
           destruct o; simpl in *; [exact E | discriminate]
       end.
Qed.

End Parsers.

(** *** An instance to run the parsers on

    Caches keyed by file path (and project name), a canvas loader that
    reads the file, and a host in which PDFs and documents are plain
    text. *)

Definition pathKeyed : Collaborators := {|
  ProjectConfig := string;
  PDFCache := gmap string Pdf4llmResponse;
  PDFCache_get := fun file c => Resolved (c !! path file);
  PDFCache_set := fun file r c => Resolved (<[path file := r]> c);
  PDFCache_clear := fun _ => Resolved ∅;
  ProjectContextCache := gmap (string * string) string;
  getOrReuseFileContext := fun project key c => Resolved (c !! (project, key));
  setFileContext := fun project key content c => Resolved (<[(project, key) := content]> c);
  CanvasData := string;
  CanvasLoader_load := fun vault file => read vault file;
  CanvasLoader_buildPrompt := fun data => Resolved data;
  JSON_stringify := ToString
|}.

Definition plainTextHost : Host := {|
  fetch := fun _ => Rejected "offline";
  pdfjs_getDocument := fun b =>
    match b with
    | [] => Rejected "Invalid PDF structure"
    | _ => Resolved [Resolved [Some (string_of_list_byte b)]]
    end;
  mammoth_import := Resolved None;
  DOMParser_bodyText := fun html => Resolved (Some html);
  TextDecoder_decode := fun b => Resolved (string_of_list_byte b)
|}.

Definition client : Client := getInstance plainTextHost.

(** A vault holding one readable file. *)
Definition vaultWith (p : string) (content : string) : Vault := {|
  cachedRead := fun file => if bool_decide (path file = p) then Resolved content
                            else Rejected "ENOENT";
  read := fun file => if bool_decide (path file = p) then Resolved content
                      else Rejected "ENOENT";
  readBinary := fun file => if bool_decide (path file = p)
                            then Resolved (list_byte_of_string content)
                            else Rejected "ENOENT"
|}.

Definition emptyVault : Vault := {|
  cachedRead := fun _ => Rejected "ENOENT";
  read := fun _ => Rejected "ENOENT";
  readBinary := fun _ => Rejected "ENOENT"
|}.

Definition noGlobals : Globals pathKeyed :=
  {| app := {| markdownLeaves := None |}; pdfCache := ∅; projectContextCache := ∅ |}.

Definition reportTxt : TFile :=
  {| path := "docs/report.txt"; basename := "report"; extension := "txt"; stat := None |}.
Definition paperPdf : TFile :=
  {| path := "docs/paper.pdf"; basename := "paper"; extension := "pdf"; stat := None |}.

Definition projectManager : FileParserManager pathKeyed :=
  newFileParserManager pathKeyed true (Some "thesis" : option (ProjectConfig pathKeyed)).
Definition plainManager : FileParserManager pathKeyed :=
  newFileParserManager pathKeyed false None.

Definition reportBefore : Vault := vaultWith "docs/report.txt" "old text".
Definition reportAfter : Vault := vaultWith "docs/report.txt" "new text entirely".

Lemma pathKeyed_PDFCache_get_set file r (c c' : PDFCache pathKeyed) :
  PDFCache_set pathKeyed file r c = Resolved c' ->
  PDFCache_get pathKeyed file c' = Resolved (Some r).
Proof.
  simpl. intros H. inversion H; subst. now rewrite lookup_insert_eq.
Qed.

Lemma pathKeyed_getOrReuseFileContext_set project key content
    (c c' : ProjectContextCache pathKeyed) :
  setFileContext pathKeyed project key content c = Resolved c' ->
  getOrReuseFileContext pathKeyed project key c' = Resolved (Some content).
Proof.
  simpl. intros H. inversion H; subst. now rewrite lookup_insert_eq.
Qed.

Lemma pathKeyed_setFileContext_again project key content
    (c c' : ProjectContextCache pathKeyed) :
  setFileContext pathKeyed project key content c = Resolved c' ->
  exists c'', setFileContext pathKeyed project key content c' = Resolved c''.
Proof. simpl. eauto. Qed.

Example project_mode_dispatch :
  parsers pathKeyed projectManager !! "pdf" = Some (Docs4LLMParser pathKeyed (Some "thesis"))
  /\ parsers pathKeyed plainManager !! "pdf" = Some (PDFParser pathKeyed)
  /\ parsers pathKeyed plainManager !! "md" = Some (Docs4LLMParser pathKeyed None)
  /\ parsers pathKeyed plainManager !! "png" = None.
Proof. vm_compute. repeat split. Qed.

(** C1 fails as stated: in project mode the text of docs/report.txt is
    resolved and cached; the file then changes; the second resolution still
    returns the old text, whereas reading the file at that time gives the
    new one. *)
Lemma stale_cached_resolution :
  fst (parseFile pathKeyed client projectManager reportTxt reportBefore noGlobals)
    = Returned "old text"
  /\ fst (parseFile pathKeyed client projectManager reportTxt reportAfter
            (snd (parseFile pathKeyed client projectManager reportTxt reportBefore
                    noGlobals)))
      = Returned "old text"
  /\ fst (parseFile pathKeyed client projectManager reportTxt reportAfter noGlobals)
      = Returned "new text entirely".
Proof. vm_compute. repeat split. Qed.

Lemma resolution_consults_cache_witness :
  fst (parseFile pathKeyed client plainManager paperPdf
         (vaultWith "docs/paper.pdf" "some pdf")
         (snd (parseFile pathKeyed client plainManager paperPdf
                 (vaultWith "docs/paper.pdf" "some pdf") noGlobals)))
  = fst (parseFile pathKeyed client plainManager paperPdf
           (vaultWith "docs/paper.pdf" "some pdf") noGlobals).
Proof.
  destruct (resolution_consults_cache pathKeyed client
              pathKeyed_PDFCache_get_set
              pathKeyed_getOrReuseFileContext_set
              pathKeyed_setFileContext_again
              paperPdf (vaultWith "docs/paper.pdf" "some pdf") noGlobals)
    as [_ [H _]].
  exact (H false None).
Defined.

(** C2 fails as stated: with the note notes/a.md or the document
    docs/report.txt deleted, resolving it (through Docs4LLMParser, the
    parser registered last for "md" and "txt") throws the read error; an
    empty file makes it throw the empty-response error; and a file type
    without parser makes the manager throw.  None of them returns a
    marker. *)
Lemma unresolvable_reference_throws :
  fst (parseFile pathKeyed client plainManager ActiveFileTracker.noteA emptyVault
         noGlobals)
    = Thrown (Propagated "ENOENT")
  /\ fst (parseFile pathKeyed client plainManager reportTxt emptyVault noGlobals)
      = Thrown (Propagated "ENOENT")
  /\ fst (parseFile pathKeyed client plainManager reportTxt
            (vaultWith "docs/report.txt" "") noGlobals)
      = Thrown EmptyDocs4llmResponse
  /\ fst (parseFile pathKeyed client plainManager ActiveFileTracker.picture
            emptyVault noGlobals)
      = Thrown (NoParserFound "png").
Proof. vm_compute. repeat split. Qed.

(** C2 (as amended).  PDFParser and CanvasParser never throw.  PDFParser
    returns its inline marker "[Error: Could not extract content from PDF
    <basename>]" when the cache lookup fails, when the file cannot be read,
    when the client's [pdf4llm] rejects, and when storing the result in the
    cache fails; when the client answers, its text is returned whatever it
    is.  With [ExternalServicesClient] as the client a failed extraction is
    such an answer: [pdf4llm] swallows the failure, and PDFParser returns
    the empty string, not the marker.  CanvasParser returns its marker
    "[Error: Could not parse Canvas file <basename>]" when loading the
    canvas or building the prompt fails.  Docs4LLMParser does not degrade:
    without a usable cache entry, an unreadable file makes it rethrow the
    read error, and an empty parse result makes it throw the empty-response
    error; the state is left as it was.  MarkdownParser and [url4llm] do
    not throw either, but leave no marker: a note that cannot be read gives
    the empty string, and so does a URL that cannot be fetched. *)
Theorem parse_failure_outcomes (C : Collaborators) (externalServicesClient : Client)
    (host : Host) (project : option (ProjectConfig C))
    (file : TFile) (vault : Vault) (g : Globals C) :
  (exists s g', PDFParser_parseFile C externalServicesClient file vault g
                = (Returned s, g'))
  /\ (forall msg,
        PDFCache_get C file (pdfCache C g) = Rejected msg ->
        PDFParser_parseFile C externalServicesClient file vault g
        = (Returned (pdfErrorMarker file), g))
  /\ (forall msg,
        PDFCache_get C file (pdfCache C g) = Resolved None ->
        readBinary vault file = Rejected msg ->
        PDFParser_parseFile C externalServicesClient file vault g
        = (Returned (pdfErrorMarker file), g))
  /\ (forall binaryContent msg,
        PDFCache_get C file (pdfCache C g) = Resolved None ->
        readBinary vault file = Resolved binaryContent ->
        pdf4llm externalServicesClient binaryContent = Rejected msg ->
        PDFParser_parseFile C externalServicesClient file vault g
        = (Returned (pdfErrorMarker file), g))
  /\ (forall binaryContent r msg,
        PDFCache_get C file (pdfCache C g) = Resolved None ->
        readBinary vault file = Resolved binaryContent ->
        pdf4llm externalServicesClient binaryContent = Resolved r ->
        PDFCache_set C file r (pdfCache C g) = Rejected msg ->
        PDFParser_parseFile C externalServicesClient file vault g
        = (Returned (pdfErrorMarker file), g))
  /\ (forall binaryContent r c,
        PDFCache_get C file (pdfCache C g) = Resolved None ->
        readBinary vault file = Resolved binaryContent ->
        pdf4llm externalServicesClient binaryContent = Resolved r ->
        PDFCache_set C file r (pdfCache C g) = Resolved c ->
        PDFParser_parseFile C externalServicesClient file vault g
        = (Returned (pdf_response r), withPdfCache C g c))
  /\ (forall binaryContent msg c,
        PDFCache_get C file (pdfCache C g) = Resolved None ->
        readBinary vault file = Resolved binaryContent ->
        pdfjs_getDocument host binaryContent = Rejected msg ->
        PDFCache_set C file {| pdf_response := "" |} (pdfCache C g) = Resolved c ->
        PDFParser_parseFile C (getInstance host) file vault g
        = (Returned "", withPdfCache C g c))
  /\ (exists s, CanvasParser_parseFile C file vault g = (Returned s, g))
  /\ (forall msg,
        CanvasLoader_load C vault file = Rejected msg ->
        CanvasParser_parseFile C file vault g = (Returned (canvasErrorMarker file), g))
  /\ (forall canvasData msg,
        CanvasLoader_load C vault file = Resolved canvasData ->
        CanvasLoader_buildPrompt C canvasData = Rejected msg ->
        CanvasParser_parseFile C file vault g = (Returned (canvasErrorMarker file), g))
  /\ (forall msg,
        cacheMiss C project file g ->
        readBinary vault file = Rejected msg ->
        Docs4LLMParser_parseFile C externalServicesClient project file vault g
        = (Thrown (Propagated msg), g))
  /\ (forall binaryContent r,
        cacheMiss C project file g ->
        readBinary vault file = Resolved binaryContent ->
        docs4llm externalServicesClient binaryContent (extension file) = Resolved r ->
        truthy (docs_response r) = false ->
        Docs4LLMParser_parseFile C externalServicesClient project file vault g
        = (Thrown EmptyDocs4llmResponse, g))
  /\ (exists s, MarkdownParser_parseFile C file vault g = (Returned s, g))
  /\ (forall msg1 msg2,
        readOpenMarkdownViewText (app C g) file = None ->
        cachedRead vault file = Rejected msg1 ->
        read vault file = Rejected msg2 ->
        MarkdownParser_parseFile C file vault g = (Returned "", g))
  /\ (forall url, exists r, url4llm host url = Resolved r)
  /\ (forall url msg,
        fetch host url = Rejected msg ->
        url4llm host url = Resolved {| url_response := "" |}).
Proof.
  split; [apply PDFParser_returns|].
  split; [intros msg; apply PDFParser_cache_unavailable|].
  split; [intros msg; apply PDFParser_unreadable|].
  split; [intros b msg; apply PDFParser_client_rejects|].
  split; [intros b r msg; apply PDFParser_store_fails|].
  split; [intros b r c; apply PDFParser_cache_miss|].
  split.
  { intros b msg c Hg Hr Hp Hs.
    apply (PDFParser_cache_miss C (getInstance host) file vault g b
             {| pdf_response := "" |} c Hg Hr); [|exact Hs].
    simpl. unfold pdf4llm_impl. now rewrite Hp. }
  split; [apply CanvasParser_returns|].
  split; [intros msg; apply CanvasParser_unreadable|].
  split; [intros d msg; apply CanvasParser_prompt_fails|].
  split; [intros msg; apply Docs4LLMParser_unreadable|].
  split; [intros b r; apply Docs4LLMParser_empty_parse|].
  split; [apply MarkdownParser_returns|].
  split; [intros msg1 msg2; apply MarkdownParser_unreadable|].
  split; [intros url; apply url4llm_resolves|].
  intros url msg. apply url4llm_unreachable.
Qed.

Lemma parse_failure_outcomes_witness :
  PDFParser_parseFile pathKeyed client paperPdf emptyVault noGlobals
    = (Returned (pdfErrorMarker paperPdf), noGlobals)
  /\ fst (PDFParser_parseFile pathKeyed client paperPdf
            (vaultWith "docs/paper.pdf" "") noGlobals)
      = Returned ""
  /\ Docs4LLMParser_parseFile pathKeyed client None reportTxt emptyVault noGlobals
      = (Thrown (Propagated "ENOENT"), noGlobals).
Proof.
  destruct (parse_failure_outcomes pathKeyed client plainTextHost None reportTxt
              emptyVault noGlobals)
    as [_ [_ [_ [_ [_ [_ [_ [_ [_ [_ [D _]]]]]]]]]]].
  destruct (parse_failure_outcomes pathKeyed client plainTextHost None paperPdf
              emptyVault noGlobals)
    as [_ [_ [P _]]].
  destruct (parse_failure_outcomes pathKeyed client plainTextHost None paperPdf
              (vaultWith "docs/paper.pdf" "") noGlobals)
    as [_ [_ [_ [_ [_ [_ [E _]]]]]]].
  split; [|split].
  - apply (P "ENOENT"); reflexivity.
  - unfold client.
    rewrite (E [] "Invalid PDF structure" _ eq_refl eq_refl eq_refl eq_refl).
    reflexivity.
  - apply (D "ENOENT"); [exact I | reflexivity].
Defined.

Lemma parseFile_dispatch_witness :
  parseFile pathKeyed client plainManager paperPdf emptyVault noGlobals
    = PDFParser_parseFile pathKeyed client paperPdf emptyVault noGlobals
  /\ parseFile pathKeyed client projectManager paperPdf emptyVault noGlobals
      = Docs4LLMParser_parseFile pathKeyed client (Some "thesis") paperPdf emptyVault
          noGlobals.
Proof.
  split.
  - destruct (parseFile_dispatch pathKeyed client false None paperPdf emptyVault
                noGlobals) as [_ [_ [_ [_ H]]]].
    exact (H eq_refl).
  - destruct (parseFile_dispatch pathKeyed client true (Some "thesis") paperPdf
                emptyVault noGlobals) as [_ [_ [_ [_ H]]]].
    exact (H eq_refl).
Defined.

(** *** The parsers with the real client *)

(** X5. With [ExternalServicesClient] as its client, Docs4LLMParser never
    returns an empty text: what it returns is either a non-empty cache
    entry or the non-empty string the client extracted from the binary
    content just read (the client always answers with a string, so the
    array and object branches of the extraction are not taken). *)
Theorem Docs4LLMParser_never_returns_empty (C : Collaborators) (host : Host)
    (project : option (ProjectConfig C)) (file : TFile) (vault : Vault)
    (g g' : Globals C) (s : string) :
  Docs4LLMParser_parseFile C (getInstance host) project file vault g = (Returned s, g') ->
  s <> ""
  /\ ((exists p, project = Some p /\
                 getOrReuseFileContext C p (path file) (projectContextCache C g)
                 = Resolved (Some s))
      \/ exists binaryContent,
           readBinary vault file = Resolved binaryContent
           /\ docs4llm_impl host binaryContent (extension file)
              = Resolved {| docs_response := JsString s |}).
Proof.
  intros H.
  assert (Hne : s <> "").
  { apply Docs4LLMParser_returned in H. destruct H as [H|[b [r [_ [D [T ->]]]]]].
    - simpl in H. apply negb_true_iff, bool_decide_eq_false_1 in H. exact H.
    - simpl in D. destruct (docs4llm_resolves_string host b (extension file)) as [t Ht].
      rewrite Ht in D. inversion D; subst. simpl in *.
      apply negb_true_iff, bool_decide_eq_false_1 in T. exact T. }
  split; [exact Hne|].
  unfold Docs4LLMParser_parseFile, tryCatch, bind, awaitRead, awaitWrite, await,
    ret, throw in H.
  destruct project as [p|].
  - destruct (getOrReuseFileContext C p (path file) (projectContextCache C g))
      as [cached|] eqn:G; [|discriminate].
    destruct (truthyString cached) eqn:T.
    + left. exists p. split; [reflexivity|].
      destruct cached as [t|]; [|discriminate].
      simpl in H. inversion H; subst. exact G.
    + right. destruct (readBinary vault file) as [b|]; [|discriminate].
      exists b. split; [reflexivity|]. simpl in H.
      destruct (docs4llm_resolves_string host b (extension file)) as [t Ht].
      rewrite Ht in *. simpl in H.
      destruct (negb (negb (bool_decide (t = "")))); [discriminate|].
      simpl in H. unfold io_bind in H.
      destruct (setFileContext C p (path file) t (projectContextCache C g));
        inversion H; subst; reflexivity.
  - right. simpl in H. destruct (readBinary vault file) as [b|]; [|discriminate].
    exists b. split; [reflexivity|]. simpl in H.
    destruct (docs4llm_resolves_string host b (extension file)) as [t Ht].
    rewrite Ht in *. simpl in H.
    destruct (negb (negb (bool_decide (t = "")))); [discriminate|].
    inversion H; subst; reflexivity.
Qed.

Lemma Docs4LLMParser_never_returns_empty_witness : "old text" <> "".
Proof.
  apply (Docs4LLMParser_never_returns_empty pathKeyed plainTextHost None reportTxt
           reportBefore noGlobals noGlobals "old text").
  reflexivity.
Defined.

(** X6. With [ExternalServicesClient] as its client, a PDF whose text
    extraction fails does not produce PDFParser's error marker: the client
    swallows the failure and answers with an empty text, PDFParser returns
    that empty text and stores it in the cache, and from then on the empty
    text is served from the cache whatever the vault holds. *)
Theorem failed_pdf_extraction_is_cached (C : Collaborators) (host : Host)
    (file : TFile) (vault : Vault) (g : Globals C) (binaryContent : ArrayBuffer)
    (msg : string) (c : PDFCache C) :
  (forall f r c0 c1, PDFCache_set C f r c0 = Resolved c1 ->
                     PDFCache_get C f c1 = Resolved (Some r)) ->
  PDFCache_get C file (pdfCache C g) = Resolved None ->
  readBinary vault file = Resolved binaryContent ->
  pdfjs_getDocument host binaryContent = Rejected msg ->
  PDFCache_set C file {| pdf_response := "" |} (pdfCache C g) = Resolved c ->
  PDFParser_parseFile C (getInstance host) file vault g
    = (Returned "", withPdfCache C g c)
  /\ forall vault',
       PDFParser_parseFile C (getInstance host) file vault' (withPdfCache C g c)
       = (Returned "", withPdfCache C g c).
Proof.
  intros Law Hg Hr Hp Hs.
  assert (E : pdf4llm (getInstance host) binaryContent
              = Resolved {| pdf_response := "" |}).
  { simpl. unfold pdf4llm_impl. now rewrite Hp. }
  split.
  - now rewrite (PDFParser_cache_miss C (getInstance host) file vault g
                   binaryContent _ c Hg Hr E Hs).
  - intros vault'. apply Law in Hs.
    now rewrite (PDFParser_cache_hit C (getInstance host) file vault'
                   (withPdfCache C g c) _ Hs).
Qed.

Lemma failed_pdf_extraction_is_cached_witness :
  fst (PDFParser_parseFile pathKeyed client paperPdf
         (vaultWith "docs/paper.pdf" "") noGlobals) = Returned ""
  /\ fst (PDFParser_parseFile pathKeyed client paperPdf
            (vaultWith "docs/paper.pdf" "now a real pdf")
            (snd (PDFParser_parseFile pathKeyed client paperPdf
                    (vaultWith "docs/paper.pdf" "") noGlobals))) = Returned "".
Proof.
  destruct (failed_pdf_extraction_is_cached pathKeyed plainTextHost paperPdf
              (vaultWith "docs/paper.pdf" "") noGlobals [] "Invalid PDF structure"
              (<["docs/paper.pdf" := {| pdf_response := "" |}]> ∅)
              pathKeyed_PDFCache_get_set eq_refl eq_refl eq_refl eq_refl)
    as [H1 H2].
  split.
  - unfold client. now rewrite H1.
  - unfold client. rewrite H1. simpl snd. now rewrite H2.
Defined.

End FileParsers.


(** ** InlineMessageEditor and ChatInput (edit mode) *)
Module InlineMessageEditor.
Import Js.

(** [ChatMessage["context"]] (@/types/message).  The editor reads every
    field through [?.] and [|| []], so each of them may be absent.
    [Sel] is the type of a selected-text snippet. *)
Record ChatMessageContext (Sel : Type) := {
  notes : option (list TFile);
  urls : option (list string);
  tags : option (list string);
  folders : option (list string);
  selectedTextContexts : option (list Sel)
}.
Arguments notes {Sel} _.
Arguments urls {Sel} _.
Arguments tags {Sel} _.
Arguments folders {Sel} _.
Arguments selectedTextContexts {Sel} _.

(** The context ChatInput hands to [onEditSave]. *)
Record EditContext := {
  edit_notes : list TFile;
  edit_urls : list string;
  edit_folders : list string
}.

(** [x || []] on an optional array (an empty array is truthy). *)
Definition orEmpty {A} (x : option (list A)) : list A :=
  match x with
  | Some l => l
  | None => []
  end.

Section Editor.
Context {Sel R : Type}.
(** The props [initialContext] and [onSave]. *)
Variable initialContext : option (ChatMessageContext Sel).
Variable onSave : string -> ChatMessageContext Sel -> R.

Definition handleEditSave (text : string) (context : EditContext) : R :=
  let newContext := {|
    notes := Some (edit_notes context);
    urls := Some (edit_urls context);
    tags := Some (orEmpty (initialContext ≫= tags));
    folders := Some (edit_folders context);
    selectedTextContexts := Some (orEmpty (initialContext ≫= selectedTextContexts))
  |} in
  onSave text newContext.

(** The metadata ChatInput passes to [handleSendMessage]. *)
Record SendMetadata := {
  toolCalls : list string;
  meta_urls : list string;
  meta_contextNotes : list TFile;
  meta_contextFolders : list string
}.

(** The state ChatInput holds that [onSendMessage] reads. *)
Record ChatInputState := {
  inputMessage : string;
  contextNotes : list TFile;
  contextUrls : list string;
  contextFolders : list string;
  vaultToggle : bool;
  webToggle : bool;
  composerToggle : bool;
  autonomousAgentToggle : bool
}.

(** ChatInput's [onSendMessage], for the props [editMode], [onEditSave],
    [handleSendMessage] and the derived [isCopilotPlus]. *)
Definition ChatInput_onSendMessage (editMode : bool)
    (onEditSave : option (string -> EditContext -> R))
    (handleSendMessage : option SendMetadata -> R)
    (isCopilotPlus : bool) (st : ChatInputState) : R :=
  match editMode, onEditSave with
  | true, Some save =>
      save (inputMessage st)
        {| edit_notes := contextNotes st;
           edit_urls := contextUrls st;
           edit_folders := contextFolders st |}
  | _, _ =>
      if negb isCopilotPlus then handleSendMessage None
      else
        let toolCalls :=
          if negb (autonomousAgentToggle st) then
            let messageLower := toLowerCase (inputMessage st) in
            ((if vaultToggle st && negb (includes "@vault" messageLower)
              then ["@vault"] else [])
             ++ (if webToggle st && negb (includes "@websearch" messageLower)
                    && negb (includes "@web" messageLower)
                 then ["@websearch"] else [])
             ++ (if composerToggle st && negb (includes "@composer" messageLower)
                 then ["@composer"] else []))%list
          else [] in
        handleSendMessage
          (Some {| toolCalls := toolCalls;
                   meta_contextNotes := contextNotes st;
                   meta_urls := contextUrls st;
                   meta_contextFolders := contextFolders st |})
  end.

(** The editor renders ChatInput with [editMode = true] and
    [onEditSave = handleEditSave]; [handleSendMessage] is its dummy
    handler. *)
Definition onSendMessage (handleSendMessage : option SendMetadata -> R)
    (isCopilotPlus : bool) (st : ChatInputState) : R :=
  ChatInput_onSendMessage true (Some handleEditSave) handleSendMessage
    isCopilotPlus st.

(** C3 (as amended).  Saving an edit hands [onSave] the edited text and a
    context whose notes, URLs and folders are those supplied by the edit,
    while its tags and selected-text snippets are those of the context the
    message had before the edit (empty when it had none). *)
Theorem edit_replaces_notes_urls_folders (text : string) (context : EditContext) :
  exists newContext,
    handleEditSave text context = onSave text newContext
    /\ notes newContext = Some (edit_notes context)
    /\ urls newContext = Some (edit_urls context)
    /\ folders newContext = Some (edit_folders context)
    /\ tags newContext = Some (orEmpty (initialContext ≫= tags))
    /\ selectedTextContexts newContext
       = Some (orEmpty (initialContext ≫= selectedTextContexts))
    /\ (forall handleSendMessage isCopilotPlus st,
          contextNotes st = edit_notes context ->
          contextUrls st = edit_urls context ->
          contextFolders st = edit_folders context ->
          inputMessage st = text ->
          onSendMessage handleSendMessage isCopilotPlus st = onSave text newContext).
Proof.
  eexists. split; [reflexivity|]. repeat (split; [reflexivity|]).
  intros h plus st. destruct st; simpl. intros -> -> -> ->. reflexivity.
Qed.

End Editor.

Definition taggedContext : ChatMessageContext string := {|
  notes := Some [ActiveFileTracker.noteA];
  urls := Some ["https://example.org"];
  tags := Some ["#project"];
  folders := None;
  selectedTextContexts := Some ["a quoted passage"]
|}.

Definition clearedEdit : EditContext :=
  {| edit_notes := []; edit_urls := []; edit_folders := ["inbox"] |}.

(** C3 fails as stated: an edit that supplies no notes and no URLs (and
    cannot supply tags or snippets at all) leaves the message with the tags
    and snippets of its old context; the same edit on a message without
    context gives none. *)
Lemma edit_keeps_old_tags :
  handleEditSave (Some taggedContext) (fun text c => c) "hi" clearedEdit
  = {| notes := Some []; urls := Some []; tags := Some ["#project"];
       folders := Some ["inbox"];
       selectedTextContexts := Some ["a quoted passage"] |}
  /\ handleEditSave (None : option (ChatMessageContext string)) (fun text c => c)
       "hi" clearedEdit
     = {| notes := Some []; urls := Some []; tags := Some [];
          folders := Some ["inbox"]; selectedTextContexts := Some [] |}.
Proof. split; reflexivity. Qed.

Definition submitted : ChatInputState := {|
  inputMessage := "hi"; contextNotes := []; contextUrls := [];
  contextFolders := ["inbox"];
  vaultToggle := false; webToggle := false; composerToggle := false;
  autonomousAgentToggle := false
|}.

Lemma edit_replaces_notes_urls_folders_witness :
  exists newContext,
    onSendMessage (Some taggedContext) (fun text c => Some (text, c))
      (fun _ => None) true submitted
    = Some ("hi", newContext)
    /\ tags newContext = Some ["#project"]
    /\ urls newContext = Some [].
Proof.
  destruct (edit_replaces_notes_urls_folders (Some taggedContext)
              (fun text c => Some (text, c)) "hi" clearedEdit)
    as [newContext [_ [_ [Hu [_ [Ht [_ H]]]]]]].
  exists newContext. split; [|split].
  - apply (H (fun _ => None) true submitted); reflexivity.
  - exact Ht.
  - exact Hu.
Defined.

End InlineMessageEditor.


(** ** The Message Store (specification, section 4.1)

    Modelled from the spec: the source of the Message Store is missing, so
    this module follows the contract of section 4.1 operation by
    operation. *)
Module MessageStore.
Local Open Scope list_scope.
Local Open Scope nat_scope.

(** Modelled from the spec: the [role] and [status] of a Message (the
    store's type declarations are missing), "one of {user, assistant,
    system}" and "one of {pending, streaming, complete, error}". *)
Inductive Role := user | assistant | system.
Inductive Status := pending | streaming | complete | error.

(** Modelled from the spec: the typed failures of section 7 that the store
    and the Orchestrator report. *)
Inductive StoreError :=
| InvalidStateError
| NotFoundError
| ConcurrentOperationError.

Inductive Result (A : Type) :=
| Ok (a : A)
| Fail (e : StoreError).
Arguments Ok {A} a.
Arguments Fail {A} e.

Global Instance Role_eq_dec : EqDecision Role.
Proof. solve_decision. Defined.
Global Instance Status_eq_dec : EqDecision Status.
Proof. solve_decision. Defined.

(** Modelled from the spec: the [context] of a message, "a record of
    attached references — sets of note identifiers, URLs, folder paths,
    free-form tags, and inline selected text snippets". *)
Record Context := {
  notes : list string;
  urls : list string;
  folders : list string;
  tags : list string;
  selections : list string
}.

Definition emptyContext : Context :=
  {| notes := []; urls := []; folders := []; tags := []; selections := [] |}.

Definition MessageId := nat.

(** Modelled from the spec: the Message of section 3. *)
Record Message := {
  id : MessageId;
  role : Role;
  displayText : string;
  processedText : string;
  context : Context;
  status : Status;
  createdAt : nat;
  sequence : nat
}.

(** Modelled from the spec: a Conversation is "an ordered sequence of
    Messages"; the list is the store's iteration order. *)
Definition Store := list Message.

Definition empty : Store := [].

(** Modelled from the spec: the Context Resolver (missing from the
    sources) as it answers at the time of a call, "resolve(context) →
    resolvedText". *)
Definition Resolver := Context -> string.

(** Modelled from the spec: the in-place updates of one field of a
    Message that the store operations below perform. *)
Definition setSequence (n : nat) (m : Message) : Message :=
  {| id := id m; role := role m; displayText := displayText m;
     processedText := processedText m; context := context m;
     status := status m; createdAt := createdAt m; sequence := n |}.

Definition setStatusOf (st : Status) (m : Message) : Message :=
  {| id := id m; role := role m; displayText := displayText m;
     processedText := processedText m; context := context m;
     status := st; createdAt := createdAt m; sequence := sequence m |}.

(** Modelled from the spec: [processedText] is "for user messages
    displayText plus resolved context blocks inlined or appended; for
    assistant messages it is the raw model output". *)
Definition recompute (resolve : Resolver) (m : Message) : Message :=
  {| id := id m; role := role m; displayText := displayText m;
     processedText := match role m with
                      | user => displayText m +:+ resolve (context m)
                      | _ => displayText m
                      end;
     context := context m; status := status m; createdAt := createdAt m;
     sequence := sequence m |}.

Definition setText (text : string) (m : Message) : Message :=
  {| id := id m; role := role m; displayText := text;
     processedText := processedText m; context := context m;
     status := status m; createdAt := createdAt m; sequence := sequence m |}.

Definition setContext (c : Context) (m : Message) : Message :=
  {| id := id m; role := role m; displayText := displayText m;
     processedText := processedText m; context := c;
     status := status m; createdAt := createdAt m; sequence := sequence m |}.

Definition addFragment (fragment : string) (m : Message) : Message :=
  {| id := id m; role := role m; displayText := displayText m +:+ fragment;
     processedText := match role m with
                      | assistant => processedText m +:+ fragment
                      | _ => processedText m
                      end;
     context := context m; status := status m; createdAt := createdAt m;
     sequence := sequence m |}.

(** Modelled from the spec: "message.id already exists in this Store". *)
Definition hasId (i : MessageId) (store : Store) : bool :=
  existsb (fun m => bool_decide (id m = i)) store.

(** Modelled from the spec: the next [sequence]; after a truncation it
    continues right after the last message kept. *)
Definition nextSequence (store : Store) : nat :=
  match last store with
  | Some m => S (sequence m)
  | None => 0
  end.

(** Modelled from the spec: "append(message): adds a Message at the next
    sequence; fails with InvalidStateError if message.id already exists in
    this Store". *)
Definition append (message : Message) (store : Store) : Result Store :=
  if hasId (id message) store then Fail InvalidStateError
  else Ok (store ++ [setSequence (nextSequence store) message])%list.

(** Modelled from the spec: "get(id): returns the Message or fails with
    NotFoundError". *)
Definition get (i : MessageId) (store : Store) : Result Message :=
  match find (fun m => bool_decide (id m = i)) store with
  | Some m => Ok m
  | None => Fail NotFoundError
  end.

(** Modelled from the spec: a Message "is mutated in place (never replaced
    by a new identity)"; the message with the given id is updated where it
    stands. *)
Definition mutate (i : MessageId) (f : Message -> Message) (store : Store) : Store :=
  map (fun m => if bool_decide (id m = i) then f m else m) store.

(** Modelled from the spec: the non-terminal statuses, pending and
    streaming. *)
Definition inFlightStatus (st : Status) : bool :=
  match st with
  | pending | streaming => true
  | _ => false
  end.

(** Modelled from the spec: "updateText(id, displayText): replaces
    displayText ...; recomputes processedText via the Context Resolver
    using the message's existing context; fails with InvalidStateError if
    the message is pending or streaming". *)
Definition updateText (resolve : Resolver) (i : MessageId) (text : string)
    (store : Store) : Result Store :=
  match get i store with
  | Fail e => Fail e
  | Ok m =>
      if inFlightStatus (status m) then Fail InvalidStateError
      else Ok (mutate i (fun m => recompute resolve (setText text m)) store)
  end.

(** Modelled from the spec: "updateContext(id, context): replaces the
    attached context and recomputes processedText; same status
    restriction". *)
Definition updateContext (resolve : Resolver) (i : MessageId) (c : Context)
    (store : Store) : Result Store :=
  match get i store with
  | Fail e => Fail e
  | Ok m =>
      if inFlightStatus (status m) then Fail InvalidStateError
      else Ok (mutate i (fun m => recompute resolve (setContext c m)) store)
  end.

(** Modelled from the spec: "appendStreamDelta(id, textFragment): appends a
    fragment to displayText (and, for assistant messages, processedText) of
    a message in streaming status; fails with InvalidStateError if not
    streaming". *)
Definition appendStreamDelta (i : MessageId) (fragment : string)
    (store : Store) : Result Store :=
  match get i store with
  | Fail e => Fail e
  | Ok m =>
      if bool_decide (status m = streaming)
      then Ok (mutate i (addFragment fragment) store)
      else Fail InvalidStateError
  end.

(** Modelled from the spec: "only transitions pending→streaming,
    streaming→complete, streaming→error, pending→error are legal". *)
Definition legalTransition (from to : Status) : bool :=
  match from, to with
  | pending, streaming | streaming, complete
  | streaming, error | pending, error => true
  | _, _ => false
  end.

(** Modelled from the spec: "setStatus(id, status): transitions status;
    ... any other transition fails with InvalidStateError". *)
Definition setStatus (i : MessageId) (st : Status) (store : Store) : Result Store :=
  match get i store with
  | Fail e => Fail e
  | Ok m =>
      if legalTransition (status m) st
      then Ok (mutate i (setStatusOf st) store)
      else Fail InvalidStateError
  end.

(** Modelled from the spec: "truncateFrom(sequence): removes every Message
    with sequence >= sequence, in a single atomic step". *)
Definition truncateFrom (s : nat) (store : Store) : Store :=
  List.filter (fun m => sequence m <? s) store.

(** Modelled from the spec: "remove(id): deletes exactly one Message by
    id, without touching others"; an unknown id is a NotFoundError. *)
Definition remove (i : MessageId) (store : Store) : Result Store :=
  if hasId i store
  then Ok (List.filter (fun m => negb (bool_decide (id m = i))) store)
  else Fail NotFoundError.

Record DisplayMessage := {
  d_id : MessageId;
  d_role : Role;
  d_displayText : string;
  d_status : Status;
  d_context : Context;
  d_createdAt : nat
}.

Record LLMMessage := { llm_role : Role; llm_processedText : string }.

(** Modelled from the spec: "getDisplayMessages(): produces an ordered
    sequence of {id, role, displayText, status, context, createdAt} by
    sequence; purely a projection". *)
Definition getDisplayMessages (store : Store) : list DisplayMessage :=
  map (fun m => {| d_id := id m; d_role := role m; d_displayText := displayText m;
                   d_status := status m; d_context := context m;
                   d_createdAt := createdAt m |}) store.

Definition toLLM (m : Message) : LLMMessage :=
  {| llm_role := role m; llm_processedText := processedText m |}.

(** Modelled from the spec: "getLLMMessages(): produces an ordered sequence
    of {role, processedText} by sequence, excluding messages with status
    error". *)
Definition getLLMMessages (store : Store) : list LLMMessage :=
  map toLLM (List.filter (fun m => negb (bool_decide (status m = error))) store).

(** Modelled from the spec: the mutating operations of the contract, as
    data, so that a history of a store can be quantified over. *)
Inductive Op :=
| OpAppend (message : Message)
| OpUpdateText (resolve : Resolver) (i : MessageId) (text : string)
| OpUpdateContext (resolve : Resolver) (i : MessageId) (c : Context)
| OpAppendStreamDelta (i : MessageId) (fragment : string)
| OpSetStatus (i : MessageId) (st : Status)
| OpTruncateFrom (s : nat)
| OpRemove (i : MessageId).

Definition exec (op : Op) (store : Store) : Result Store :=
  match op with
  | OpAppend message => append message store
  | OpUpdateText resolve i text => updateText resolve i text store
  | OpUpdateContext resolve i c => updateContext resolve i c store
  | OpAppendStreamDelta i fragment => appendStreamDelta i fragment store
  | OpSetStatus i st => setStatus i st store
  | OpTruncateFrom s => Ok (truncateFrom s store)
  | OpRemove i => remove i store
  end.

(** A failed operation leaves the store as it was. *)
Definition step (store : Store) (op : Op) : Store :=
  match exec op store with
  | Ok store' => store'
  | Fail _ => store
  end.

(** The snapshot after a history of operations on a fresh store. *)
Definition run (ops : list Op) : Store := fold_left step ops empty.

(** *** Invariants of every snapshot *)

Definition seqLt (m1 m2 : Message) : Prop := sequence m1 < sequence m2.

(** Sequence values strictly increase along the iteration order. *)
Definition increasing (store : Store) : Prop := StronglySorted seqLt store.

Definition uniqueIds (store : Store) : Prop := NoDup (map id store).

Definition wf (store : Store) : Prop := increasing store /\ uniqueIds store.

Lemma hasId_true i store :
  hasId i store = true <-> exists m, In m store /\ id m = i.
Proof.
  unfold hasId. rewrite existsb_exists. split; intros [m [Hin H]]; exists m.
  - split; [assumption|]. now apply bool_decide_eq_true_1 in H.
  - split; [assumption|]. now apply bool_decide_eq_true_2.
Qed.

Lemma hasId_false i store :
  hasId i store = false <-> forall m, In m store -> id m <> i.
Proof.
  split.
  - intros H m Hin Heq.
    assert (hasId i store = true) by (apply hasId_true; eauto). congruence.
  - intros H. destruct (hasId i store) eqn:E; [|reflexivity].
    apply hasId_true in E. destruct E as [m [Hin Heq]]. now apply H in Hin.
Qed.

Lemma hasId_map i store : hasId i store = false <-> ~ In i (map id store).
Proof.
  rewrite hasId_false, in_map_iff. split.
  - intros H [m [Heq Hin]]. now apply (H m).
  - intros H m Hin Heq. apply H. eauto.
Qed.

Lemma filter_all {A} (p : A -> bool) (l : list A) :
  Forall (fun x => p x = true) l -> List.filter p l = l.
Proof.
  induction 1 as [|x l Hx _ IH]; simpl; [reflexivity|]. now rewrite Hx, IH.
Qed.

Lemma filter_none {A} (p : A -> bool) (l : list A) :
  Forall (fun x => p x = false) l -> List.filter p l = [].
Proof.
  induction 1 as [|x l Hx _ IH]; simpl; [reflexivity|]. now rewrite Hx.
Qed.

Lemma increasing_filter p store :
  increasing store -> increasing (List.filter p store).
Proof.
  unfold increasing. induction 1 as [|a l Hl IH Ha]; simpl.
  - constructor.
  - destruct (p a); [|assumption].
    constructor; [assumption|].
    rewrite List.Forall_forall in *. intros m Hm.
    apply filter_In in Hm. now apply Ha.
Qed.

Lemma uniqueIds_filter p store :
  uniqueIds store -> uniqueIds (List.filter p store).
Proof.
  unfold uniqueIds. induction store as [|a l IH]; simpl; intros H.
  - constructor.
  - apply NoDup_cons in H. destruct H as [Hn Hl].
    destruct (p a); simpl; [|auto].
    apply NoDup_cons. split; [|auto].
    intros Hin. apply Hn.
    apply list_elem_of_In, in_map_iff in Hin. destruct Hin as [m [Heq Hm]].
    apply filter_In in Hm.
    apply list_elem_of_In, in_map_iff. exists m. tauto.
Qed.

Lemma mutate_ids i f store :
  (forall m, id (f m) = id m) -> map id (mutate i f store) = map id store.
Proof.
  intros Hf. unfold mutate. rewrite map_map. apply map_ext.
  intros m. now destruct (bool_decide (id m = i)).
Qed.

Lemma increasing_mutate i f store :
  (forall m, sequence (f m) = sequence m) ->
  increasing store -> increasing (mutate i f store).
Proof.
  intros Hf. unfold increasing, mutate.
  assert (Hs : forall m, sequence (if bool_decide (id m = i) then f m else m)
                         = sequence m)
    by (intros m; now destruct (bool_decide (id m = i))).
  induction 1 as [|a l Hl IH Ha]; simpl; constructor.
  - assumption.
  - rewrite List.Forall_forall in *. intros m Hm.
    apply in_map_iff in Hm. destruct Hm as [m0 [<- Hm0]].
    unfold seqLt. rewrite !Hs. now apply Ha.
Qed.

Lemma wf_mutate i f store :
  (forall m, id (f m) = id m) -> (forall m, sequence (f m) = sequence m) ->
  wf store -> wf (mutate i f store).
Proof.
  intros Hi Hs [Hinc Hu]. split.
  - now apply increasing_mutate.
  - unfold uniqueIds. now rewrite mutate_ids.
Qed.

Lemma below_nextSequence store :
  increasing store ->
  Forall (fun m => sequence m < nextSequence store) store.
Proof.
  unfold increasing, nextSequence.
  destruct store as [|a l] using rev_ind; [constructor|].
  intros H. rewrite last_snoc.
  apply StronglySorted_app in H. destruct H as [Hcross _].
  apply Forall_app. split.
  - apply List.Forall_forall. intros m Hm.
    specialize (Hcross m a). unfold seqLt in Hcross.
    assert (sequence m < sequence a); [|lia].
    apply Hcross; [now apply list_elem_of_In | set_solver].
  - constructor; [lia | constructor].
Qed.

Lemma wf_append message store store' :
  wf store -> append message store = Ok store' -> wf store'.
Proof.
  unfold append. intros [Hinc Hu] H.
  destruct (hasId (id message) store) eqn:E; [discriminate|].
  inversion H; subst; clear H. split.
  - unfold increasing. apply StronglySorted_app. split; [|split].
    + intros m1 m2 H1 H2. apply list_elem_of_In in H1.
      apply list_elem_of_singleton in H2. subst m2. unfold seqLt. simpl.
      pose proof (below_nextSequence store Hinc) as B.
      rewrite List.Forall_forall in B. now apply B.
    + assumption.
    + repeat constructor.
  - unfold uniqueIds. rewrite map_app. simpl.
    apply NoDup_app. split; [assumption|]. split.
    + intros x Hx Hx'. apply list_elem_of_singleton in Hx'. subst x.
      apply hasId_map in E. apply E. now apply list_elem_of_In.
    + apply NoDup_singleton.
Qed.

Lemma wf_exec op store store' :
  wf store -> exec op store = Ok store' -> wf store'.
Proof.
  intros Hwf. destruct op; simpl.
  - now apply wf_append.
  - unfold updateText. destruct (get i store); [|discriminate].
    destruct (inFlightStatus _); [discriminate|].
    intros H; inversion H; subst. now apply wf_mutate.
  - unfold updateContext. destruct (get i store); [|discriminate].
    destruct (inFlightStatus _); [discriminate|].
    intros H; inversion H; subst. now apply wf_mutate.
  - unfold appendStreamDelta. destruct (get i store); [|discriminate].
    destruct (bool_decide _); [|discriminate].
    intros H; inversion H; subst. now apply wf_mutate.
  - unfold setStatus. destruct (get i store); [|discriminate].
    destruct (legalTransition _ _); [|discriminate].
    intros H; inversion H; subst. now apply wf_mutate.
  - intros H; inversion H; subst. destruct Hwf. split.
    + now apply increasing_filter.
    + now apply uniqueIds_filter.
  - unfold remove. destruct (hasId i store); [|discriminate].
    intros H; inversion H; subst. destruct Hwf. split.
    + now apply increasing_filter.
    + now apply uniqueIds_filter.
Qed.

Lemma wf_step store op : wf store -> wf (step store op).
Proof.
  intros H. unfold step. destruct (exec op store) eqn:E; [|assumption].
  eapply wf_exec; eassumption.
Qed.

Lemma wf_run ops : wf (run ops).
Proof.
  unfold run.
  assert (G : forall store, wf store -> wf (fold_left step ops store)).
  { induction ops as [|op ops IH]; intros store H; simpl; [assumption|].
    apply IH. now apply wf_step. }
  apply G. split; constructor.
Qed.

Lemma increasing_sequences store :
  increasing store -> StronglySorted lt (map sequence store).
Proof.
  unfold increasing. induction 1 as [|a l Hl IH Ha]; simpl; constructor.
  - assumption.
  - rewrite List.Forall_forall in *. intros n Hn.
    apply in_map_iff in Hn. destruct Hn as [m [<- Hm]]. now apply Ha.
Qed.

Lemma truncateFrom_In s store m :
  In m (truncateFrom s store) <-> In m store /\ sequence m < s.
Proof.
  unfold truncateFrom. rewrite filter_In. now rewrite Nat.ltb_lt.
Qed.

(** Under the invariant a truncation only cuts a tail off. *)
Lemma truncateFrom_prefix s store :
  increasing store -> exists k, truncateFrom s store = take k store.
Proof.
  unfold increasing, truncateFrom.
  induction 1 as [|a l Hl IH Ha]; simpl.
  - now exists 0.
  - destruct (sequence a <? s) eqn:E.
    + destruct IH as [k ->]. now exists (S k).
    + exists 0. simpl. apply filter_none.
      apply Nat.ltb_ge in E.
      eapply List.Forall_impl; [|exact Ha].
      intros m Hm. unfold seqLt in Hm. apply Nat.ltb_ge. lia.
Qed.

Lemma remove_exactly_one i store store' :
  uniqueIds store ->
  remove i store = Ok store' ->
  exists before m after,
    store = before ++ m :: after /\ id m = i /\ store' = before ++ after
    /\ (forall m', In m' store' -> id m' <> i).
Proof.
  unfold uniqueIds, remove. intros Hu H.
  destruct (hasId i store) eqn:E; [|discriminate].
  inversion H; subst store'; clear H.
  apply hasId_true in E. destruct E as [m [Hin Hid]].
  apply in_split in Hin. destruct Hin as [before [after ->]].
  exists before, m, after.
  rewrite map_app in Hu. simpl in Hu.
  apply NoDup_app in Hu. destruct Hu as [_ [Hcross Hu]].
  apply NoDup_cons in Hu. destruct Hu as [Hm _].
  assert (Hb : Forall (fun x => negb (bool_decide (id x = i)) = true) before).
  { apply List.Forall_forall. intros x Hx.
    apply negb_true_iff, bool_decide_eq_false_2. intros Hxi.
    apply (Hcross (id x)).
    - apply list_elem_of_In, in_map. assumption.
    - rewrite Hxi, <- Hid. left. }
  assert (Ha : Forall (fun x => negb (bool_decide (id x = i)) = true) after).
  { apply List.Forall_forall. intros x Hx.
    apply negb_true_iff, bool_decide_eq_false_2. intros Hxi.
    apply Hm. rewrite Hid, <- Hxi. apply list_elem_of_In, in_map. assumption. }
  assert (Hf : List.filter (fun x => negb (bool_decide (id x = i)))
                 (before ++ m :: after) = before ++ after).
  { rewrite List.filter_app. simpl.
    rewrite (bool_decide_eq_true_2 _ Hid). simpl.
    now rewrite (filter_all _ _ Hb), (filter_all _ _ Ha). }
  repeat split; try assumption.
  intros m' Hm'. rewrite Hf in Hm'. apply in_app_or in Hm'.
  rewrite List.Forall_forall in Hb, Ha.
  destruct Hm' as [Hm'|Hm']; [apply Hb in Hm' | apply Ha in Hm'];
    now apply negb_true_iff, bool_decide_eq_false_1 in Hm'.
Qed.

(** C4. At every snapshot of a Message Store (the store after any history
    of operations, failed ones leaving it as it was) the sequence values
    are strictly increasing in iteration order.  [truncateFrom s] keeps
    exactly the messages with sequence below [s], unchanged, and what it
    removes is a tail of the store.  A successful [remove i] takes out the
    one message with that id and leaves every other message, with its
    sequence value, in place; it fails with NotFoundError when no message
    has the id. *)
Theorem sequences_strictly_increasing (ops : list Op) :
  let store := run ops in
  StronglySorted lt (map sequence store)
  /\ (forall s,
        (forall m, In m (truncateFrom s store) <-> In m store /\ sequence m < s)
        /\ exists k, truncateFrom s store = take k store)
  /\ (forall i store',
        remove i store = Ok store' ->
        exists before m after,
          store = before ++ m :: after /\ id m = i /\ store' = before ++ after
          /\ (forall m', In m' store' -> id m' <> i))
  /\ (forall i, (forall m, In m store -> id m <> i) ->
                remove i store = Fail NotFoundError).
Proof.
  intros store. destruct (wf_run ops) as [Hinc Hu]. fold store in Hinc, Hu.
  split; [now apply increasing_sequences|].
  split.
  { intros s. split; [intros m; apply truncateFrom_In|].
    now apply truncateFrom_prefix. }
  split; [intros i store'; now apply remove_exactly_one|].
  intros i H. unfold remove. apply hasId_false in H. now rewrite H.
Qed.

(** *** The model-facing view *)

Fixpoint countNonError (store : Store) : nat :=
  match store with
  | [] => 0
  | m :: rest =>
      match status m with
      | error => countNonError rest
      | _ => S (countNonError rest)
      end
  end.

Fixpoint countError (store : Store) : nat :=
  match store with
  | [] => 0
  | m :: rest =>
      match status m with
      | error => S (countError rest)
      | _ => countError rest
      end
  end.

Definition nonError (m : Message) : bool := negb (bool_decide (status m = error)).

Lemma nonError_spec m : nonError m = true <-> status m <> error.
Proof.
  unfold nonError. rewrite negb_true_iff. split.
  - apply bool_decide_eq_false_1.
  - apply bool_decide_eq_false_2.
Qed.

Lemma getLLMMessages_length store :
  length (getLLMMessages store) = countNonError store
  /\ length (getLLMMessages store) + countError store = length store.
Proof.
  unfold getLLMMessages. rewrite length_map.
  induction store as [|m rest [IH1 IH2]]; simpl; [split; reflexivity|].
  destruct (status m) eqn:E; simpl; split; lia.
Qed.

Lemma filter_sublist {A} (p : A -> bool) (l : list A) :
  sublist (List.filter p l) l.
Proof.
  induction l as [|a l IH]; simpl; [constructor|].
  destruct (p a); now constructor.
Qed.

(** C5. For every Message Store state, [getLLMMessages] gives, for exactly
    the messages whose status is not error and in the store's order, which
    is the order of increasing sequence, one entry each that carries the
    role and the processed text of that message; its length is the number
    of non-error messages. *)
Theorem llm_messages_exclude_errors (ops : list Op) :
  let store := run ops in
  exists kept,
    Forall2 (fun entry m => llm_role entry = role m
                            /\ llm_processedText entry = processedText m)
      (getLLMMessages store) kept
    /\ (forall m, In m kept <-> In m store /\ status m <> error)
    /\ sublist kept store
    /\ StronglySorted lt (map sequence kept)
    /\ length (getLLMMessages store) = countNonError store
    /\ length (getLLMMessages store) + countError store = length store.
Proof.
  intros store. exists (List.filter nonError store).
  destruct (wf_run ops) as [Hinc _]. fold store in Hinc.
  split.
  { unfold getLLMMessages. fold nonError.
    induction (List.filter nonError store) as [|m kept IH]; simpl;
      constructor; [split; reflexivity | exact IH]. }
  split.
  { intros m. rewrite filter_In. now rewrite nonError_spec. }
  split; [apply filter_sublist|].
  split; [apply increasing_sequences; now apply increasing_filter|].
  apply getLLMMessages_length.
Qed.

(** *** Scenarios of section 8 *)

Definition message (i : MessageId) (r : Role) (text : string) (st : Status) : Message :=
  {| id := i; role := r; displayText := text; processedText := text;
     context := emptyContext; status := st; createdAt := i; sequence := 0 |}.

Definition threeMessages : list Op :=
  [OpAppend (message 10 user "question" complete);
   OpAppend (message 11 assistant "answer" complete);
   OpAppend (message 12 user "follow-up" complete)].

Example append_assigns_sequences :
  map sequence (run threeMessages) = [0; 1; 2].
Proof. reflexivity. Qed.

Example remove_leaves_a_gap :
  map sequence (run (threeMessages ++ [OpRemove 11])) = [0; 2].
Proof. reflexivity. Qed.

Example truncate_then_append_is_contiguous :
  map sequence (run (threeMessages ++
                     [OpTruncateFrom 1; OpAppend (message 13 assistant "" pending)]))
  = [0; 1].
Proof. reflexivity. Qed.

Example llm_view_skips_errors :
  getLLMMessages (run (threeMessages ++
                       [OpAppend (message 13 assistant "" pending);
                        OpSetStatus 13 error]))
  = [ {| llm_role := user; llm_processedText := "question" |};
      {| llm_role := assistant; llm_processedText := "answer" |};
      {| llm_role := user; llm_processedText := "follow-up" |} ].
Proof. reflexivity. Qed.

Lemma sequences_strictly_increasing_witness :
  exists before m after,
    run threeMessages = before ++ m :: after /\ id m = 11
    /\ map sequence (before ++ after) = [0; 2].
Proof.
  destruct (sequences_strictly_increasing threeMessages) as [_ [_ [H _]]].
  destruct (H 11 _ eq_refl) as [before [m [after [E [Hid [E' _]]]]]].
  exists before, m, after. split; [exact E|]. split; [exact Hid|].
  rewrite <- E'. reflexivity.
Defined.

End MessageStore.


(** ** The Conversation Orchestrator (specification, sections 3, 4.2, 5)

    Modelled from the spec: the source of the Orchestrator and of its
    Conversation Registry is missing.  A generation in flight is suspended between the events
    of its token stream, so [send], [edit] and [regenerate] only start it,
    and the fragments, the completion, the failure and the cancellation
    are separate steps addressed to the conversation that owns it. *)
Module Orchestrator.
Import MessageStore.
Local Open Scope list_scope.
Local Open Scope nat_scope.

(** A conversation identity: a project identifier or the default one. *)
Abbreviation Identity := string (only parsing).

(** Modelled from the spec: the generation in flight of a conversation,
    i.e. the assistant message it feeds and the number of token fragments
    received so far (cancellation asks whether "zero tokens were
    received"). *)
Record InFlight := { target : MessageId; received : nat }.

(** Modelled from the spec: a Conversation, with the marker that enforces
    "only one send may be in flight per Conversation at a time". *)
Record Conversation := {
  store : Store;
  generation : option InFlight
}.

Definition emptyConversation : Conversation :=
  {| store := empty; generation := None |}.

(** Modelled from the spec: the Orchestrator "holds the Conversation
    Registry and a pointer to the active identity"; [nextId] provides ids
    that are "assigned at creation, never reused" and creation
    timestamps. *)
Record State := {
  registry : gmap string Conversation;
  active : string;
  nextId : MessageId
}.

Definition initial : State :=
  {| registry := {[ "" := emptyConversation ]}; active := ""; nextId := 0 |}.

(** "A previously unseen identity is lazily materialized as an empty
    Store on first access." *)
Definition conversationOf (c : Identity) (st : State) : Conversation :=
  default emptyConversation (registry st !! c).

Definition setConversation (c : Identity) (conv : Conversation) (n : MessageId)
    (st : State) : State :=
  {| registry := <[c := conv]> (registry st); active := active st; nextId := n |}.

(** Modelled from the spec: "resolveActiveConversation() detects the
    current identity ... and switches the active pointer accordingly; ...
    If the detected identity has no existing Store, one is created empty". *)
Definition resolveActiveConversation (detected : Identity) (st : State) : State :=
  {| registry := match registry st !! detected with
                 | Some _ => registry st
                 | None => <[detected := emptyConversation]> (registry st)
                 end;
     active := detected;
     nextId := nextId st |}.

Definition bindR {A B} (r : Result A) (k : A -> Result B) : Result B :=
  match r with
  | Ok a => k a
  | Fail e => Fail e
  end.

Notation "x <-- r ;; k" := (bindR r (fun x => k))
  (at level 100, r at next level, right associativity).

(** Modelled from the spec: the start of a generation, "creates an
    assistant Message in pending status, appends it, transitions it to
    streaming, and begins consuming a token stream". *)
Definition beginGeneration (i : MessageId) (s : Store) : Result Conversation :=
  let reply := {| id := i; role := assistant; displayText := "";
                  processedText := ""; context := emptyContext;
                  status := pending; createdAt := i; sequence := 0 |} in
  s1 <-- append reply s ;;
  s2 <-- setStatus i streaming s1 ;;
  Ok {| store := s2; generation := Some {| target := i; received := 0 |} |}.

(** Modelled from the spec: "send(text, context): creates a user Message
    in complete status with the given displayText/context, appends it;
    then creates an assistant Message ...  a second call while one is in
    flight fails with ConcurrentOperationError". *)
Definition send (resolve : Resolver) (text : string) (ctx : Context) (st : State)
  : Result State :=
  let conv := conversationOf (active st) st in
  match generation conv with
  | Some _ => Fail ConcurrentOperationError
  | None =>
      let question := {| id := nextId st; role := user; displayText := text;
                         processedText := text +:+ resolve ctx; context := ctx;
                         status := complete; createdAt := nextId st;
                         sequence := 0 |} in
      s1 <-- append question (store conv) ;;
      conv' <-- beginGeneration (S (nextId st)) s1 ;;
      Ok (setConversation (active st) conv' (S (S (nextId st))) st)
  end.

(** Modelled from the spec: "edit(id, newText, newContext): requires the
    target Message's status be complete.  If the target is a user message,
    the Orchestrator calls updateText/updateContext, then
    truncateFrom(sequence + 1) ..., then behaves as send ...  If the target
    is an assistant message, only its own text is replaced". *)
Definition edit (resolve : Resolver) (i : MessageId) (newText : string)
    (newContext : Context) (st : State) : Result State :=
  let conv := conversationOf (active st) st in
  m <-- get i (store conv) ;;
  if negb (bool_decide (status m = complete)) then Fail InvalidStateError
  else
    match role m with
    | user =>
        match generation conv with
        | Some _ => Fail ConcurrentOperationError
        | None =>
            s1 <-- updateText resolve i newText (store conv) ;;
            s2 <-- updateContext resolve i newContext s1 ;;
            conv' <-- beginGeneration (nextId st) (truncateFrom (S (sequence m)) s2) ;;
            Ok (setConversation (active st) conv' (S (nextId st)) st)
        end
    | _ =>
        s1 <-- updateText resolve i newText (store conv) ;;
        Ok (setConversation (active st)
              {| store := s1; generation := generation conv |} (nextId st) st)
    end.

(** Modelled from the spec: "regenerate(id): requires the target Message
    be an assistant message in complete or error status.  Truncates from
    that message's sequence ..., then re-issues generation". *)
Definition regenerate (i : MessageId) (st : State) : Result State :=
  let conv := conversationOf (active st) st in
  match generation conv with
  | Some _ => Fail ConcurrentOperationError
  | None =>
      m <-- get i (store conv) ;;
      if bool_decide (role m = assistant)
         && (bool_decide (status m = complete) || bool_decide (status m = error))
      then
        conv' <-- beginGeneration (nextId st) (truncateFrom (sequence m) (store conv)) ;;
        Ok (setConversation (active st) conv' (S (nextId st)) st)
      else Fail InvalidStateError
  end.

(** Modelled from the spec: "deleteMessage(id): removes exactly that
    Message via remove; does not cascade". *)
Definition deleteMessage (i : MessageId) (st : State) : Result State :=
  let conv := conversationOf (active st) st in
  s1 <-- remove i (store conv) ;;
  Ok (setConversation (active st)
        {| store := s1; generation := generation conv |} (nextId st) st).

(** Modelled from the spec: "clear(): replaces the active Conversation's
    Store with a freshly empty one; does not affect other conversation
    identities". *)
Definition clear (st : State) : State :=
  setConversation (active st) emptyConversation (nextId st) st.

(** Modelled from the spec: each fragment of the token stream is fed
    "through appendStreamDelta". *)
Definition onFragment (c : Identity) (fragment : string) (st : State) : Result State :=
  let conv := conversationOf c st in
  match generation conv with
  | None => Fail InvalidStateError
  | Some g =>
      s1 <-- appendStreamDelta (target g) fragment (store conv) ;;
      Ok (setConversation c
            {| store := s1;
               generation := Some {| target := target g; received := S (received g) |} |}
            (nextId st) st)
  end.

(** Modelled from the spec: "on stream completion transitions to
    complete". *)
Definition onCompleted (c : Identity) (st : State) : Result State :=
  let conv := conversationOf c st in
  match generation conv with
  | None => Fail InvalidStateError
  | Some g =>
      s1 <-- setStatus (target g) complete (store conv) ;;
      Ok (setConversation c {| store := s1; generation := None |} (nextId st) st)
  end.

(** Modelled from the spec: "on failure transitions to error and records a
    user-visible error message as the assistant Message's displayText". *)
Definition onFailed (c : Identity) (description : string) (st : State) : Result State :=
  let conv := conversationOf c st in
  match generation conv with
  | None => Fail InvalidStateError
  | Some g =>
      s1 <-- setStatus (target g) error (store conv) ;;
      Ok (setConversation c
            {| store := mutate (target g) (setText description) s1;
               generation := None |} (nextId st) st)
  end.

(** Modelled from the spec: "Cancellation: stopping an in-flight
    send/regenerate aborts the underlying token stream, transitions the
    affected Message to complete with whatever partial displayText had
    accumulated (not error) unless zero tokens were received, in which case
    it transitions to error". *)
Definition cancel (c : Identity) (st : State) : Result State :=
  let conv := conversationOf c st in
  match generation conv with
  | None => Fail InvalidStateError
  | Some g =>
      s1 <-- setStatus (target g) (if 0 <? received g then complete else error)
               (store conv) ;;
      Ok (setConversation c {| store := s1; generation := None |} (nextId st) st)
  end.

(** Modelled from the spec: what a caller or the token stream can ask of
    the Orchestrator. *)
Inductive Op :=
| Switch (detected : Identity)
| Send (resolve : Resolver) (text : string) (ctx : Context)
| Edit (resolve : Resolver) (i : MessageId) (newText : string) (newContext : Context)
| Regenerate (i : MessageId)
| DeleteMessage (i : MessageId)
| Clear
| Fragment (c : Identity) (fragment : string)
| Completed (c : Identity)
| Failed (c : Identity) (description : string)
| Cancel (c : Identity).

Definition exec (op : Op) (st : State) : Result State :=
  match op with
  | Switch detected => Ok (resolveActiveConversation detected st)
  | Send resolve text ctx => send resolve text ctx st
  | Edit resolve i newText newContext => edit resolve i newText newContext st
  | Regenerate i => regenerate i st
  | DeleteMessage i => deleteMessage i st
  | Clear => Ok (clear st)
  | Fragment c fragment => onFragment c fragment st
  | Completed c => onCompleted c st
  | Failed c description => onFailed c description st
  | Cancel c => cancel c st
  end.

(** A failed operation is reported and changes nothing. *)
Definition step (st : State) (op : Op) : State :=
  match exec op st with
  | Ok st' => st'
  | Fail _ => st
  end.

Definition runFrom (st : State) (ops : list Op) : State := fold_left step ops st.

Definition run (ops : list Op) : State := runFrom initial ops.

(** *** Conversations are isolated from one another *)

Lemma conversationOf_set c c' conv n st :
  conversationOf c' (setConversation c conv n st) =
  if decide (c = c') then conv else conversationOf c' st.
Proof.
  unfold conversationOf, setConversation; simpl.
  destruct (decide (c = c')) as [->|Hne].
  - now rewrite lookup_insert_eq.
  - now rewrite lookup_insert_ne.
Qed.

Lemma conversationOf_switch c detected st :
  conversationOf c (resolveActiveConversation detected st) = conversationOf c st.
Proof.
  unfold conversationOf, resolveActiveConversation; simpl.
  destruct (registry st !! detected) eqn:E; [reflexivity|].
  destruct (decide (detected = c)) as [->|Hne].
  - now rewrite lookup_insert_eq, E.
  - now rewrite lookup_insert_ne.
Qed.

(** The conversation an operation may write, if any. *)
Definition written (st : State) (op : Op) : option string :=
  match op with
  | Switch _ => None
  | Send _ _ _ | Edit _ _ _ _ | Regenerate _ | DeleteMessage _ | Clear =>
      Some (active st)
  | Fragment c _ | Completed c | Failed c _ | Cancel c => Some c
  end.

Ltac inv_bind :=
  repeat match goal with
         | H : bindR ?r _ = Ok _ |- _ =>
             let E := fresh "E" in
             destruct r eqn:E; simpl in H; [|discriminate H]
         | H : match ?x with _ => _ end = Ok _ |- _ =>
             let E := fresh "E" in
             destruct x eqn:E; simpl in H; try discriminate H
         | H : Ok _ = Ok _ |- _ => inversion H; subst; clear H
         end.

Lemma exec_writes_one op st st' c :
  exec op st = Ok st' ->
  written st op <> Some c ->
  conversationOf c st' = conversationOf c st.
Proof.
  intros H Hw.
  destruct op; simpl in H, Hw;
    unfold send, edit, regenerate, deleteMessage, clear, onFragment,
      onCompleted, onFailed, cancel in H;
    inv_bind;
    rewrite ?conversationOf_switch, ?conversationOf_set;
    try reflexivity;
    try (match goal with
         | |- context [decide (?x = c)] => destruct (decide (x = c))
         end; [congruence | reflexivity]).
Qed.

Lemma exec_active op st st' :
  exec op st = Ok st' ->
  active st' = match op with Switch detected => detected | _ => active st end.
Proof.
  intros H.
  destruct op; simpl in H;
    unfold send, edit, regenerate, deleteMessage, clear, onFragment,
      onCompleted, onFailed, cancel in H;
    inv_bind; reflexivity.
Qed.

(** An operation of a caller working in conversation [b]: anything but a
    switch, stream events being those of [b]'s own generation. *)
Definition addressedTo (b : string) (op : Op) : Prop :=
  match op with
  | Switch _ => False
  | Fragment c _ | Completed c | Failed c _ | Cancel c => c = b
  | _ => True
  end.

Lemma step_addressed b op st a :
  active st = b -> a <> b -> addressedTo b op ->
  conversationOf a (step st op) = conversationOf a st /\ active (step st op) = b.
Proof.
  intros Hact Hne Hop. unfold step.
  destruct (exec op st) as [st1|] eqn:E; [|tauto]. split.
  - apply (exec_writes_one _ _ _ _ E).
    destruct op; simpl in *; congruence.
  - rewrite (exec_active _ _ _ E). destruct op; simpl in Hop; tauto.
Qed.

Lemma runFrom_addressed b ops st a :
  active st = b -> a <> b -> Forall (addressedTo b) ops ->
  conversationOf a (runFrom st ops) = conversationOf a st
  /\ active (runFrom st ops) = b.
Proof.
  intros Hact Hne Hops. revert st Hact.
  induction Hops as [|op ops Hop _ IH]; intros st Hact; [tauto|].
  change (runFrom st (op :: ops)) with (runFrom (step st op) ops).
  destruct (step_addressed b op st a Hact Hne Hop) as [C1 A1].
  destruct (IH _ A1) as [IH1 IH2]. split; congruence.
Qed.

(** C8. Switching the active identity never mutates the Store switched
    away from: the switch itself leaves every conversation as it is, and
    after switching from A to B, any operations carried out in B, and
    switching back, conversation A holds exactly the messages it held, in
    the same order. *)
Theorem switching_preserves_store (st : State) (a b : string) (ops : list Op) :
  a <> b ->
  Forall (addressedTo b) ops ->
  let back := resolveActiveConversation a
                (runFrom (resolveActiveConversation b st) ops) in
  (forall c detected,
     conversationOf c (resolveActiveConversation detected st) = conversationOf c st)
  /\ active back = a
  /\ store (conversationOf a back) = store (conversationOf a st)
  /\ getDisplayMessages (store (conversationOf a back))
     = getDisplayMessages (store (conversationOf a st)).
Proof.
  intros Hne Hops back.
  split; [intros c detected; apply conversationOf_switch|].
  split; [reflexivity|].
  assert (E : conversationOf a back = conversationOf a st).
  { unfold back. rewrite conversationOf_switch.
    destruct (runFrom_addressed b ops (resolveActiveConversation b st) a
                eq_refl Hne Hops) as [-> _].
    apply conversationOf_switch. }
  now rewrite E.
Qed.

(** *** Fresh identifiers *)

Definition bounded (n : MessageId) (s : Store) : Prop :=
  Forall (fun m => id m < n) s.

(** Every id in use is below [nextId]. *)
Definition fresh (st : State) : Prop :=
  forall c, bounded (nextId st) (store (conversationOf c st)).

Lemma bounded_mono n n' s : n <= n' -> bounded n s -> bounded n' s.
Proof.
  intros Hle. apply List.Forall_impl. intros m Hm. lia.
Qed.

Lemma bounded_mutate n i f s :
  (forall m, id (f m) = id m) -> bounded n s -> bounded n (mutate i f s).
Proof.
  intros Hf H. unfold bounded, mutate in *. rewrite List.Forall_forall in *.
  intros m Hm. apply in_map_iff in Hm. destruct Hm as [m0 [<- Hm0]].
  destruct (bool_decide (id m0 = i)); [rewrite Hf|]; now apply H.
Qed.

Lemma bounded_filter n p s : bounded n s -> bounded n (List.filter p s).
Proof.
  unfold bounded. rewrite !List.Forall_forall. intros H m Hm.
  apply filter_In in Hm. now apply H.
Qed.

Lemma bounded_hasId n i s : bounded n s -> n <= i -> hasId i s = false.
Proof.
  intros H Hle. apply hasId_false. unfold bounded in H.
  rewrite List.Forall_forall in H. intros m Hm Heq. apply H in Hm. lia.
Qed.

Lemma bounded_append n message s s' :
  bounded n s -> id message < n -> append message s = Ok s' -> bounded n s'.
Proof.
  unfold append. intros H Hm E.
  destruct (hasId (id message) s); [discriminate|]. inversion E; subst.
  apply Forall_app. split; [assumption|]. repeat constructor. assumption.
Qed.

Lemma bounded_exec n op s s' :
  bounded n s ->
  match op with OpAppend message => id message < n | _ => True end ->
  MessageStore.exec op s = Ok s' -> bounded n s'.
Proof.
  intros H Hop E. destruct op; simpl in E.
  - eapply bounded_append; eassumption.
  - unfold updateText in E. inv_bind. now apply bounded_mutate.
  - unfold updateContext in E. inv_bind. now apply bounded_mutate.
  - unfold appendStreamDelta in E. inv_bind. now apply bounded_mutate.
  - unfold setStatus in E. inv_bind. now apply bounded_mutate.
  - inv_bind. now apply bounded_filter.
  - unfold remove in E. inv_bind. now apply bounded_filter.
Qed.

Lemma bounded_beginGeneration i s conv :
  bounded i s -> beginGeneration i s = Ok conv -> bounded (S i) (store conv).
Proof.
  unfold beginGeneration. intros H E. inv_bind. simpl.
  apply (bounded_exec (S i) (OpSetStatus i streaming) a); [|exact I|assumption].
  eapply bounded_append; [|simpl|eassumption].
  - eapply bounded_mono; [|eassumption]. lia.
  - simpl. lia.
Qed.

Lemma fresh_set c conv n st :
  fresh st -> nextId st <= n -> bounded n (store conv) ->
  fresh (setConversation c conv n st).
Proof.
  intros Hf Hle Hb c'. rewrite conversationOf_set. simpl.
  destruct (decide (c = c')); [assumption|].
  eapply bounded_mono; [eassumption | apply Hf].
Qed.

Lemma fresh_exec op st st' : fresh st -> exec op st = Ok st' -> fresh st'.
Proof.
  intros Hf E. destruct op; simpl in E.
  - inv_bind. intros c. rewrite conversationOf_switch. apply Hf.
  - unfold send in E. inv_bind. apply fresh_set; [assumption | lia |].
    eapply bounded_beginGeneration; [|eassumption].
    eapply bounded_append; [| |eassumption]; simpl; [|lia].
    eapply bounded_mono; [|apply Hf]. lia.
  - unfold edit in E. inv_bind.
    + apply fresh_set; [assumption | lia |].
      eapply bounded_beginGeneration; [|eassumption].
      apply bounded_filter.
      eapply (bounded_exec _ (OpUpdateContext _ _ _)); [|exact I|eassumption].
      eapply (bounded_exec _ (OpUpdateText _ _ _)); [|exact I|eassumption].
      apply Hf.
    + apply fresh_set; [assumption | lia |]. simpl.
      eapply (bounded_exec _ (OpUpdateText _ _ _)); [|exact I|eassumption].
      apply Hf.
    + apply fresh_set; [assumption | lia |]. simpl.
      eapply (bounded_exec _ (OpUpdateText _ _ _)); [|exact I|eassumption].
      apply Hf.
  - unfold regenerate in E. inv_bind.
    apply fresh_set; [assumption | lia |].
    eapply bounded_beginGeneration; [|eassumption].
    apply bounded_filter, Hf.
  - unfold deleteMessage in E. inv_bind.
    apply fresh_set; [assumption | lia |]. simpl.
    eapply (bounded_exec _ (OpRemove _)); [|exact I|eassumption]. apply Hf.
  - inv_bind. apply fresh_set; [assumption | simpl; lia | constructor].
  - unfold onFragment in E. inv_bind.
    apply fresh_set; [assumption | lia |]. simpl.
    eapply (bounded_exec _ (OpAppendStreamDelta _ _)); [|exact I|eassumption].
    apply Hf.
  - unfold onCompleted in E. inv_bind.
    apply fresh_set; [assumption | lia |]. simpl.
    eapply (bounded_exec _ (OpSetStatus _ _)); [|exact I|eassumption]. apply Hf.
  - unfold onFailed in E. inv_bind.
    apply fresh_set; [assumption | lia |]. simpl.
    apply bounded_mutate; [reflexivity|].
    eapply (bounded_exec _ (OpSetStatus _ _)); [|exact I|eassumption]. apply Hf.
  - unfold cancel in E. inv_bind.
    apply fresh_set; [assumption | lia |]. simpl.
    eapply (bounded_exec _ (OpSetStatus _ _)); [|exact I|eassumption]. apply Hf.
Qed.

Lemma fresh_run ops : fresh (run ops).
Proof.
  unfold run.
  assert (G : forall st, fresh st -> fresh (runFrom st ops)).
  { induction ops as [|op ops IH]; intros st H; [assumption|].
    change (runFrom st (op :: ops)) with (runFrom (step st op) ops).
    apply IH. unfold step. destruct (exec op st) eqn:E; [|assumption].
    eapply fresh_exec; eassumption. }
  apply G. intros c. unfold conversationOf, initial; simpl.
  destruct (decide (c = "")) as [->|Hne].
  - rewrite lookup_singleton_eq. constructor.
  - rewrite lookup_singleton_ne by congruence. constructor.
Qed.

(** *** Every conversation keeps the store invariant *)

Definition allWf (st : State) : Prop :=
  forall c, wf (store (conversationOf c st)).

Lemma wf_empty : wf empty.
Proof. split; constructor. Qed.

Lemma wf_beginGeneration i s conv :
  wf s -> beginGeneration i s = Ok conv -> wf (store conv).
Proof.
  unfold beginGeneration. intros H E. inv_bind. simpl.
  apply (wf_exec (OpSetStatus i streaming) a); [|assumption].
  eapply (wf_exec (OpAppend _)); eassumption.
Qed.

Lemma allWf_set c conv n st :
  allWf st -> wf (store conv) -> allWf (setConversation c conv n st).
Proof.
  intros Ha Hc c'. rewrite conversationOf_set.
  destruct (decide (c = c')); [assumption | apply Ha].
Qed.

Lemma allWf_exec op st st' : allWf st -> exec op st = Ok st' -> allWf st'.
Proof.
  intros Ha E. destruct op; simpl in E.
  - inv_bind. intros c. rewrite conversationOf_switch. apply Ha.
  - unfold send in E. inv_bind. apply allWf_set; [assumption|].
    eapply wf_beginGeneration; [|eassumption].
    eapply (wf_exec (OpAppend _)); [apply Ha | eassumption].
  - unfold edit in E. inv_bind.
    + apply allWf_set; [assumption|].
      eapply wf_beginGeneration; [|eassumption].
      apply (wf_exec (OpTruncateFrom (S (sequence a))) a1); [|reflexivity].
      eapply (wf_exec (OpUpdateContext _ _ _)); [|eassumption].
      eapply (wf_exec (OpUpdateText _ _ _)); [apply Ha | eassumption].
    + apply allWf_set; [assumption|]. simpl.
      eapply (wf_exec (OpUpdateText _ _ _)); [apply Ha | eassumption].
    + apply allWf_set; [assumption|]. simpl.
      eapply (wf_exec (OpUpdateText _ _ _)); [apply Ha | eassumption].
  - unfold regenerate in E. inv_bind. apply allWf_set; [assumption|].
    eapply wf_beginGeneration; [|eassumption].
    apply (wf_exec (OpTruncateFrom (sequence a))
             (store (conversationOf (active st) st)));
      [apply Ha | reflexivity].
  - unfold deleteMessage in E. inv_bind. apply allWf_set; [assumption|]. simpl.
    eapply (wf_exec (OpRemove _)); [apply Ha | eassumption].
  - inv_bind. apply allWf_set; [assumption | apply wf_empty].
  - unfold onFragment in E. inv_bind. apply allWf_set; [assumption|]. simpl.
    eapply (wf_exec (OpAppendStreamDelta _ _)); [apply Ha | eassumption].
  - unfold onCompleted in E. inv_bind. apply allWf_set; [assumption|]. simpl.
    eapply (wf_exec (OpSetStatus _ _)); [apply Ha | eassumption].
  - unfold onFailed in E. inv_bind. apply allWf_set; [assumption|]. simpl.
    apply wf_mutate; [reflexivity | reflexivity |].
    eapply (wf_exec (OpSetStatus _ _)); [apply Ha | eassumption].
  - unfold cancel in E. inv_bind. apply allWf_set; [assumption|]. simpl.
    eapply (wf_exec (OpSetStatus _ _)); [apply Ha | eassumption].
Qed.

(** The stores the Orchestrator manages are Message Store snapshots in the
    sense of C4: increasing sequences and unique ids. *)
Lemma allWf_run ops : allWf (run ops).
Proof.
  unfold run.
  assert (G : forall st, allWf st -> allWf (runFrom st ops)).
  { induction ops as [|op ops IH]; intros st H; [assumption|].
    change (runFrom st (op :: ops)) with (runFrom (step st op) ops).
    apply IH. unfold step. destruct (exec op st) eqn:E; [|assumption].
    eapply allWf_exec; eassumption. }
  apply G. intros c. unfold conversationOf, initial; simpl.
  destruct (decide (c = "")) as [->|Hne].
  - rewrite lookup_singleton_eq. apply wf_empty.
  - rewrite lookup_singleton_ne by congruence. apply wf_empty.
Qed.

(** *** Looking a message up after a store operation *)

Lemma get_id i s m : get i s = Ok m -> id m = i.
Proof.
  unfold get. destruct (find _ s) eqn:E; [|discriminate].
  intros H; inversion H; subst. apply find_some in E.
  destruct E as [_ E]. now apply bool_decide_eq_true_1 in E.
Qed.

Lemma get_append_new i s m :
  hasId i s = false -> id m = i -> get i (s ++ [m]) = Ok m.
Proof.
  intros H Hm. unfold get.
  assert (E : find (fun x => bool_decide (id x = i)) (s ++ [m]) = Some m).
  { rewrite hasId_false in H.
    induction s as [|a l IH]; simpl.
    - now rewrite (bool_decide_eq_true_2 _ Hm).
    - rewrite (bool_decide_eq_false_2 (id a = i)) by (apply H; now left).
      apply IH. intros x Hx. apply H. now right. }
  now rewrite E.
Qed.

Lemma get_mutate i f s m :
  (forall x, id (f x) = id x) ->
  get i s = Ok m -> get i (mutate i f s) = Ok (f m).
Proof.
  intros Hf. unfold get, mutate.
  induction s as [|a l IH]; simpl; [discriminate|].
  destruct (bool_decide (id a = i)) eqn:E.
  - intros H; inversion H; subst. simpl. rewrite Hf, E. reflexivity.
  - simpl. rewrite E. apply IH.
Qed.

Lemma beginGeneration_starts i s :
  hasId i s = false ->
  exists conv reply,
    beginGeneration i s = Ok conv
    /\ generation conv = Some {| target := i; received := 0 |}
    /\ get i (store conv) = Ok reply
    /\ status reply = streaming /\ displayText reply = "" /\ role reply = assistant.
Proof.
  intros H. unfold beginGeneration, append. simpl. rewrite H. simpl.
  set (reply := setSequence (nextSequence s) _).
  assert (G : get i (s ++ [reply]) = Ok reply) by now apply get_append_new.
  unfold setStatus. rewrite G. simpl.
  eexists. exists (setStatusOf streaming reply).
  split; [reflexivity|]. split; [reflexivity|]. simpl.
  split; [|tauto]. now apply get_mutate.
Qed.

Lemma send_starts resolve text ctx st :
  fresh st ->
  generation (conversationOf (active st) st) = None ->
  exists st' reply,
    send resolve text ctx st = Ok st'
    /\ active st' = active st
    /\ generation (conversationOf (active st) st')
       = Some {| target := S (nextId st); received := 0 |}
    /\ get (S (nextId st)) (store (conversationOf (active st) st')) = Ok reply
    /\ status reply = streaming /\ displayText reply = "" /\ role reply = assistant.
Proof.
  intros Hf Hidle. unfold send. rewrite Hidle.
  pose proof (Hf (active st)) as Hb.
  unfold append at 1. simpl.
  rewrite (bounded_hasId _ _ _ Hb) by lia. simpl.
  set (s1 := store (conversationOf (active st) st) ++ [_]).
  assert (H1 : hasId (S (nextId st)) s1 = false).
  { apply (bounded_hasId (S (nextId st))); [|lia].
    apply Forall_app. split.
    - eapply bounded_mono; [|exact Hb]. lia.
    - repeat constructor. }
  destruct (beginGeneration_starts _ _ H1)
    as [conv [reply [E [G [Hget [Hs [Ht Hr]]]]]]].
  rewrite E. simpl. eexists. exists reply.
  split; [reflexivity|]. split; [reflexivity|].
  rewrite conversationOf_set. destruct (decide _); [|congruence]. tauto.
Qed.

(** C6. At most one send/regenerate is in flight per Conversation.  In
    every state the Orchestrator can reach: if the active conversation has
    a generation in flight, [send] (and [regenerate]) fails with
    ConcurrentOperationError and the state stays as it is; the same [send]
    issued after switching to another identity that has none in flight
    succeeds, starts that conversation's generation and leaves the first
    conversation as it was. *)
Theorem one_generation_in_flight (ops : list Op) (resolve : Resolver)
    (text : string) (ctx : Context) :
  let st := run ops in
  is_Some (generation (conversationOf (active st) st)) ->
  send resolve text ctx st = Fail ConcurrentOperationError
  /\ step st (Send resolve text ctx) = st
  /\ (forall i, regenerate i st = Fail ConcurrentOperationError)
  /\ (forall other,
        generation (conversationOf other st) = None ->
        exists st',
          send resolve text ctx (resolveActiveConversation other st) = Ok st'
          /\ is_Some (generation (conversationOf other st'))
          /\ conversationOf (active st) st' = conversationOf (active st) st).
Proof.
  intros st [g Hg].
  assert (E : send resolve text ctx st = Fail ConcurrentOperationError)
    by (unfold send; now rewrite Hg).
  split; [exact E|].
  split; [unfold step; simpl; now rewrite E|].
  split; [intros i; unfold regenerate; now rewrite Hg|].
  intros other Hidle.
  set (st1 := resolveActiveConversation other st).
  assert (Hf1 : fresh st1).
  { intros c. unfold st1. rewrite conversationOf_switch. apply (fresh_run ops). }
  assert (Hidle1 : generation (conversationOf (active st1) st1) = None)
    by (unfold st1; now rewrite conversationOf_switch).
  destruct (send_starts resolve text ctx st1 Hf1 Hidle1)
    as [st' [reply [Es [_ [G _]]]]].
  exists st'. split; [exact Es|]. split.
  - simpl in G. rewrite G. eauto.
  - assert (Hne : active st <> other) by (intros <-; congruence).
    rewrite (exec_writes_one (Send resolve text ctx) st1 st' (active st) Es).
    + apply conversationOf_switch.
    + simpl. congruence.
Qed.

(** *** A generation from start to cancellation *)

(** Conversation [c] is streaming into message [i], which holds [text]
    after [k] fragments. *)
Definition streamingAt (c : string) (i : MessageId) (text : string) (k : nat)
    (st : State) : Prop :=
  generation (conversationOf c st) = Some {| target := i; received := k |}
  /\ exists m, get i (store (conversationOf c st)) = Ok m
               /\ status m = streaming /\ displayText m = text.

(** The partial text accumulated from the fragments received. *)
Definition accumulate (text : string) (fragments : list string) : string :=
  fold_left (fun acc fragment => acc +:+ fragment) fragments text.

Lemma fragment_advances c i text k fragment st :
  streamingAt c i text k st ->
  exists st', exec (Fragment c fragment) st = Ok st'
              /\ streamingAt c i (text +:+ fragment) (S k) st'.
Proof.
  intros [Hg [m [Hget [Hs Ht]]]]. simpl. unfold onFragment. rewrite Hg. simpl.
  unfold appendStreamDelta. rewrite Hget, Hs. simpl.
  eexists. split; [reflexivity|]. unfold streamingAt.
  rewrite conversationOf_set. destruct (decide (c = c)); [|congruence]. simpl.
  split; [reflexivity|]. exists (addFragment fragment m).
  split; [now apply get_mutate|]. simpl. now rewrite Ht.
Qed.

Lemma fragments_accumulate c i fragments :
  forall text k st,
    streamingAt c i text k st ->
    streamingAt c i (accumulate text fragments) (k + length fragments)
      (runFrom st (map (Fragment c) fragments)).
Proof.
  induction fragments as [|f fs IH]; intros text k st H; simpl.
  - now rewrite Nat.add_0_r.
  - destruct (fragment_advances c i text k f st H) as [st' [E H']].
    change (runFrom st (Fragment c f :: map (Fragment c) fs))
      with (runFrom (step st (Fragment c f)) (map (Fragment c) fs)).
    unfold step. rewrite E. rewrite Nat.add_succ_r.
    apply (IH _ (S k) st' H').
Qed.

Lemma cancel_settles st c g m :
  generation (conversationOf c st) = Some g ->
  get (target g) (store (conversationOf c st)) = Ok m ->
  status m = streaming \/ (status m = pending /\ received g = 0) ->
  exists st' m',
    cancel c st = Ok st'
    /\ generation (conversationOf c st') = None
    /\ get (target g) (store (conversationOf c st')) = Ok m'
    /\ status m' = (if 0 <? received g then complete else error)
    /\ displayText m' = displayText m
    /\ inFlightStatus (status m') = false.
Proof.
  intros Hg Hget Hs. unfold cancel. rewrite Hg. simpl.
  unfold setStatus. rewrite Hget.
  assert (L : legalTransition (status m)
                (if 0 <? received g then complete else error) = true).
  { destruct Hs as [->|[-> ->]]; [|reflexivity].
    now destruct (0 <? received g). }
  rewrite L. simpl. eexists.
  exists (setStatusOf (if 0 <? received g then complete else error) m).
  split; [reflexivity|].
  rewrite conversationOf_set. destruct (decide (c = c)); [|congruence]. simpl.
  split; [reflexivity|].
  split; [now apply get_mutate|].
  split; [reflexivity|]. split; [reflexivity|].
  now destruct (0 <? received g).
Qed.

Lemma runFrom_app st ops1 ops2 :
  runFrom st (ops1 ++ ops2) = runFrom (runFrom st ops1) ops2.
Proof. unfold runFrom. apply fold_left_app. Qed.

(** C7. Cancelling the generation in flight of a conversation settles the
    message it was streaming into: with at least one fragment received the
    message becomes complete, with none it becomes error; its displayText
    is the partial text accumulated so far, and in no case is it left
    pending or streaming.  In particular, from any reachable state with an
    idle active conversation, a send followed by the given fragments and a
    cancellation leaves the reply complete with the fragments' text, or in
    error when there was no fragment. *)
Theorem cancellation_settles_message :
  (forall st c g m,
     generation (conversationOf c st) = Some g ->
     get (target g) (store (conversationOf c st)) = Ok m ->
     status m = streaming \/ (status m = pending /\ received g = 0) ->
     exists st' m',
       cancel c st = Ok st'
       /\ generation (conversationOf c st') = None
       /\ get (target g) (store (conversationOf c st')) = Ok m'
       /\ status m' = (if 0 <? received g then complete else error)
       /\ displayText m' = displayText m
       /\ inFlightStatus (status m') = false)
  /\ (forall ops resolve text ctx fragments,
        let st0 := run ops in
        let c := active st0 in
        generation (conversationOf c st0) = None ->
        let st1 := runFrom st0
                     (Send resolve text ctx :: map (Fragment c) fragments ++ [Cancel c]) in
        exists reply,
          get (S (nextId st0)) (store (conversationOf c st1)) = Ok reply
          /\ generation (conversationOf c st1) = None
          /\ displayText reply = accumulate "" fragments
          /\ status reply = match fragments with
                            | [] => error
                            | _ => complete
                            end).
Proof.
  split; [apply cancel_settles|].
  intros ops resolve text ctx fragments st0 c Hidle st1.
  destruct (send_starts resolve text ctx st0 (fresh_run ops) Hidle)
    as [sa [r0 [Es [Ha [G [Hget [Hs [Ht _]]]]]]]].
  assert (S0 : streamingAt c (S (nextId st0)) "" 0 sa).
  { split; [exact G|]. exists r0. tauto. }
  pose proof (fragments_accumulate c (S (nextId st0)) fragments "" 0 sa S0) as S1.
  set (sb := runFrom sa (map (Fragment c) fragments)) in *.
  assert (E1 : st1 = step sb (Cancel c)).
  { unfold st1.
    change (runFrom st0 (Send resolve text ctx :: map (Fragment c) fragments ++ [Cancel c]))
      with (runFrom (step st0 (Send resolve text ctx))
              (map (Fragment c) fragments ++ [Cancel c])).
    unfold step at 1. simpl exec. rewrite Es. now rewrite runFrom_app. }
  destruct S1 as [Hg [m [Hm [Hst Htxt]]]].
  destruct (cancel_settles sb c _ m Hg Hm (or_introl Hst))
    as [sc [m' [Ec [Gc [Hm' [Hs' [Ht' _]]]]]]].
  simpl in Hm', Hs'.
  assert (E2 : st1 = sc) by (rewrite E1; unfold step; simpl; now rewrite Ec).
  rewrite E2. exists m'. split; [exact Hm'|]. split; [exact Gc|].
  split; [congruence|]. rewrite Hs'. now destruct fragments.
Qed.

(** *** Scenarios of section 8 *)

Definition noResolve : Resolver := fun _ => "".

Definition summary (st : State) (c : string)
  : list (nat * Role * Status * string) :=
  map (fun m => (sequence m, role m, status m, displayText m))
    (store (conversationOf c st)).

Definition helloOps : list Op :=
  [Send noResolve "hello" emptyContext; Fragment "" "Hi"; Fragment "" " there";
   Completed ""].

Example send_hello :
  summary (run helloOps) ""
  = [(0, user, complete, "hello"); (1, assistant, complete, "Hi there")].
Proof. vm_compute. reflexivity. Qed.

Example second_send_is_rejected :
  exec (Send noResolve "again" emptyContext)
    (run [Send noResolve "hello" emptyContext; Fragment "" "Hi"])
  = Fail ConcurrentOperationError.
Proof. vm_compute. reflexivity. Qed.

Example edit_truncates_and_regenerates :
  summary (run (helloOps ++
                [Send noResolve "more" emptyContext; Cancel ""; DeleteMessage 3;
                 Edit noResolve 0 "hi" emptyContext])) ""
  = [(0, user, complete, "hi"); (1, assistant, streaming, "")].
Proof. vm_compute. reflexivity. Qed.

Example delete_does_not_renumber :
  summary (run (helloOps ++
                [Send noResolve "more" emptyContext; Cancel ""; DeleteMessage 1])) ""
  = [(0, user, complete, "hello"); (2, user, complete, "more");
     (3, assistant, error, "")].
Proof. vm_compute. reflexivity. Qed.

Definition inFlightOps : list Op := [Send noResolve "hello" emptyContext].

Lemma one_generation_in_flight_witness :
  send noResolve "again" emptyContext (run inFlightOps)
    = Fail ConcurrentOperationError
  /\ exists st',
       send noResolve "again" emptyContext
         (resolveActiveConversation "project-x" (run inFlightOps)) = Ok st'.
Proof.
  assert (H : is_Some (generation (conversationOf (active (run inFlightOps))
                                     (run inFlightOps))))
    by (vm_compute; eauto).
  destruct (one_generation_in_flight inFlightOps noResolve "again" emptyContext H)
    as [E [_ [_ O]]].
  split; [exact E|].
  destruct (O "project-x") as [st' [Es _]]; [vm_compute; reflexivity|].
  exists st'. exact Es.
Defined.

Lemma cancellation_settles_message_witness :
  exists reply,
    get 1 (store (conversationOf ""
                    (runFrom (run [])
                       (Send noResolve "hello" emptyContext
                        :: map (Fragment "") ["Hel"; "lo"] ++ [Cancel ""]))))
      = Ok reply
    /\ displayText reply = "Hello"
    /\ status reply = complete.
Proof.
  destruct cancellation_settles_message as [_ H].
  destruct (H [] noResolve "hello" emptyContext ["Hel"; "lo"] eq_refl)
    as [reply [G [_ [T S]]]].
  exists reply. split; [exact G|]. split; [exact T | exact S].
Defined.

Definition otherOps : list Op :=
  [Send noResolve "elsewhere" emptyContext; Fragment "project-x" "x";
   Cancel "project-x"; Clear; Send noResolve "again" emptyContext].

Lemma switching_preserves_store_witness :
  store (conversationOf ""
           (resolveActiveConversation ""
              (runFrom (resolveActiveConversation "project-x" (run helloOps))
                 otherOps)))
  = store (conversationOf "" (run helloOps)).
Proof.
  assert (Hne : "" <> "project-x") by discriminate.
  assert (Hops : Forall (addressedTo "project-x") otherOps)
    by (repeat constructor).
  destruct (switching_preserves_store (run helloOps) "" "project-x" otherOps
              Hne Hops) as [_ [_ [H _]]].
  exact H.
Defined.

End Orchestrator.


(** ** Docs4LLMParser's rate-limit notice *)
Module RateLimitNotice.
Local Open Scope Z_scope.

(** [new Notice(message, duration)]. *)
Record Notice := { message : string; duration : Z }.

(** The static [lastRateLimitNoticeTime] and the notices created so far,
    each with the [Date.now()] at which it was created. *)
Record NoticeState := {
  lastRateLimitNoticeTime : Z;
  shown : list (Z * Notice)
}.

Definition initial : NoticeState :=
  {| lastRateLimitNoticeTime := 0; shown := [] |}.

Definition resetRateLimitNoticeTimer (st : NoticeState) : NoticeState :=
  {| lastRateLimitNoticeTime := 0; shown := shown st |}.

Section Notices.
(** The thrown value, and [isRateLimitError] and [extractRetryTime] of
    [@/utils/rateLimitUtils], as parameters. *)
Variable Thrown : Type.
Variable isRateLimitError : Thrown -> bool.
Variable extractRetryTime : Thrown -> string.

Definition rateLimitMessage (retryTime : string) : string :=
  ("⚠️ Rate limit exceeded for document processing. Please try again in "
   +:+ retryTime
   +:+ ". Having fewer non-markdown files in the project will help.")%string.

(** [showRateLimitNotice(error)], with [now] the value of [Date.now()]. *)
Definition showRateLimitNotice (now : Z) (error : Thrown) (st : NoticeState)
  : NoticeState :=
  if now - lastRateLimitNoticeTime st <? 60000 then st
  else
    let retryTime := extractRetryTime error in
    {| lastRateLimitNoticeTime := now;
       shown := (shown st ++ [(now, {| message := rateLimitMessage retryTime;
                                       duration := 10000 |})])%list |}.

(** The part of [parseFile]'s catch block that deals with the notice. *)
Definition onParseError (st : NoticeState) (event : Z * Thrown) : NoticeState :=
  let (now, error) := event in
  if isRateLimitError error then showRateLimitNotice now error st else st.

Definition run (events : list (Z * Thrown)) (st : NoticeState) : NoticeState :=
  fold_left onParseError events st.

(** Notices are at least a minute apart. *)
Definition spaced (times : list Z) : Prop :=
  StronglySorted (fun a b => a + 60000 <= b) times.

Definition inv (st : NoticeState) : Prop :=
  spaced (map fst (shown st))
  /\ Forall (fun t => t <= lastRateLimitNoticeTime st) (map fst (shown st)).

Lemma inv_step st event : inv st -> inv (onParseError st event).
Proof.
  intros [Hs Hl]. destruct event as [now error]. simpl.
  destruct (isRateLimitError error); [|now split].
  unfold showRateLimitNotice.
  destruct (now - lastRateLimitNoticeTime st <? 60000) eqn:E; [now split|].
  apply Z.ltb_ge in E. unfold inv. simpl. rewrite map_app. simpl. split.
  - apply StronglySorted_app. split; [|split].
    + intros a b Ha Hb. apply list_elem_of_singleton in Hb. subst b.
      rewrite List.Forall_forall in Hl. apply list_elem_of_In in Ha.
      apply Hl in Ha. lia.
    + exact Hs.
    + repeat constructor.
  - apply Forall_app. split.
    + eapply List.Forall_impl; [|exact Hl]. intros t Ht. simpl in Ht. lia.
    + repeat constructor. lia.
Qed.

Lemma inv_run events st : inv st -> inv (run events st).
Proof.
  revert st. induction events as [|e events IH]; intros st H; [exact H|].
  simpl. apply IH. now apply inv_step.
Qed.

Lemma shown_from_events events st t n :
  In (t, n) (shown (run events st)) ->
  In (t, n) (shown st)
  \/ exists error, In (t, error) events /\ isRateLimitError error = true
                   /\ n = {| message := rateLimitMessage (extractRetryTime error);
                             duration := 10000 |}.
Proof.
  revert st. induction events as [|[now error] events IH]; intros st H; [now left|].
  simpl in H. apply IH in H. destruct H as [H|[e [Hin [Hr Hn]]]].
  - simpl in H. destruct (isRateLimitError error) eqn:R; [|now left].
    unfold showRateLimitNotice in H.
    destruct (now - lastRateLimitNoticeTime st <? 60000); [now left|].
    simpl in H. apply in_app_or in H. destruct H as [H|[H|[]]]; [now left|].
    inversion H; subst. right. exists error. split; [now left|]. now split.
  - right. exists e. split; [now right|]. now split.
Qed.

(** X7. Rate-limit notices are throttled: whatever errors occur at whatever
    times, any two notices that Docs4LLMParser has created since the timer
    started are at least 60000 ms apart, in increasing order of time; a
    notice is created only for an error that [isRateLimitError] accepts, at
    the time of that error, with a duration of 10 s; and right after a
    notice no further one appears within the next minute. *)
Theorem rate_limit_notices_are_throttled (events : list (Z * Thrown)) :
  let st := run events initial in
  spaced (map fst (shown st))
  /\ (forall t n, In (t, n) (shown st) ->
        exists error, In (t, error) events /\ isRateLimitError error = true
                      /\ n = {| message := rateLimitMessage (extractRetryTime error);
                                duration := 10000 |})
  /\ (forall now error,
        now - lastRateLimitNoticeTime st < 60000 ->
        showRateLimitNotice now error st = st)
  /\ (forall now error,
        60000 <= now ->
        shown (showRateLimitNotice now error (resetRateLimitNoticeTimer st))
        = (shown st ++ [(now, {| message := rateLimitMessage (extractRetryTime error);
                                 duration := 10000 |})])%list).
Proof.
  intros st.
  assert (I : inv st) by (apply inv_run; split; constructor).
  split; [apply I|]. split.
  { intros t n H. apply shown_from_events in H. destruct H as [[]|H]. exact H. }
  split.
  { intros now error H. unfold showRateLimitNotice.
    apply Z.ltb_lt in H. now rewrite H. }
  intros now error H. unfold showRateLimitNotice, resetRateLimitNoticeTimer. simpl.
  rewrite Z.sub_0_r. apply Z.ltb_ge in H. now rewrite H.
Qed.

End Notices.

Example two_errors_one_notice :
  map fst (shown (run string (fun _ => true) (fun e => e)
                    [(1700000000000, "30s"); (1700000030000, "30s");
                     (1700000060000, "10s")] initial))
  = [1700000000000; 1700000060000].
Proof. reflexivity. Qed.

End RateLimitNotice.


(** ** src/hooks/useActiveFile.ts *)
Module UseActiveFile.
Import ActiveFileTracker.
Local Open Scope list_scope.

Section Hook.
Variable isAllowedFileForNoteContext : option TFile -> bool.

(** The hook's state [activeFile] next to the module-level tracker
    [lastActiveContextFile], which the hook shares with every other caller
    of the tracker's functions. *)
Record World := {
  activeFile : option TFile;
  lastActiveContextFile : Tracker
}.

(** What happens after mounting: the hook's listener runs on an
    ACTIVE_LEAF_CHANGE event, with the [app] as it is then; or some other
    code (an exported function of the tracker, another instance of the
    hook) calls the tracker. *)
Inductive Event :=
| ActiveLeafChange (app : App)
| Elsewhere (call : Call).

(** [useState(() => getActiveContextFile(app))]. *)
Definition mount (app : App) (last : Tracker) : World :=
  let (file, last') := getActiveContextFile isAllowedFileForNoteContext app last in
  {| activeFile := file; lastActiveContextFile := last' |}.

(** [handleActiveLeafChange]: [setActiveFile(getActiveContextFile(app))]. *)
Definition handleActiveLeafChange (w : World) (app : App) : World :=
  let (file, last') :=
    getActiveContextFile isAllowedFileForNoteContext app (lastActiveContextFile w) in
  {| activeFile := file; lastActiveContextFile := last' |}.

Definition handle (w : World) (e : Event) : World :=
  match e with
  | ActiveLeafChange app => handleActiveLeafChange w app
  | Elsewhere call =>
      {| activeFile := activeFile w;
         lastActiveContextFile :=
           step isAllowedFileForNoteContext (lastActiveContextFile w) call |}
  end.

(** The hook after mounting and a series of events. *)
Definition useActiveFile (app : App) (events : list Event) (last : Tracker) : World :=
  fold_left handle events (mount app last).

(** The call of the tracker an event amounts to. *)
Definition callOf (e : Event) : Call :=
  match e with
  | ActiveLeafChange app => CallGetActiveContextFile app
  | Elsewhere call => call
  end.

Lemma getActiveContextFile_value app last :
  fst (getActiveContextFile isAllowedFileForNoteContext app last)
  = snd (getActiveContextFile isAllowedFileForNoteContext app last).
Proof.
  unfold getActiveContextFile, trackContextFile.
  destruct (isAllowedFileForNoteContext (getActiveFile app)) eqn:E;
    reflexivity.
Qed.

Lemma handleActiveLeafChange_shows w app :
  activeFile (handleActiveLeafChange w app)
  = lastActiveContextFile (handleActiveLeafChange w app)
  /\ lastActiveContextFile (handleActiveLeafChange w app)
     = step isAllowedFileForNoteContext (lastActiveContextFile w)
         (CallGetActiveContextFile app).
Proof.
  unfold handleActiveLeafChange. simpl.
  pose proof (getActiveContextFile_value app (lastActiveContextFile w)) as V.
  destruct (getActiveContextFile isAllowedFileForNoteContext app
              (lastActiveContextFile w)) as [file last']. simpl in *.
  now subst.
Qed.

Lemma mount_shows app last :
  activeFile (mount app last) = lastActiveContextFile (mount app last)
  /\ lastActiveContextFile (mount app last)
     = step isAllowedFileForNoteContext last (CallGetActiveContextFile app).
Proof.
  unfold mount. simpl.
  pose proof (getActiveContextFile_value app last) as V.
  destruct (getActiveContextFile isAllowedFileForNoteContext app last)
    as [file last']. simpl in *.
  now subst.
Qed.

Lemma useActiveFile_snoc app events e last :
  useActiveFile app (events ++ [e]) last = handle (useActiveFile app events last) e.
Proof. unfold useActiveFile. now rewrite fold_left_app. Qed.

Lemma handle_tracker w e :
  lastActiveContextFile (handle w e)
  = step isAllowedFileForNoteContext (lastActiveContextFile w) (callOf e).
Proof. destruct e as [app|call]; [apply handleActiveLeafChange_shows | reflexivity]. Qed.

(** The tracker is the result of all the calls, the hook's and the others,
    in the order in which they happened. *)
Lemma useActiveFile_tracker app events last :
  lastActiveContextFile (useActiveFile app events last)
  = run isAllowedFileForNoteContext
      (CallGetActiveContextFile app :: map callOf events) last.
Proof.
  induction events as [|e events IH] using rev_ind.
  - apply mount_shows.
  - rewrite useActiveFile_snoc, handle_tracker, IH, map_app.
    change (CallGetActiveContextFile app :: map callOf events ++ map callOf [e])
      with ((CallGetActiveContextFile app :: map callOf events) ++ [callOf e]).
    now rewrite run_snoc.
Qed.

(** Calls from elsewhere leave the hook's state as it is. *)
Lemma elsewhere_keeps_activeFile w calls :
  activeFile (fold_left handle (map Elsewhere calls) w) = activeFile w.
Proof.
  revert w. induction calls as [|c calls IH]; intros w; [reflexivity|].
  simpl. now rewrite IH.
Qed.

Hypothesis null_not_allowed : isAllowedFileForNoteContext None = false.

Lemma handle_keeps_shown w e :
  (activeFile w <> None -> lastActiveContextFile w <> None) ->
  activeFile w <> None ->
  activeFile (handle w e) <> None
  /\ lastActiveContextFile (handle w e) <> None.
Proof using null_not_allowed.
  intros Inv Hw. specialize (Inv Hw).
  assert (T : lastActiveContextFile (handle w e) <> None).
  { rewrite handle_tracker, step_seen by exact null_not_allowed.
    destruct (isAllowedFileForNoteContext (seen (callOf e))) eqn:E; [|exact Inv].
    intros H. rewrite H in E. congruence. }
  split; [|exact T].
  destruct e as [app|call]; [|exact Hw].
  destruct (handleActiveLeafChange_shows w app) as [V _].
  simpl in *. now rewrite V.
Qed.

(** X8. [useActiveFile] and the shared tracker.  The tracker is the result
    of all calls, the hook's own and those made elsewhere, in order.  Right
    after mounting and right after each run of its listener the hook shows
    the tracker's last file; calls made elsewhere change the tracker but
    not what the hook shows until the listener runs again.  So the hook
    shows the most recent context-eligible file that any call had seen by
    the time of its last update (the tracker's earlier file if there was
    none), and once it shows a file no later event blanks it. *)
Theorem useActiveFile_keeps_last_file (app : App) (events : list Event)
    (last : Tracker) :
  lastActiveContextFile (useActiveFile app events last)
  = run isAllowedFileForNoteContext
      (CallGetActiveContextFile app :: map callOf events) last
  /\ (forall before app' elsewhere,
        events = before ++ ActiveLeafChange app' :: map Elsewhere elsewhere ->
        activeFile (useActiveFile app events last)
        = getLastActiveContextFile
            (lastActiveContextFile
               (useActiveFile app (before ++ [ActiveLeafChange app']) last))
        /\ activeFile (useActiveFile app events last)
           = match lastEligible isAllowedFileForNoteContext
                     (CallGetActiveContextFile app
                      :: map callOf (before ++ [ActiveLeafChange app'])) with
             | Some f => Some f
             | None => last
             end)
  /\ (forall elsewhere,
        events = map Elsewhere elsewhere ->
        activeFile (useActiveFile app events last)
        = match lastEligible isAllowedFileForNoteContext
                  [CallGetActiveContextFile app] with
          | Some f => Some f
          | None => last
          end)
  /\ (forall more,
        activeFile (useActiveFile app events last) <> None ->
        activeFile (useActiveFile app (events ++ more) last) <> None).
Proof using null_not_allowed.
  split; [apply useActiveFile_tracker|]. split; [|split].
  - intros before app' elsewhere ->.
    assert (A : activeFile (useActiveFile app
                              (before ++ ActiveLeafChange app' :: map Elsewhere elsewhere)
                              last)
                = lastActiveContextFile
                    (useActiveFile app (before ++ [ActiveLeafChange app']) last)).
    { change (before ++ ActiveLeafChange app' :: map Elsewhere elsewhere)
        with (before ++ [ActiveLeafChange app'] ++ map Elsewhere elsewhere).
      rewrite app_assoc. unfold useActiveFile at 1. rewrite fold_left_app.
      rewrite elsewhere_keeps_activeFile.
      fold (useActiveFile app (before ++ [ActiveLeafChange app']) last).
      rewrite useActiveFile_snoc. apply handleActiveLeafChange_shows. }
    split; [exact A|].
    rewrite A, useActiveFile_tracker. now apply run_lastEligible.
  - intros elsewhere ->. unfold useActiveFile.
    rewrite elsewhere_keeps_activeFile.
    destruct (mount_shows app last) as [V T]. rewrite V, T.
    change (step isAllowedFileForNoteContext last (CallGetActiveContextFile app))
      with (run isAllowedFileForNoteContext [CallGetActiveContextFile app] last).
    now apply run_lastEligible.
  - assert (Inv : forall evs,
              activeFile (useActiveFile app evs last) <> None ->
              lastActiveContextFile (useActiveFile app evs last) <> None).
    { induction evs as [|e evs IH] using rev_ind.
      - destruct (mount_shows app last) as [V _]. unfold useActiveFile. simpl.
        now rewrite V.
      - rewrite useActiveFile_snoc. intros H.
        destruct e as [app'|call].
        + destruct (handleActiveLeafChange_shows (useActiveFile app evs last) app')
            as [V _]. simpl in *. now rewrite <- V.
        + simpl in H. specialize (IH H).
          rewrite handle_tracker, step_seen by exact null_not_allowed.
          destruct (isAllowedFileForNoteContext (seen (callOf (Elsewhere call))))
            eqn:E; [|exact IH].
          intros N. rewrite N in E. congruence. }
    intros more. induction more as [|e more IH] using rev_ind.
    + now rewrite app_nil_r.
    + intros H. rewrite app_assoc, useActiveFile_snoc.
      apply handle_keeps_shown; [apply Inv | now apply IH].
Qed.

End Hook.

(** The hook shows notes/a.md; another caller then tracks another note; the
    hook still shows notes/a.md until its listener runs, on a view without
    eligible file, and then shows the other note. *)
Definition noteB : TFile :=
  {| path := "notes/b.md"; basename := "b"; extension := "md"; stat := None |}.

Lemma useActiveFile_keeps_last_file_witness :
  activeFile (useActiveFile allowMdCanvas {| getActiveFile := Some noteA |}
                [Elsewhere (CallTrackContextFile (Some noteB))] None)
  = Some noteA
  /\ activeFile (useActiveFile allowMdCanvas {| getActiveFile := Some noteA |}
                   [Elsewhere (CallTrackContextFile (Some noteB));
                    ActiveLeafChange {| getActiveFile := Some picture |}] None)
     = Some noteB.
Proof.
  split.
  - destruct (useActiveFile_keeps_last_file allowMdCanvas eq_refl
                {| getActiveFile := Some noteA |}
                [Elsewhere (CallTrackContextFile (Some noteB))] None)
      as [_ [_ [H _]]].
    rewrite (H [CallTrackContextFile (Some noteB)] eq_refl). reflexivity.
  - destruct (useActiveFile_keeps_last_file allowMdCanvas eq_refl
                {| getActiveFile := Some noteA |}
                [Elsewhere (CallTrackContextFile (Some noteB));
                 ActiveLeafChange {| getActiveFile := Some picture |}] None)
      as [_ [H _]].
    destruct (H [Elsewhere (CallTrackContextFile (Some noteB))]
                {| getActiveFile := Some picture |} [] eq_refl) as [_ H'].
    rewrite H'. reflexivity.
Defined.

End UseActiveFile.


(** ** ChatInput: the context it keeps and the tools it sends *)
Module ChatInputContext.
Import Js InlineMessageEditor.
Local Open Scope list_scope.

(** A note pill of the editor: [{ path, basename }]. *)
Record NotePill := { pill_path : string; pill_basename : string }.

(** What [app.vault.getAbstractFileByPath] can find: a file or a folder. *)
Inductive AbstractFile :=
| IsFile (file : TFile)
| IsFolder (folderPath : string).

(** [Array.from(new Set(array))]: the first occurrence of each element, in
    order; [seen] is the set built so far. *)
Fixpoint setFrom (seen : list string) (array : list string) : list string :=
  match array with
  | [] => []
  | x :: rest =>
      if bool_decide (x ∈ seen) then setFrom seen rest
      else x :: setFrom (x :: seen) rest
  end.

Definition handleNotePillsRemoved (removedNotes : list NotePill) (prev : list TFile)
  : list TFile :=
  let removedPaths := map pill_path removedNotes in
  List.filter (fun contextNote => negb (bool_decide (path contextNote ∈ removedPaths)))
    prev.

Definition handleURLPillsRemoved (removedUrls : list string) (prev : list string)
  : list string :=
  List.filter (fun url => if bool_decide (url ∈ removedUrls) then false else true) prev.

Definition handleFolderPillsRemoved (removedFolders : list string) (prev : list string)
  : list string :=
  List.filter (fun folder => if bool_decide (folder ∈ removedFolders) then false else true)
    prev.

(** The effect "Pill-to-context synchronization (when pills are added)". *)
Definition syncNotes (getAbstractFileByPath : string -> option AbstractFile)
    (notesFromPills : list NotePill) (prev : list TFile) : list TFile :=
  let contextPaths := map path prev in
  let newNotesFromPills :=
    List.filter (fun pillNote => negb (bool_decide (pill_path pillNote ∈ contextPaths)))
      notesFromPills in
  let newFiles :=
    omap (fun pillNote => match getAbstractFileByPath (pill_path pillNote) with
                          | Some (IsFile file) => Some file
                          | _ => None
                          end) newNotesFromPills in
  prev ++ newFiles.

(** The effect "URL pill-to-context synchronization"; [isPlus] is
    [isPlusChain(currentChain)]. *)
Definition syncUrls (isPlus : bool) (urlsFromPills : list string) (prev : list string)
  : list string :=
  if isPlus then
    let newUrlsFromPills :=
      List.filter (fun pillUrl => negb (bool_decide (pillUrl ∈ prev))) urlsFromPills in
    if (0 <? length newUrlsFromPills)%nat
    then setFrom [] (prev ++ newUrlsFromPills)
    else prev
  else [].

(** The effect "Folder-to-context synchronization". *)
Definition syncFolders (foldersFromPills : list string) (prev : list string)
  : list string :=
  let newFoldersFromPills :=
    List.filter (fun pillFolder => negb (bool_decide (pillFolder ∈ prev)))
      foldersFromPills in
  prev ++ newFoldersFromPills.

(** The three tool toggles. *)
Record Toggles := { vault : bool; web : bool; composer : bool }.

Definition removeTool (t : Toggles) (tool : string) : Toggles :=
  if bool_decide (tool = "@vault")
  then {| vault := false; web := web t; composer := composer t |}
  else if bool_decide (tool = "@websearch") || bool_decide (tool = "@web")
  then {| vault := vault t; web := false; composer := composer t |}
  else if bool_decide (tool = "@composer")
  then {| vault := vault t; web := web t; composer := false |}
  else t.

Definition handleToolPillsRemoved (isCopilotPlus autonomousAgentToggle : bool)
    (removedTools : list string) (t : Toggles) : Toggles :=
  if negb isCopilotPlus || autonomousAgentToggle then t
  else fold_left removeTool removedTools t.

(** The effect "Sync tool button states with tool pills". *)
Definition syncTools (isCopilotPlus autonomousAgentToggle : bool)
    (toolsFromPills : list string) (t : Toggles) : Toggles :=
  if negb isCopilotPlus || autonomousAgentToggle then t
  else {| vault := bool_decide ("@vault" ∈ toolsFromPills);
          web := bool_decide ("@websearch" ∈ toolsFromPills)
                 || bool_decide ("@web" ∈ toolsFromPills);
          composer := bool_decide ("@composer" ∈ toolsFromPills) |}.

(** *** Sets built from arrays *)

Lemma setFrom_elem seen array x :
  x ∈ setFrom seen array <-> x ∈ array /\ x ∉ seen.
Proof.
  revert seen. induction array as [|y rest IH]; intros seen; simpl.
  - rewrite elem_of_nil. tauto.
  - case_bool_decide as Hy.
    + rewrite IH, elem_of_cons. split; [tauto|].
      intros [[->|H] Hn]; [contradiction|tauto].
    + rewrite elem_of_cons, IH, !elem_of_cons. split.
      * intros [->|[H Hn]]; [tauto|]. tauto.
      * intros [[->|H] Hn]; [tauto|].
        destruct (decide (x = y)) as [->|Hne]; tauto.
Qed.

Lemma setFrom_NoDup seen array : NoDup (setFrom seen array).
Proof.
  revert seen. induction array as [|y rest IH]; intros seen; simpl.
  - constructor.
  - case_bool_decide; [apply IH|].
    apply NoDup_cons. split; [|apply IH].
    rewrite setFrom_elem, not_elem_of_cons. tauto.
Qed.

Lemma setFrom_id seen array :
  NoDup array -> (forall x, x ∈ array -> x ∉ seen) -> setFrom seen array = array.
Proof.
  revert seen. induction array as [|y rest IH]; intros seen Hn Hs; simpl.
  - reflexivity.
  - apply NoDup_cons in Hn. destruct Hn as [Hy Hn].
    rewrite bool_decide_eq_false_2 by (apply Hs; left).
    f_equal. apply IH; [exact Hn|].
    intros x Hx. rewrite not_elem_of_cons. split.
    + intros ->. contradiction.
    + apply Hs. now right.
Qed.

Lemma filter_elem {A} (p : A -> bool) (l : list A) x :
  x ∈ List.filter p l <-> x ∈ l /\ p x = true.
Proof. rewrite !list_elem_of_In. apply filter_In. Qed.

Lemma filter_nil_iff {A} (p : A -> bool) (l : list A) :
  List.filter p l = [] <-> forall x, x ∈ l -> p x = false.
Proof.
  induction l as [|a l IH]; simpl.
  - split; [intros _ x Hx; now apply elem_of_nil in Hx | reflexivity].
  - destruct (p a) eqn:E.
    + split; [discriminate|]. intros H. specialize (H a (list_elem_of_here _ _)).
      congruence.
    + rewrite IH. split.
      * intros H x Hx. apply elem_of_cons in Hx. destruct Hx as [->|Hx]; auto.
      * intros H x Hx. apply H. now right.
Qed.

(** X9. URL pills are merged into the context as a set.  In a Plus chain,
    after the synchronisation the context holds exactly the URLs it had and
    those of the pills; when a pill brings a new URL the result has no
    duplicates at all, and a context without duplicates keeps its order
    with the new URLs behind it; running the effect again changes nothing.
    In any other chain the URLs of the context are discarded. *)
Theorem syncUrls_merges_as_set (urlsFromPills prev : list string) :
  (forall url, url ∈ syncUrls true urlsFromPills prev
               <-> url ∈ prev \/ url ∈ urlsFromPills)
  /\ ((exists url, url ∈ urlsFromPills /\ url ∉ prev) ->
      NoDup (syncUrls true urlsFromPills prev))
  /\ (NoDup prev -> NoDup (syncUrls true urlsFromPills prev)
                    /\ exists added, syncUrls true urlsFromPills prev = prev ++ added)
  /\ syncUrls true urlsFromPills (syncUrls true urlsFromPills prev)
     = syncUrls true urlsFromPills prev
  /\ syncUrls false urlsFromPills prev = [].
Proof.
  remember (List.filter (fun pillUrl => negb (bool_decide (pillUrl ∈ prev)))
              urlsFromPills) as new eqn:En.
  assert (Hnew : forall u, u ∈ new <-> u ∈ urlsFromPills /\ u ∉ prev).
  { intros u. rewrite En, filter_elem, negb_true_iff. split.
    - intros [H1 H2]. split; [exact H1|]. now apply bool_decide_eq_false_1 in H2.
    - intros [H1 H2]. split; [exact H1|]. now apply bool_decide_eq_false_2. }
  assert (S : syncUrls true urlsFromPills prev =
              match new with [] => prev | _ => setFrom [] (prev ++ new) end).
  { unfold syncUrls. rewrite <- En. now destruct new. }
  assert (M : forall url, url ∈ syncUrls true urlsFromPills prev
                          <-> url ∈ prev \/ url ∈ urlsFromPills).
  { intros url. rewrite S. destruct new as [|n0 new'].
    - split; [tauto|]. intros [H|H]; [exact H|].
      destruct (decide (url ∈ prev)) as [Hp|Hp]; [exact Hp|].
      assert (H0 : url ∈ []) by (apply Hnew; tauto). now apply elem_of_nil in H0.
    - rewrite setFrom_elem, elem_of_app, Hnew, elem_of_nil.
      destruct (decide (url ∈ prev)); tauto. }
  split; [exact M|]. split; [|split; [|split]].
  - intros [url [Hu Hp]]. rewrite S. destruct new as [|n0 new'].
    + assert (H : url ∈ []) by (apply Hnew; tauto). now apply elem_of_nil in H.
    + apply setFrom_NoDup.
  - intros Hn. rewrite S. destruct new as [|n0 new'].
    + split; [exact Hn|]. exists []. now rewrite app_nil_r.
    + split; [apply setFrom_NoDup|].
      assert (P : forall acc seen rest,
                NoDup acc -> (forall x, x ∈ acc -> x ∉ seen) ->
                exists added, setFrom seen (acc ++ rest) = acc ++ added).
      { induction acc as [|a acc IH]; intros seen rest Ha Hs; simpl.
        - eauto.
        - apply NoDup_cons in Ha. destruct Ha as [Ha1 Ha2].
          rewrite bool_decide_eq_false_2 by (apply Hs; left).
          destruct (IH (a :: seen) rest Ha2) as [added E].
          + intros x Hx. rewrite not_elem_of_cons. split.
            * intros ->. contradiction.
            * apply Hs. now right.
          + exists added. now rewrite E. }
      apply P; [exact Hn|]. intros x _. apply not_elem_of_nil.
  - assert (E : List.filter
                  (fun pillUrl => negb (bool_decide
                                          (pillUrl ∈ syncUrls true urlsFromPills prev)))
                  urlsFromPills = []).
    { apply filter_nil_iff. intros x Hx. apply negb_false_iff, bool_decide_eq_true_2.
      apply M. now right. }
    unfold syncUrls at 1. now rewrite E.
  - reflexivity.
Qed.

(** X10. Folder pills are appended to the context: the folders already in
    it stay in front, in order, every pill folder ends up in it, a second
    run of the effect adds nothing, and removing the pills again takes out
    exactly their folders, so that a context that had none of them is
    restored. *)
Theorem syncFolders_appends (foldersFromPills prev : list string) :
  (exists added, syncFolders foldersFromPills prev = prev ++ added
                 /\ forall f, f ∈ added <-> f ∈ foldersFromPills /\ f ∉ prev)
  /\ (forall f, f ∈ foldersFromPills -> f ∈ syncFolders foldersFromPills prev)
  /\ syncFolders foldersFromPills (syncFolders foldersFromPills prev)
     = syncFolders foldersFromPills prev
  /\ handleFolderPillsRemoved foldersFromPills (syncFolders foldersFromPills prev)
     = handleFolderPillsRemoved foldersFromPills prev
  /\ ((forall f, f ∈ foldersFromPills -> f ∉ prev) ->
      handleFolderPillsRemoved foldersFromPills (syncFolders foldersFromPills prev)
      = prev).
Proof.
  set (new := List.filter (fun pillFolder => negb (bool_decide (pillFolder ∈ prev)))
                foldersFromPills).
  assert (Hnew : forall f, f ∈ new <-> f ∈ foldersFromPills /\ f ∉ prev).
  { intros f. unfold new. rewrite filter_elem, negb_true_iff. split.
    - intros [H1 H2]. split; [exact H1|]. now apply bool_decide_eq_false_1 in H2.
    - intros [H1 H2]. split; [exact H1|]. now apply bool_decide_eq_false_2. }
  assert (In1 : forall f, f ∈ foldersFromPills -> f ∈ syncFolders foldersFromPills prev).
  { intros f Hf. unfold syncFolders. fold new. rewrite elem_of_app.
    destruct (decide (f ∈ prev)); [now left|]. right. apply Hnew. tauto. }
  assert (R : handleFolderPillsRemoved foldersFromPills
                (syncFolders foldersFromPills prev)
              = handleFolderPillsRemoved foldersFromPills prev).
  { unfold handleFolderPillsRemoved, syncFolders. fold new.
    rewrite List.filter_app.
    replace (List.filter _ new) with (@nil string); [now rewrite app_nil_r|].
    symmetry. apply filter_nil_iff. intros x Hx. apply Hnew in Hx.
    now rewrite bool_decide_eq_true_2. }
  split; [exists new; split; [reflexivity | exact Hnew]|].
  split; [exact In1|]. split; [|split].
  - unfold syncFolders at 1.
    replace (List.filter _ foldersFromPills) with (@nil string);
      [now rewrite app_nil_r|].
    symmetry. apply filter_nil_iff. intros x Hx.
    apply negb_false_iff, bool_decide_eq_true_2. now apply In1.
  - exact R.
  - intros Hd. rewrite R. unfold handleFolderPillsRemoved.
    apply MessageStore.filter_all. apply List.Forall_forall. intros f Hf.
    rewrite bool_decide_eq_false_2; [reflexivity|].
    intros Hin. apply (Hd f Hin). now apply list_elem_of_In.
Qed.

(** *** Note pills *)

Lemma omap_none {A B} (f : A -> option B) (l : list A) :
  (forall x, x ∈ l -> f x = None) -> omap f l = [].
Proof.
  induction l as [|a l IH]; intros H; simpl; [reflexivity|].
  rewrite (H a (list_elem_of_here _ _)). apply IH. intros x Hx. apply H. now right.
Qed.

Section Notes.
Variable getAbstractFileByPath : string -> option AbstractFile.

Definition fileAt (pillNote : NotePill) : option TFile :=
  match getAbstractFileByPath (pill_path pillNote) with
  | Some (IsFile file) => Some file
  | _ => None
  end.

(** The vault answers a lookup with the file of that path. *)
Hypothesis found_at_path : forall p file,
  getAbstractFileByPath p = Some (IsFile file) -> path file = p.

(** X11. Note pills and the context notes: removing pills takes out
    exactly the notes with one of the removed paths and keeps the others in
    order; adding pills appends, behind the notes already there, exactly
    the files the vault finds for pills whose path is not yet in the
    context, in the order of the pills (pills that name a folder or nothing
    are ignored); a second run of the effect adds nothing; and removing the
    same pills afterwards undoes the addition. *)
Theorem note_pills_add_and_remove (notesFromPills : list NotePill)
    (prev : list TFile) :
  (forall note, note ∈ handleNotePillsRemoved notesFromPills prev
                <-> note ∈ prev /\ path note ∉ map pill_path notesFromPills)
  /\ sublist (handleNotePillsRemoved notesFromPills prev) prev
  /\ (exists added,
        syncNotes getAbstractFileByPath notesFromPills prev = prev ++ added
        /\ (forall file, file ∈ added <->
              (path file ∉ map path prev)
              /\ exists pillNote, pillNote ∈ notesFromPills
                                  /\ getAbstractFileByPath (pill_path pillNote)
                                     = Some (IsFile file))
        /\ sublist (map path added) (map pill_path notesFromPills))
  /\ syncNotes getAbstractFileByPath notesFromPills
       (syncNotes getAbstractFileByPath notesFromPills prev)
     = syncNotes getAbstractFileByPath notesFromPills prev
  /\ handleNotePillsRemoved notesFromPills
       (syncNotes getAbstractFileByPath notesFromPills prev)
     = handleNotePillsRemoved notesFromPills prev.
Proof using found_at_path.
  assert (FA : forall pillNote file,
            fileAt pillNote = Some file <->
            getAbstractFileByPath (pill_path pillNote) = Some (IsFile file)).
  { intros pillNote file. unfold fileAt.
    destruct (getAbstractFileByPath (pill_path pillNote)) as [[f|]|];
      split; intros H; inversion H; reflexivity. }
  set (new := List.filter
                (fun pillNote => negb (bool_decide (pill_path pillNote ∈ map path prev)))
                notesFromPills).
  assert (S : syncNotes getAbstractFileByPath notesFromPills prev
              = prev ++ omap fileAt new) by reflexivity.
  assert (A : forall file, file ∈ omap fileAt new <->
              (path file ∉ map path prev)
              /\ exists pillNote, pillNote ∈ notesFromPills
                                  /\ getAbstractFileByPath (pill_path pillNote)
                                     = Some (IsFile file)).
  { intros file. split.
    - intros Hf. apply list_elem_of_omap in Hf. destruct Hf as [pillNote [Hp Hfa]].
      unfold new in Hp. apply filter_elem in Hp. destruct Hp as [Hp Hq].
      apply negb_true_iff, bool_decide_eq_false_1 in Hq.
      apply FA in Hfa. rewrite (found_at_path _ _ Hfa). eauto.
    - intros [Hout [pillNote [Hp Hg]]].
      apply list_elem_of_omap. exists pillNote. split; [|now apply FA].
      unfold new. apply filter_elem. split; [exact Hp|].
      apply negb_true_iff, bool_decide_eq_false_2.
      now rewrite <- (found_at_path _ _ Hg). }
  assert (O : forall pills, sublist (map path (omap fileAt pills)) (map pill_path pills)).
  { induction pills as [|pillNote pills IH]; simpl; [constructor|].
    destruct (fileAt pillNote) as [file|] eqn:Hfa; simpl.
    - apply FA in Hfa. rewrite (found_at_path _ _ Hfa). now constructor.
    - now constructor. }
  split; [|split; [|split; [|split]]].
  - intros note. unfold handleNotePillsRemoved. rewrite filter_elem, negb_true_iff.
    split; intros [H1 H2]; (split; [exact H1|]).
    + now apply bool_decide_eq_false_1 in H2.
    + now apply bool_decide_eq_false_2.
  - apply MessageStore.filter_sublist.
  - exists (omap fileAt new). split; [exact S|]. split; [exact A|].
    etransitivity; [apply O|].
    unfold new. clear. induction notesFromPills as [|pillNote pills IH]; simpl;
      [constructor|].
    destruct (negb (bool_decide (pill_path pillNote ∈ map path prev))); simpl;
      now constructor.
  - rewrite S.
    assert (E2 : omap fileAt
                   (List.filter
                      (fun pillNote =>
                         negb (bool_decide
                                 (pill_path pillNote ∈ map path (prev ++ omap fileAt new))))
                      notesFromPills) = []).
    { apply omap_none.
      intros pillNote Hp. apply filter_elem in Hp. destruct Hp as [Hp Hq].
      apply negb_true_iff, bool_decide_eq_false_1 in Hq.
      destruct (fileAt pillNote) as [file|] eqn:Hfa; [|reflexivity].
      exfalso. apply Hq. rewrite map_app, elem_of_app.
      destruct (decide (pill_path pillNote ∈ map path prev)) as [Hin|Hout];
        [now left|right].
      rewrite <- (found_at_path _ _ (proj1 (FA _ _) Hfa)).
      apply list_elem_of_In, in_map, list_elem_of_In.
      apply list_elem_of_omap. exists pillNote.
      split; [|exact Hfa]. unfold new. apply filter_elem. split; [exact Hp|].
      now apply negb_true_iff, bool_decide_eq_false_2. }
    change (syncNotes getAbstractFileByPath notesFromPills (prev ++ omap fileAt new))
      with ((prev ++ omap fileAt new)
            ++ omap fileAt
                 (List.filter
                    (fun pillNote =>
                       negb (bool_decide
                               (pill_path pillNote ∈ map path (prev ++ omap fileAt new))))
                    notesFromPills)).
    rewrite E2. apply app_nil_r.
  - rewrite S. unfold handleNotePillsRemoved. rewrite List.filter_app.
    replace (List.filter _ (omap fileAt new)) with (@nil TFile);
      [now rewrite app_nil_r|].
    symmetry. apply filter_nil_iff. intros file Hf.
    apply negb_false_iff, bool_decide_eq_true_2.
    apply A in Hf. destruct Hf as [_ [pillNote [Hp Hg]]].
    rewrite (found_at_path _ _ Hg).
    now apply list_elem_of_In, in_map, list_elem_of_In.
Qed.

End Notes.

Definition smallVault (p : string) : option AbstractFile :=
  if bool_decide (p = "notes/a.md") then Some (IsFile ActiveFileTracker.noteA)
  else if bool_decide (p = "inbox") then Some (IsFolder "inbox")
  else None.

Lemma smallVault_found p file :
  smallVault p = Some (IsFile file) -> path file = p.
Proof.
  unfold smallVault. repeat case_bool_decide; intros E; inversion E; subst.
  reflexivity.
Qed.

Lemma note_pills_add_and_remove_witness :
  ActiveFileTracker.noteA ∈
    syncNotes smallVault
      [{| pill_path := "notes/a.md"; pill_basename := "a" |};
       {| pill_path := "inbox"; pill_basename := "inbox" |};
       {| pill_path := "gone.md"; pill_basename := "gone" |}] []
  /\ handleNotePillsRemoved
       [{| pill_path := "notes/a.md"; pill_basename := "a" |};
        {| pill_path := "inbox"; pill_basename := "inbox" |};
        {| pill_path := "gone.md"; pill_basename := "gone" |}]
       [ActiveFileTracker.noteA] = [].
Proof.
  destruct (note_pills_add_and_remove smallVault smallVault_found
              [{| pill_path := "notes/a.md"; pill_basename := "a" |};
               {| pill_path := "inbox"; pill_basename := "inbox" |};
               {| pill_path := "gone.md"; pill_basename := "gone" |}] [])
    as [_ [_ [[added [E [A _]]] [_ H]]]].
  split; [|exact H].
  rewrite E. apply elem_of_app. right. apply A. split.
  - simpl. apply not_elem_of_nil.
  - exists {| pill_path := "notes/a.md"; pill_basename := "a" |}.
    split; [apply list_elem_of_here | reflexivity].
Defined.

(** *** Tools *)

Lemma removeTool_fold removedTools t :
  fold_left removeTool removedTools t
  = {| vault := vault t && negb (bool_decide ("@vault" ∈ removedTools));
       web := web t && negb (bool_decide ("@websearch" ∈ removedTools))
              && negb (bool_decide ("@web" ∈ removedTools));
       composer := composer t && negb (bool_decide ("@composer" ∈ removedTools)) |}.
Proof.
  revert t. induction removedTools as [|tool rest IH]; intros [v w c]; simpl.
  - now rewrite !andb_true_r.
  - rewrite IH. unfold removeTool.
    assert (N : forall a : string, a <> tool ->
              bool_decide (a ∈ tool :: rest) = bool_decide (a ∈ rest)).
    { intros a Ha. apply bool_decide_ext. rewrite elem_of_cons. tauto. }
    assert (Y : forall l : list string, bool_decide (tool ∈ tool :: l) = true).
    { intros l. apply bool_decide_eq_true_2. left. }
    destruct (decide (tool = "@vault")) as [->|H1].
    { simpl. rewrite ?Y, ?N by discriminate. simpl.
      now rewrite ?andb_false_r. }
    rewrite (bool_decide_eq_false_2 _ H1).
    destruct (decide (tool = "@websearch")) as [->|H2].
    { simpl. rewrite ?Y, ?N by discriminate. simpl.
      now rewrite ?andb_false_r. }
    rewrite (bool_decide_eq_false_2 _ H2).
    destruct (decide (tool = "@web")) as [->|H3].
    { simpl. rewrite ?Y, ?N by discriminate. simpl.
      now rewrite ?andb_false_r. }
    rewrite (bool_decide_eq_false_2 _ H3).
    destruct (decide (tool = "@composer")) as [->|H4].
    { simpl. rewrite ?Y, ?N by discriminate. simpl.
      now rewrite ?andb_false_r. }
    rewrite (bool_decide_eq_false_2 _ H4). simpl.
    now rewrite ?N by congruence.
Qed.

(** X12. Tool pills and the tool toggles.  In a Plus chain with the
    autonomous agent off, removing pills only switches toggles off: a
    toggle stays on exactly when it was on and none of its pills is among
    the removed ones ("@websearch" and "@web" both stand for the web
    toggle); and the sync effect sets each toggle, whatever it was, to
    whether one of its pills is present.  With the autonomous agent on or
    outside Plus chains both leave the toggles alone. *)
Theorem tool_pills_drive_toggles (isCopilotPlus autonomousAgentToggle : bool)
    (tools : list string) (t : Toggles) :
  handleToolPillsRemoved true false tools t
  = {| vault := vault t && negb (bool_decide ("@vault" ∈ tools));
       web := web t && negb (bool_decide ("@websearch" ∈ tools))
              && negb (bool_decide ("@web" ∈ tools));
       composer := composer t && negb (bool_decide ("@composer" ∈ tools)) |}
  /\ (isCopilotPlus = false \/ autonomousAgentToggle = true ->
      handleToolPillsRemoved isCopilotPlus autonomousAgentToggle tools t = t
      /\ syncTools isCopilotPlus autonomousAgentToggle tools t = t)
  /\ (let t' := handleToolPillsRemoved isCopilotPlus autonomousAgentToggle tools t in
      (vault t' = true -> vault t = true)
      /\ (web t' = true -> web t = true)
      /\ (composer t' = true -> composer t = true))
  /\ (let synced := syncTools true false tools t in
      (vault synced = true <-> "@vault" ∈ tools)
      /\ (web synced = true <-> "@websearch" ∈ tools \/ "@web" ∈ tools)
      /\ (composer synced = true <-> "@composer" ∈ tools))
  /\ syncTools true false tools (syncTools true false tools t)
     = syncTools true false tools t
  /\ handleToolPillsRemoved true false tools (syncTools true false tools t)
     = {| vault := false; web := false; composer := false |}.
Proof.
  split; [apply removeTool_fold|]. split.
  { intros [-> | ->]; unfold handleToolPillsRemoved, syncTools; simpl;
      rewrite ?orb_true_r; tauto. }
  split.
  { unfold handleToolPillsRemoved.
    destruct (negb isCopilotPlus || autonomousAgentToggle); [tauto|].
    rewrite removeTool_fold. simpl.
    repeat split; intros H; repeat (apply andb_true_iff in H; destruct H as [H ?]);
      assumption. }
  split.
  { simpl. rewrite orb_true_iff, !bool_decide_eq_true. tauto. }
  split; [reflexivity|].
  unfold handleToolPillsRemoved. simpl. rewrite removeTool_fold. simpl.
  f_equal.
  - now destruct (bool_decide ("@vault" ∈ tools)).
  - destruct (bool_decide ("@websearch" ∈ tools)),
      (bool_decide ("@web" ∈ tools)); reflexivity.
  - now destruct (bool_decide ("@composer" ∈ tools)).
Qed.

(** X13. Sending outside edit mode: without Copilot Plus the message is
    sent with no metadata at all; with it, the context notes, URLs and
    folders are passed on as they are, and the tool calls added from the
    toggles are a selection, in order, of "@vault", "@websearch" and
    "@composer" in which no tool occurs that the message text already
    mentions (in any letter case), and none at all when the autonomous
    agent is on.  Edit mode without an [onEditSave] handler sends
    normally. *)
Theorem onSendMessage_tool_calls {R : Type} (handleSendMessage : option SendMetadata -> R)
    (st : ChatInputState) :
  (forall onEditSave,
     ChatInput_onSendMessage false onEditSave handleSendMessage false st
     = handleSendMessage None)
  /\ (forall isCopilotPlus,
        ChatInput_onSendMessage true None handleSendMessage isCopilotPlus st
        = ChatInput_onSendMessage false None handleSendMessage isCopilotPlus st)
  /\ exists tools,
       (forall onEditSave,
          ChatInput_onSendMessage false onEditSave handleSendMessage true st
          = handleSendMessage
              (Some {| toolCalls := tools; meta_urls := contextUrls st;
                       meta_contextNotes := contextNotes st;
                       meta_contextFolders := contextFolders st |}))
       /\ sublist tools ["@vault"; "@websearch"; "@composer"]
       /\ (autonomousAgentToggle st = true -> tools = [])
       /\ (forall tool, tool ∈ tools ->
             includes tool (toLowerCase (inputMessage st)) = false)
       /\ ("@vault" ∈ tools <->
           autonomousAgentToggle st = false /\ vaultToggle st = true
           /\ includes "@vault" (toLowerCase (inputMessage st)) = false).
Proof.
  split; [intros [f|]; reflexivity|]. split; [reflexivity|].
  eexists. split; [intros [f|]; reflexivity|].
  destruct (autonomousAgentToggle st); simpl.
  { split; [apply sublist_nil_l|]. split; [reflexivity|].
    split; [intros tool H; now apply elem_of_nil in H|].
    split; [intros H; now apply elem_of_nil in H | intros [H _]; discriminate]. }
  destruct (vaultToggle st), (webToggle st), (composerToggle st);
    destruct (includes "@vault" (toLowerCase (inputMessage st))) eqn:E1;
    destruct (includes "@websearch" (toLowerCase (inputMessage st))) eqn:E2;
    destruct (includes "@web" (toLowerCase (inputMessage st))) eqn:E3;
    destruct (includes "@composer" (toLowerCase (inputMessage st))) eqn:E4;
    simpl;
    (split; [repeat first [apply sublist_nil_l | apply sublist_skip
                          | apply sublist_cons]|]);
    (split; [discriminate|]);
    (split; [intros tool H;
             repeat (apply elem_of_cons in H; destruct H as [->|H]; [assumption|]);
             now apply elem_of_nil in H|]);
    (split; [intros H; try (repeat split; reflexivity);
             exfalso;
             repeat (apply elem_of_cons in H; destruct H as [H|H];
                     [discriminate|]);
             now apply elem_of_nil in H
            | intros [_ [Hv Hi]]; try discriminate; left]).
Qed.

End ChatInputContext.


(** ** externalServicesClient.ts: web search and YouTube transcripts *)
Module WebServices.
Import Js ExternalServices.
Local Open Scope js_scope.

(** A [fetch] response read with [.json()]. *)
Record JsonResponse := {
  j_ok : bool;
  j_status : Z;
  json : IO JsValue
}.

(** What [new URL(url)] gives: [searchParams.get("v")] and [pathname]. *)
Record ParsedUrl := {
  searchParam_v : option string;
  pathname : string
}.

(** The browser functions these two services call.  [encodeURIComponent]
    throws a URIError on a string that holds a lone surrogate, which is
    what [malformedURI] tells, and has the value [encodeURIComponent]
    otherwise; [stringOf] is the conversion to a string that a template
    literal applies to a value, which throws a TypeError for an object
    whose [toString] and [valueOf] give no primitive.  (The identifiers
    that [youtube4llm] encodes come out of [URL], whose strings are well
    formed, so that no URIError arises there.) *)
Record WebHost := {
  fetchJson : string -> IO JsonResponse;
  encodeURIComponent : string -> string;
  malformedURI : string -> bool;
  stringOf : JsValue -> IO string;
  URL_parse : string -> IO ParsedUrl
}.

(** An entry of the result list: [{ title, text, url }]. *)
Record SearchResult := {
  title : JsValue;
  text : JsValue;
  url : JsValue
}.

Record WebSearchResponse := {
  content : string;                       (* response.choices[0].message.content *)
  citations : list JsValue
}.

Record Youtube4llmResponse := { transcript : JsValue }.

(** [a || b]. *)
Definition orElse (a b : JsValue) : JsValue := if truthy a then a else b.

(** What a topic without sub-topics contributes. *)
Definition topicEntry (topic : JsValue) : list SearchResult :=
  if truthy (getProp topic "Text")
  then [{| title := orElse (getProp topic "FirstURL") (getProp topic "Text");
           text := getProp topic "Text";
           url := getProp topic "FirstURL" |}]
  else [].

(** [flattenDuckDuckGoTopics] on one topic.  Reading a property of [null]
    or [undefined] throws; the local [subtopics] is the lookup of
    [topic.Topics] when it is an array. *)
Fixpoint flattenTopic (topic : JsValue) : IO (list SearchResult) :=
  match topic with
  | JsUndefined | JsNull => Rejected "TypeError: Cannot read properties of null"
  | JsObject fields =>
      let fix subtopics (fs : list (string * JsValue)) : option (IO (list SearchResult)) :=
        match fs with
        | [] => None
        | (k, v) :: rest =>
            if bool_decide (k = "Topics") then
              match v with
              | JsArray items =>
                  Some ((fix each (l : list JsValue) : IO (list SearchResult) :=
                           match l with
                           | [] => Resolved []
                           | t :: r =>
                               io_bind (flattenTopic t) (fun a =>
                               io_bind (each r) (fun b => Resolved (a ++ b)%list))
                           end) items)
              | _ => None
              end
            else subtopics rest
        end in
      match subtopics fields with
      | Some nested => nested
      | None => Resolved (topicEntry topic)
      end
  | _ => Resolved []
  end.

(** [flattenDuckDuckGoTopics(topics)]. *)
Fixpoint flattenDuckDuckGoTopics (topics : list JsValue) : IO (list SearchResult) :=
  match topics with
  | [] => Resolved []
  | t :: r =>
      io_bind (flattenTopic t) (fun a =>
      io_bind (flattenDuckDuckGoTopics r) (fun b => Resolved (a ++ b)%list))
  end.

Lemma flattenTopic_object fields :
  flattenTopic (JsObject fields) =
  match assoc "Topics" fields with
  | JsArray items => flattenDuckDuckGoTopics items
  | _ => Resolved (topicEntry (JsObject fields))
  end.
Proof.
  simpl.
  match goal with
  | |- match ?f fields with _ => _ end = _ => set (subtopics := f)
  end.
  assert (S : subtopics fields =
              match assoc "Topics" fields with
              | JsArray items => Some (flattenDuckDuckGoTopics items)
              | _ => None
              end).
  { induction fields as [|[k v] rest IH]; simpl; [reflexivity|].
    destruct (bool_decide (k = "Topics")); [|exact IH].
    destruct v; reflexivity. }
  rewrite S. now destruct (assoc "Topics" fields).
Qed.

(** *** Web search *)

Section Web.
Variable host : WebHost.

(** The entry made from the abstract of the answer, if it has one. *)
Definition abstractEntry (data : JsValue) : list SearchResult :=
  if truthy (getProp data "AbstractText")
  then [{| title := orElse (getProp data "Heading") (JsString "Summary");
           text := getProp data "AbstractText";
           url := getProp data "AbstractURL" |}]
  else [].

(** [data.RelatedTopics || []], on which [forEach] is then called. *)
Definition relatedTopics (data : JsValue) : IO (list JsValue) :=
  match orElse (getProp data "RelatedTopics") (JsArray []) with
  | JsArray topics => Resolved topics
  | _ => Rejected "TypeError: topics.forEach is not a function"
  end.

(** The [results] of [webSearch] for the parsed answer. *)
Definition searchResults (data : JsValue) : IO (list SearchResult) :=
  match data with
  | JsUndefined | JsNull => Rejected "TypeError: Cannot read properties of null"
  | _ =>
      topics <~ relatedTopics data ;;
      flattenedTopics <~ flattenDuckDuckGoTopics topics ;;
      Resolved (take 5 (abstractEntry data ++ flattenedTopics)%list)
  end.

(** One numbered entry of the message.  The link is put together first,
    then the template converts the title and the description; the
    replacement of a missing title is a string already. *)
Definition formatResult (index : nat) (item : SearchResult) : IO string :=
  let number := decimal (Z.of_nat index + 1) in
  link <~ (if truthy (url item)
           then (source <~ stringOf host (url item) ;;
                 Resolved (newline +:+ "Source: " +:+ source))
           else Resolved "") ;;
  title <~ (if truthy (title item)
            then stringOf host (title item)
            else Resolved ("Result " +:+ number)) ;;
  description <~ (if truthy (text item)
                  then stringOf host (text item)
                  else Resolved "") ;;
  Resolved (number +:+ ". " +:+ title +:+ newline +:+ description +:+ link).

(** [results.map((item, index) => ...)] from [index] on. *)
Fixpoint formatResults (index : nat) (results : list SearchResult) : IO (list string) :=
  match results with
  | [] => Resolved []
  | item :: rest =>
      entry <~ formatResult index item ;;
      entries <~ formatResults (S index) rest ;;
      Resolved (entry :: entries)
  end.

Definition searchMessage (results : list SearchResult) : IO string :=
  match results with
  | [] => Resolved "No results found."
  | _ =>
      entries <~ formatResults 0 results ;;
      Resolved (join (newline +:+ newline) entries)
  end.

Definition failedSearch : WebSearchResponse :=
  {| content := "Web search failed to return results."; citations := [] |}.

(** [webSearch(query)]; [elapsed_time_ms] is left out as for the other
    services.  The address is computed before the [try] block, so that a
    query that cannot be encoded makes the call reject. *)
Definition webSearch (query : string) : IO WebSearchResponse :=
  if malformedURI host query then Rejected "URIError: URI malformed"
  else
    let apiUrl := "https://api.duckduckgo.com/?q=" +:+ encodeURIComponent host query
                  +:+ "&format=json&no_redirect=1&no_html=0" in
    io_catch
      (response <~ fetchJson host apiUrl ;;
       if negb (j_ok response)
       then Rejected ("DuckDuckGo request failed with status "
                      +:+ decimal (j_status response))
       else
         data <~ json response ;;
         results <~ searchResults data ;;
         message <~ searchMessage results ;;
         Resolved {| content := message;
                     citations := List.filter truthy (map url results) |})
      (fun _ => Resolved failedSearch).

(** *** YouTube transcripts *)

(** [[\w-]]. *)
Definition isIdChar (a : Ascii.ascii) : bool :=
  let n := Ascii.nat_of_ascii a in
  ((48 <=? n)%nat && (n <=? 57)%nat)
  || ((65 <=? n)%nat && (n <=? 90)%nat)
  || ((97 <=? n)%nat && (n <=? 122)%nat)
  || (n =? 95)%nat || (n =? 45)%nat.

(** [([\w-]{n})] at the start of [s]: the captured characters. *)
Fixpoint takeId (n : nat) (s : string) : option string :=
  match n with
  | O => Some EmptyString
  | S n' =>
      match s with
      | EmptyString => None
      | String a rest =>
          if isIdChar a
          then match takeId n' rest with
               | Some id => Some (String a id)
               | None => None
               end
          else None
      end
  end.

(** [s] without its prefix [p]. *)
Fixpoint stripPrefix (p s : string) : option string :=
  match p with
  | EmptyString => Some s
  | String a p' =>
      match s with
      | EmptyString => None
      | String b s' => if bool_decide (a = b) then stripPrefix p' s' else None
      end
  end.

(** [(?:embed\/|shorts\/|watch\/)]: what follows the alternative that
    matches. *)
Definition afterGroup (rest : string) : option string :=
  match stripPrefix "embed/" rest with
  | Some r => Some r
  | None =>
      match stripPrefix "shorts/" rest with
      | Some r => Some r
      | None => stripPrefix "watch/" rest
      end
  end.

(** The pattern behind its leading slash: the optional group is tried
    first, and skipped when no identifier follows it. *)
Definition idAfterSlash (rest : string) : option string :=
  match afterGroup rest ≫= takeId 11 with
  | Some id => Some id
  | None => takeId 11 rest
  end.

(** [pathname.match(/\/(?:embed\/|shorts\/|watch\/)?([\w-]{11})/)]: group 1
    of the leftmost match. *)
Fixpoint matchId (pathname : string) : option string :=
  match pathname with
  | EmptyString => None
  | String a rest =>
      if bool_decide (a = "/"%char)
      then match idAfterSlash rest with
           | Some id => Some id
           | None => matchId rest
           end
      else matchId rest
  end.

Definition extractYouTubeId (url : string) : option string :=
  match URL_parse host url with
  | Rejected _ => None
  | Resolved parsed =>
      if truthyString (searchParam_v parsed)
      then searchParam_v parsed
      else matchId (pathname parsed)
  end.

(** [Array.prototype.join] on values. *)
Definition joinValues (sep : string) (items : list JsValue) : string :=
  join sep (map (fun item => match item with
                             | JsUndefined | JsNull => ""
                             | _ => ToString item
                             end) items).

(** [data.map((entry) => entry.text)]. *)
Fixpoint entryTexts (data : list JsValue) : IO (list JsValue) :=
  match data with
  | [] => Resolved []
  | entry :: rest =>
      match entry with
      | JsUndefined | JsNull => Rejected "TypeError: Cannot read properties of null"
      | _ =>
          texts <~ entryTexts rest ;;
          Resolved (getProp entry "text" :: texts)
      end
  end.

Definition transcriptOf (data : JsValue) : IO JsValue :=
  match data with
  | JsArray entries =>
      texts <~ entryTexts entries ;;
      Resolved (JsString (joinValues " " texts))
  | JsUndefined | JsNull => Rejected "TypeError: Cannot read properties of null"
  | _ => Resolved (orElse (getProp data "text") (JsString ""))
  end.

Definition transcriptEndpoint (videoId : string) : string :=
  "https://youtubetranscript.com/?format=json&lang=en&video_id="
  +:+ encodeURIComponent host videoId.

Definition youtube4llm (url : string) : IO Youtube4llmResponse :=
  io_catch
    (let videoId := extractYouTubeId url in
     if negb (truthyString videoId)
     then Rejected "Could not parse YouTube video ID"
     else
       response <~ fetchJson host (transcriptEndpoint (default "" videoId)) ;;
       if negb (j_ok response)
       then Rejected ("Transcript request failed with status "
                      +:+ decimal (j_status response))
       else
         data <~ json response ;;
         transcript <~ transcriptOf data ;;
         Resolved {| transcript := transcript |})
    (fun _ => Resolved {| transcript := JsString "" |}).

End Web.

(** *** Flattening the related topics *)

(** Induction on a value through its items and fields. *)
Fixpoint JsValue_nested_ind (P : JsValue -> Prop)
    (Hundefined : P JsUndefined) (Hnull : P JsNull)
    (Hbool : forall b, P (JsBool b)) (Hnumber : forall n, P (JsNumber n))
    (Hstring : forall s, P (JsString s))
    (Harray : forall items, Forall P items -> P (JsArray items))
    (Hobject : forall fields, Forall (fun kv => P (snd kv)) fields -> P (JsObject fields))
    (v : JsValue) {struct v} : P v :=
  let rec := JsValue_nested_ind P Hundefined Hnull Hbool Hnumber Hstring Harray Hobject in
  match v with
  | JsUndefined => Hundefined
  | JsNull => Hnull
  | JsBool b => Hbool b
  | JsNumber n => Hnumber n
  | JsString s => Hstring s
  | JsArray items =>
      Harray items
        ((fix all (l : list JsValue) : Forall P l :=
            match l with
            | [] => @List.Forall_nil _ P
            | x :: r => @List.Forall_cons _ P x r (rec x) (all r)
            end) items)
  | JsObject fields =>
      Hobject fields
        ((fix all (l : list (string * JsValue)) : Forall (fun kv => P (snd kv)) l :=
            match l with
            | [] => @List.Forall_nil _ (fun kv => P (snd kv))
            | kv :: r =>
                @List.Forall_cons _ (fun kv => P (snd kv)) kv r
                  (match kv return P (snd kv) with (_, x) => rec x end) (all r)
            end) fields)
  end.

(** An entry as the flattening makes them: it has a text, and its title is
    the link when there is one and the text otherwise. *)
Definition fromTopic (r : SearchResult) : Prop :=
  truthy (text r) = true
  /\ truthy (title r) = true
  /\ title r = orElse (url r) (text r).

(** A topic that is an object without a [Topics] array. *)
Definition isLeaf (topic : JsValue) : Prop :=
  exists fields, topic = JsObject fields
                 /\ forall items, assoc "Topics" fields <> JsArray items.

Lemma topicEntry_fromTopic topic : Forall fromTopic (topicEntry topic).
Proof.
  unfold topicEntry. destruct (truthy (getProp topic "Text")) eqn:T; [|constructor].
  constructor; [|constructor]. unfold fromTopic, orElse. simpl.
  split; [exact T|]. destruct (truthy (getProp topic "FirstURL")) eqn:U; auto.
Qed.

Lemma assoc_Forall (P : JsValue -> Prop) name fields :
  Forall (fun kv => P (snd kv)) fields -> P JsUndefined -> P (assoc name fields).
Proof.
  intros H U. induction H as [|[k v] rest Hv _ IH]; simpl; [exact U|].
  destruct (bool_decide (k = name)); [exact Hv | exact IH].
Qed.

Lemma flatten_Forall (Q : JsValue -> Prop) topics :
  (forall t rs, Q t -> flattenTopic t = Resolved rs -> Forall fromTopic rs) ->
  Forall Q topics ->
  forall rs, flattenDuckDuckGoTopics topics = Resolved rs -> Forall fromTopic rs.
Proof.
  intros HQ H. induction H as [|t r Ht _ IH]; simpl; intros rs E.
  - inversion E. constructor.
  - destruct (flattenTopic t) as [a|] eqn:Ea; simpl in E; [|discriminate].
    destruct (flattenDuckDuckGoTopics r) as [b|] eqn:Eb; simpl in E; [|discriminate].
    inversion E; subst. apply Forall_app. split; [eapply HQ; eauto | now apply IH].
Qed.

(** What the induction carries: the entries of the topic are well formed,
    and so are those of the items of an array. *)
Definition entriesFromTopic (t : JsValue) : Prop :=
  forall rs, flattenTopic t = Resolved rs -> Forall fromTopic rs.

Definition entriesFromValue (v : JsValue) : Prop :=
  entriesFromTopic v
  /\ match v with
     | JsArray items => Forall entriesFromTopic items
     | _ => True
     end.

Lemma flattenTopic_entriesFromValue topic : entriesFromValue topic.
Proof.
  induction topic as [| | b | n | s | items IH | fields IH] using JsValue_nested_ind;
    unfold entriesFromValue, entriesFromTopic; simpl.
  - split; [intros rs E; discriminate E | exact I].
  - split; [intros rs E; discriminate E | exact I].
  - split; [intros rs E; inversion E; constructor | exact I].
  - split; [intros rs E; inversion E; constructor | exact I].
  - split; [intros rs E; inversion E; constructor | exact I].
  - split; [intros rs E; inversion E; constructor|].
    eapply Forall_impl; [exact IH|]. intros t [Ht _]. exact Ht.
  - split; [|exact I]. intros rs.
    change (flattenTopic (JsObject fields) = Resolved rs -> Forall fromTopic rs).
    rewrite flattenTopic_object.
    assert (A : entriesFromValue (assoc "Topics" fields)).
    { apply assoc_Forall; [exact IH|]. split; [intros ? E; discriminate E | exact I]. }
    destruct (assoc "Topics" fields) as [| | | | |items|];
      try (intros E; inversion E; apply topicEntry_fromTopic).
    destruct A as [_ A]. intros E.
    eapply (flatten_Forall entriesFromTopic); [intros t rs1 Ht; apply Ht | exact A | exact E].
Qed.

Lemma flattenTopic_fromTopic topic rs :
  flattenTopic topic = Resolved rs -> Forall fromTopic rs.
Proof. apply flattenTopic_entriesFromValue. Qed.

Lemma flatten_app topics more :
  flattenDuckDuckGoTopics (topics ++ more)%list =
  io_bind (flattenDuckDuckGoTopics topics) (fun a =>
  io_bind (flattenDuckDuckGoTopics more) (fun b => Resolved (a ++ b)%list)).
Proof.
  induction topics as [|t r IH]; simpl.
  - now destruct (flattenDuckDuckGoTopics more).
  - rewrite IH. destruct (flattenTopic t) as [a|]; simpl; [|reflexivity].
    destruct (flattenDuckDuckGoTopics r) as [b|]; simpl; [|reflexivity].
    destruct (flattenDuckDuckGoTopics more) as [c|]; simpl; [|reflexivity].
    now rewrite app_assoc.
Qed.

(** X14. [flattenDuckDuckGoTopics]: every entry it returns has a text and
    a title, the title being the link when there is one and the text
    otherwise; the topics are flattened one after the other in order; a
    group is replaced by its sub-topics, at any depth, whatever text the
    group itself carries; a list of plain topics gives one entry for each
    topic that has a text; and a [null] among the topics makes the whole
    flattening fail. *)
Theorem flatten_topics_entries (topics : list JsValue) :
  (forall results, flattenDuckDuckGoTopics topics = Resolved results ->
                   Forall fromTopic results)
  /\ (forall more,
        flattenDuckDuckGoTopics (topics ++ more)%list =
        io_bind (flattenDuckDuckGoTopics topics) (fun a =>
        io_bind (flattenDuckDuckGoTopics more) (fun b => Resolved (a ++ b)%list)))
  /\ (forall fields items,
        assoc "Topics" fields = JsArray items ->
        flattenDuckDuckGoTopics (JsObject fields :: topics)
        = flattenDuckDuckGoTopics (items ++ topics)%list)
  /\ (Forall isLeaf topics ->
      flattenDuckDuckGoTopics topics = Resolved (flat_map topicEntry topics))
  /\ (In JsNull topics \/ In JsUndefined topics ->
      exists msg, flattenDuckDuckGoTopics topics = Rejected msg).
Proof.
  split.
  { intros results E.
    eapply (flatten_Forall (fun _ => True));
      [ intros t rs _; apply flattenTopic_fromTopic | | exact E ].
    apply Forall_forall. auto. }
  split; [apply flatten_app|]. split.
  { intros fields items E. rewrite flatten_app.
    change (flattenDuckDuckGoTopics (JsObject fields :: topics))
      with (io_bind (flattenTopic (JsObject fields)) (fun a =>
            io_bind (flattenDuckDuckGoTopics topics) (fun b => Resolved (a ++ b)%list))).
    now rewrite flattenTopic_object, E. }
  split.
  { intros H. induction H as [|t r [fields [-> Hn]] _ IH]; [reflexivity|].
    change (flattenDuckDuckGoTopics (JsObject fields :: r))
      with (io_bind (flattenTopic (JsObject fields)) (fun a =>
            io_bind (flattenDuckDuckGoTopics r) (fun b => Resolved (a ++ b)%list))).
    rewrite flattenTopic_object, IH.
    destruct (assoc "Topics" fields) as [| | | | |items|] eqn:E; try reflexivity.
    now destruct (Hn items). }
  assert (R : forall bad, (bad = JsNull \/ bad = JsUndefined) -> In bad topics ->
                exists msg, flattenDuckDuckGoTopics topics = Rejected msg).
  { intros bad Hbad. induction topics as [|t r IH]; [intros []|].
    intros [->|Hin].
    - destruct Hbad as [-> | ->]; simpl; eauto.
    - destruct (IH Hin) as [msg E]. simpl. rewrite E.
      destruct (flattenTopic t); simpl; eauto. }
  intros [H|H]; [apply (R JsNull) | apply (R JsUndefined)]; auto.
Qed.

(** *** The answer of a web search *)

(** The address [webSearch] fetches. *)
Definition apiUrl (host : WebHost) (query : string) : string :=
  "https://api.duckduckgo.com/?q=" +:+ encodeURIComponent host query
  +:+ "&format=json&no_redirect=1&no_html=0".

Lemma formatResult_first (host : WebHost) item entry :
  formatResult host 0 item = Resolved entry -> exists rest, entry = String "1"%char rest.
Proof.
  unfold formatResult.
  change (decimal (Z.of_nat 0 + 1)) with "1".
  destruct (if truthy (url item) then _ else _) as [link|]; simpl; [|discriminate].
  destruct (if truthy (title item) then _ else _) as [title|]; simpl; [|discriminate].
  destruct (if truthy (text item) then _ else _) as [description|]; simpl;
    [|discriminate].
  intros E. inversion E. eauto.
Qed.

Lemma searchMessage_nonempty (host : WebHost) results message :
  searchMessage host results = Resolved message -> message <> "".
Proof.
  destruct results as [|item rest]; simpl.
  { intros E. inversion E. discriminate. }
  destruct (formatResult host 0 item) as [entry|] eqn:F; simpl; [|discriminate].
  destruct (formatResults host 1 rest) as [entries|]; simpl; [|discriminate].
  intros E. inversion E. destruct (formatResult_first _ _ _ F) as [tail ->].
  unfold join. simpl. destruct entries; discriminate.
Qed.

Lemma citations_bounded (results : list SearchResult) :
  (length (List.filter truthy (map url (take 5 results))) <= 5)%nat
  /\ Forall (fun c => truthy c = true) (List.filter truthy (map url (take 5 results))).
Proof.
  split.
  - etransitivity; [apply List.filter_length_le|].
    rewrite length_map, length_take. lia.
  - apply Forall_forall. intros c H. apply list_elem_of_In, filter_In in H. apply H.
Qed.

Lemma searchResults_taken data results :
  searchResults data = Resolved results -> exists all, results = take 5 all.
Proof.
  unfold searchResults. intros E.
  destruct data; try discriminate;
    destruct (relatedTopics _) as [topics|]; simpl in E; try discriminate;
    destruct (flattenDuckDuckGoTopics topics) as [fl|]; simpl in E; try discriminate;
    inversion E; eauto.
Qed.

(** X15. [webSearch] rejects exactly when the query cannot be encoded, the
    address being computed outside the [try] block.  Otherwise it resolves,
    with a non-empty message and at most five citations, none of them empty
    or missing.  A failing request, a response that is not ok, and a body
    that is not JSON all give the fixed failure message without citations,
    and so does a result whose title, text or link cannot be converted to a
    string; an answer without abstract and without related topics gives
    "No results found."; and otherwise the results are the first five of
    the abstract followed by the flattened topics, the message lists them
    and the citations are the links among them. *)
Theorem webSearch_answers (host : WebHost) (query : string) :
  (malformedURI host query = true ->
   exists msg, webSearch host query = Rejected msg)
  /\ (malformedURI host query = false ->
      (exists r, webSearch host query = Resolved r
                 /\ (length (citations r) <= 5)%nat
                 /\ Forall (fun c => truthy c = true) (citations r)
                 /\ content r <> "")
      /\ (forall msg, fetchJson host (apiUrl host query) = Rejected msg ->
            webSearch host query = Resolved failedSearch)
      /\ (forall response,
            fetchJson host (apiUrl host query) = Resolved response ->
            (j_ok response = false \/ exists msg, json response = Rejected msg) ->
            webSearch host query = Resolved failedSearch)
      /\ (forall response fields,
            fetchJson host (apiUrl host query) = Resolved response ->
            j_ok response = true ->
            json response = Resolved (JsObject fields) ->
            truthy (assoc "AbstractText" fields) = false ->
            truthy (assoc "RelatedTopics" fields) = false
            \/ assoc "RelatedTopics" fields = JsArray [] ->
            webSearch host query
            = Resolved {| content := "No results found."; citations := [] |})
      /\ (forall response fields topics flattened,
            fetchJson host (apiUrl host query) = Resolved response ->
            j_ok response = true ->
            json response = Resolved (JsObject fields) ->
            assoc "RelatedTopics" fields = JsArray topics ->
            flattenDuckDuckGoTopics topics = Resolved flattened ->
            let results := take 5 (abstractEntry (JsObject fields) ++ flattened)%list in
            (forall message,
               searchMessage host results = Resolved message ->
               webSearch host query
               = Resolved {| content := message;
                             citations := List.filter truthy (map url results) |})
            /\ ((exists msg, searchMessage host results = Rejected msg) ->
                webSearch host query = Resolved failedSearch))).
Proof.
  unfold webSearch. fold (apiUrl host query).
  split; [intros ->; eauto|]. intros ->.
  assert (Failed : exists r, Resolved failedSearch = Resolved r
                             /\ (length (citations r) <= 5)%nat
                             /\ Forall (fun c => truthy c = true) (citations r)
                             /\ content r <> "").
  { eexists. split; [reflexivity|]. simpl.
    split; [lia|]. split; [constructor | discriminate]. }
  split.
  { destruct (fetchJson host (apiUrl host query)) as [response|msg]; simpl;
      [|exact Failed].
    destruct (j_ok response); simpl; [|exact Failed].
    destruct (json response) as [data|msg]; simpl; [|exact Failed].
    destruct (searchResults data) as [results|msg] eqn:E; simpl; [|exact Failed].
    destruct (searchMessage host results) as [message|msg] eqn:M; simpl;
      [|exact Failed].
    eexists. split; [reflexivity|]. simpl.
    destruct (searchResults_taken _ _ E) as [all ->].
    split; [apply citations_bounded|]. split; [apply citations_bounded|].
    now apply (searchMessage_nonempty host (take 5 all)). }
  split.
  { intros msg ->. reflexivity. }
  split.
  { intros response -> [H | [msg H]].
    - simpl. now rewrite H.
    - simpl. destruct (j_ok response); simpl; [|reflexivity]. now rewrite H. }
  split.
  { intros response fields -> Hok Hjson Habs Hrel. simpl. rewrite Hok, Hjson. simpl.
    unfold relatedTopics, abstractEntry, orElse. simpl. rewrite Habs.
    destruct Hrel as [Hrel | Hrel]; rewrite Hrel; reflexivity. }
  intros response fields topics flattened -> Hok Hjson Hrel Hfl. simpl.
  rewrite Hok, Hjson. simpl.
  unfold relatedTopics, orElse. simpl. rewrite Hrel. simpl. rewrite Hfl. simpl.
  split.
  - intros message ->. reflexivity.
  - intros [msg ->]. reflexivity.
Qed.

(** *** Video identifiers *)

(** Every character is one of [[\w-]]. *)
Fixpoint allIdChars (s : string) : bool :=
  match s with
  | EmptyString => true
  | String a rest => isIdChar a && allIdChars rest
  end.

(** The prefixes the pattern allows between the slash and the identifier. *)
Definition groups : list string := [""; "embed/"; "shorts/"; "watch/"].

Lemma takeId_spec n s id :
  takeId n s = Some id ->
  String.length id = n /\ allIdChars id = true /\ exists after, s = id +:+ after.
Proof.
  revert s id. induction n as [|n IH]; simpl; intros s id H.
  - inversion H; subst. simpl. eauto.
  - destruct s as [|a rest]; [discriminate|].
    destruct (isIdChar a) eqn:Ha; [|discriminate].
    destruct (takeId n rest) as [id'|] eqn:E; [|discriminate].
    inversion H; subst. destruct (IH _ _ E) as [L [C [after ->]]].
    simpl. rewrite Ha, C, L. eauto.
Qed.

Lemma takeId_complete id after :
  allIdChars id = true -> takeId (String.length id) (id +:+ after) = Some id.
Proof.
  induction id as [|a id IH]; simpl; [reflexivity|].
  intros H. apply andb_true_iff in H. destruct H as [Ha H].
  now rewrite Ha, IH.
Qed.

#[local] Arguments takeId : simpl never.

Lemma stripPrefix_spec p s r : stripPrefix p s = Some r -> s = p +:+ r.
Proof.
  revert s. induction p as [|a p IH]; simpl; intros s H.
  - now inversion H.
  - destruct s as [|b s]; [discriminate|].
    case_bool_decide; [|discriminate]. subst. now rewrite (IH _ H).
Qed.

Lemma stripPrefix_app p r : stripPrefix p (p +:+ r) = Some r.
Proof.
  induction p as [|a p IH]; simpl; [reflexivity|].
  now rewrite bool_decide_eq_true_2.
Qed.

(** A prefix that fits inside an identifier consists of its characters. *)
Lemma stripPrefix_id p id after r :
  allIdChars id = true ->
  (String.length p <= String.length id)%nat ->
  stripPrefix p (id +:+ after) = Some r ->
  allIdChars p = true.
Proof.
  revert id. induction p as [|a p IH]; simpl; intros id C L H; [reflexivity|].
  destruct id as [|b id]; simpl in *; [lia|].
  apply andb_true_iff in C. destruct C as [Cb C].
  case_bool_decide; [|discriminate]. subst.
  rewrite Cb. simpl. apply (IH id); [exact C | lia | exact H].
Qed.

Ltac in_groups :=
  unfold groups; repeat first [apply list_elem_of_here | apply list_elem_of_further].

Lemma afterGroup_spec rest r :
  afterGroup rest = Some r ->
  exists group, group ∈ groups /\ rest = group +:+ r.
Proof.
  unfold afterGroup, groups. intros H.
  destruct (stripPrefix "embed/" rest) as [r1|] eqn:E1.
  { inversion H; subst. exists "embed/". split; [in_groups|]. now apply stripPrefix_spec. }
  destruct (stripPrefix "shorts/" rest) as [r2|] eqn:E2.
  { inversion H; subst. exists "shorts/". split; [in_groups|]. now apply stripPrefix_spec. }
  exists "watch/". split; [in_groups|]. now apply stripPrefix_spec.
Qed.

Lemma idAfterSlash_spec rest id :
  idAfterSlash rest = Some id ->
  String.length id = 11%nat /\ allIdChars id = true
  /\ exists group after, group ∈ groups /\ rest = group +:+ id +:+ after.
Proof.
  unfold idAfterSlash. intros H.
  destruct (afterGroup rest) as [r|] eqn:G; simpl in H.
  - destruct (takeId 11 r) as [id'|] eqn:T.
    + inversion H; subst. destruct (takeId_spec _ _ _ T) as [L [C [after ->]]].
      destruct (afterGroup_spec _ _ G) as [group [Hg ->]]. eauto 6.
    + destruct (takeId_spec _ _ _ H) as [L [C [after ->]]].
      split; [exact L|]. split; [exact C|].
      exists "", after. split; [unfold groups; in_groups | reflexivity].
  - destruct (takeId_spec _ _ _ H) as [L [C [after ->]]].
    split; [exact L|]. split; [exact C|].
    exists "", after. split; [unfold groups; in_groups | reflexivity].
Qed.

Lemma matchId_spec pathname id :
  matchId pathname = Some id ->
  String.length id = 11%nat /\ allIdChars id = true
  /\ exists before group after,
       group ∈ groups /\ pathname = before +:+ "/" +:+ group +:+ id +:+ after.
Proof.
  induction pathname as [|a rest IH]; simpl; [discriminate|].
  intros H.
  assert (Later : matchId rest = Some id ->
                  String.length id = 11%nat /\ allIdChars id = true
                  /\ exists before group after,
                       group ∈ groups
                       /\ String a rest = before +:+ "/" +:+ group +:+ id +:+ after).
  { intros M. destruct (IH M) as [L [C [before [group [after [Hg ->]]]]]].
    split; [exact L|]. split; [exact C|].
    exists (String a before), group, after. split; [exact Hg | reflexivity]. }
  case_bool_decide as Ha; [|now apply Later].
  destruct (idAfterSlash rest) as [id'|] eqn:E; [|now apply Later].
  inversion H; subst.
  destruct (idAfterSlash_spec _ _ E) as [L [C [group [after [Hg ->]]]]].
  split; [exact L|]. split; [exact C|].
  exists "", group, after. split; [exact Hg | reflexivity].
Qed.

Lemma matchId_complete group id after :
  group ∈ groups -> String.length id = 11%nat -> allIdChars id = true ->
  matchId ("/" +:+ group +:+ id +:+ after) = Some id.
Proof.
  intros Hg L C.
  assert (T : takeId 11 (id +:+ after) = Some id)
    by (rewrite <- L; now apply takeId_complete).
  assert (N : forall p, (String.length p <= 11)%nat -> allIdChars p = false ->
                        stripPrefix p (id +:+ after) = None).
  { intros p Lp Cp. destruct (stripPrefix p (id +:+ after)) as [r|] eqn:E; [|reflexivity].
    apply stripPrefix_id in E; [congruence | exact C | lia]. }
  change (matchId ("/" +:+ group +:+ id +:+ after))
    with (match idAfterSlash (group +:+ id +:+ after) with
          | Some id0 => Some id0
          | None => matchId (group +:+ id +:+ after)
          end).
  assert (I : idAfterSlash (group +:+ id +:+ after) = Some id);
    [|now rewrite I].
  unfold groups in Hg. unfold idAfterSlash, afterGroup.
  repeat (apply elem_of_cons in Hg; destruct Hg as [-> | Hg]).
  - change ("" +:+ id +:+ after) with (id +:+ after).
    rewrite !N by (simpl; first [lia | reflexivity]). simpl. exact T.
  - rewrite (stripPrefix_app "embed/"). simpl. now rewrite T.
  - change (stripPrefix "embed/" ("shorts/" +:+ id +:+ after)) with (@None string).
    rewrite (stripPrefix_app "shorts/"). simpl. now rewrite T.
  - change (stripPrefix "embed/" ("watch/" +:+ id +:+ after)) with (@None string).
    change (stripPrefix "shorts/" ("watch/" +:+ id +:+ after)) with (@None string).
    rewrite (stripPrefix_app "watch/"). simpl. now rewrite T.
  - now apply elem_of_nil in Hg.
Qed.

Lemma length_append (a b : string) :
  String.length (a +:+ b) = (String.length a + String.length b)%nat.
Proof. induction a as [|c a IH]; simpl; [reflexivity|]. now rewrite IH. Qed.

Lemma extractYouTubeId_nonempty host url id :
  extractYouTubeId host url = Some id -> id <> "".
Proof.
  unfold extractYouTubeId. destruct (URL_parse host url) as [parsed|]; [|discriminate].
  destruct (truthyString (searchParam_v parsed)) eqn:T.
  - intros E. rewrite E in T. simpl in T.
    now apply negb_true_iff, bool_decide_eq_false_1 in T.
  - intros M. apply matchId_spec in M. destruct M as [L _]. intros ->. discriminate L.
Qed.

(** X16. [extractYouTubeId]: a URL that does not parse has no identifier; a
    non-empty [v] parameter is the identifier as it stands, whatever the
    path; otherwise an identifier found is made of eleven letters, digits,
    underscores or hyphens that follow a slash of the path, directly or
    behind [embed/], [shorts/] or [watch/]; a path that starts with such a
    part yields exactly its identifier; and a path of fewer than twelve
    characters has none.  An identifier is never the empty string. *)
Theorem extractYouTubeId_formats (host : WebHost) (url : string) :
  (forall msg, URL_parse host url = Rejected msg -> extractYouTubeId host url = None)
  /\ (forall parsed v,
        URL_parse host url = Resolved parsed ->
        searchParam_v parsed = Some v -> v <> "" ->
        extractYouTubeId host url = Some v)
  /\ (forall parsed id,
        URL_parse host url = Resolved parsed ->
        truthyString (searchParam_v parsed) = false ->
        extractYouTubeId host url = Some id ->
        String.length id = 11%nat /\ allIdChars id = true
        /\ exists before group after,
             group ∈ groups
             /\ pathname parsed = before +:+ "/" +:+ group +:+ id +:+ after)
  /\ (forall parsed group id after,
        URL_parse host url = Resolved parsed ->
        truthyString (searchParam_v parsed) = false ->
        pathname parsed = "/" +:+ group +:+ id +:+ after ->
        group ∈ groups -> String.length id = 11%nat -> allIdChars id = true ->
        extractYouTubeId host url = Some id)
  /\ (forall parsed,
        URL_parse host url = Resolved parsed ->
        truthyString (searchParam_v parsed) = false ->
        (String.length (pathname parsed) < 12)%nat ->
        extractYouTubeId host url = None)
  /\ (forall id, extractYouTubeId host url = Some id -> id <> "").
Proof.
  unfold extractYouTubeId.
  split; [now intros msg ->|]. split.
  { intros parsed v -> Hv Hne. rewrite Hv. simpl.
    now rewrite (bool_decide_eq_false_2 _ Hne). }
  split.
  { intros parsed id -> ->. apply matchId_spec. }
  split.
  { intros parsed group id after -> -> ->. apply matchId_complete. }
  split.
  { intros parsed -> -> Hlen.
    destruct (matchId (pathname parsed)) as [id|] eqn:M; [|reflexivity].
    apply matchId_spec in M.
    destruct M as [L [_ [before [group [after [_ E]]]]]].
    rewrite E in Hlen. rewrite !length_append, L in Hlen. simpl in Hlen. lia. }
  intros id. apply extractYouTubeId_nonempty.
Qed.

(** *** Transcripts *)

Lemma entryTexts_objects (entries : list (list (string * JsValue))) :
  entryTexts (map JsObject entries) = Resolved (map (assoc "text") entries).
Proof.
  induction entries as [|e r IH]; simpl; [reflexivity|]. now rewrite IH.
Qed.

Lemma joinValues_strings sep (texts : list string) :
  joinValues sep (map JsString texts) = join sep texts.
Proof.
  unfold joinValues. rewrite map_map. simpl. now rewrite map_id.
Qed.

Lemma orElse_not_falsy a s :
  truthy (orElse a (JsString s)) = false -> orElse a (JsString s) = JsString "".
Proof.
  unfold orElse. destruct (truthy a) eqn:T; [congruence|].
  simpl. intros H. apply negb_false_iff, bool_decide_eq_true_1 in H. now subst.
Qed.

(** X17. [youtube4llm] always resolves, and its transcript is never
    [null], [undefined] or another falsy value than the empty string.  The
    transcript is empty when the URL has no video identifier, when the
    request fails or is not ok, and when the body is not JSON; a JSON array
    of entries gives their texts joined by single spaces. *)
Theorem youtube4llm_transcript (host : WebHost) (url : string) :
  (exists r, youtube4llm host url = Resolved r
             /\ (truthy (transcript r) = false -> transcript r = JsString ""))
  /\ (extractYouTubeId host url = None ->
      youtube4llm host url = Resolved {| transcript := JsString "" |})
  /\ (forall videoId,
        extractYouTubeId host url = Some videoId ->
        (exists msg, fetchJson host (transcriptEndpoint host videoId) = Rejected msg)
        \/ (exists response,
              fetchJson host (transcriptEndpoint host videoId) = Resolved response
              /\ (j_ok response = false \/ exists msg, json response = Rejected msg)) ->
        youtube4llm host url = Resolved {| transcript := JsString "" |})
  /\ (forall videoId response entries texts,
        extractYouTubeId host url = Some videoId ->
        fetchJson host (transcriptEndpoint host videoId) = Resolved response ->
        j_ok response = true ->
        json response = Resolved (JsArray (map JsObject entries)) ->
        map (assoc "text") entries = map JsString texts ->
        youtube4llm host url = Resolved {| transcript := JsString (join " " texts) |}).
Proof.
  assert (Id : forall videoId, extractYouTubeId host url = Some videoId ->
                 truthyString (Some videoId) = true).
  { intros videoId E. apply extractYouTubeId_nonempty in E. simpl.
    now rewrite (bool_decide_eq_false_2 _ E). }
  unfold youtube4llm.
  split.
  { destruct (extractYouTubeId host url) as [videoId|] eqn:E.
    2:{ simpl. eexists. split; [reflexivity|]. reflexivity. }
    rewrite (Id _ eq_refl). simpl.
    destruct (fetchJson host (transcriptEndpoint host videoId)) as [response|]; simpl.
    2:{ eexists. split; reflexivity. }
    destruct (j_ok response); simpl.
    2:{ eexists. split; reflexivity. }
    destruct (json response) as [data|]; simpl.
    2:{ eexists. split; reflexivity. }
    destruct (transcriptOf data) as [t|] eqn:T; simpl.
    2:{ eexists. split; reflexivity. }
    eexists. split; [reflexivity|]. simpl.
    unfold transcriptOf in T.
    destruct data; try discriminate;
      try (inversion T; subst; apply orElse_not_falsy).
    destruct (entryTexts items) as [texts|]; simpl in T; [|discriminate].
    inversion T; subst. simpl. intros H.
    apply negb_false_iff, bool_decide_eq_true_1 in H. now rewrite H. }
  split.
  { intros ->. reflexivity. }
  split.
  { intros videoId E H. rewrite E, (Id _ E). simpl.
    destruct H as [[msg ->] | [response [-> [H | [msg H]]]]]; simpl.
    - reflexivity.
    - now rewrite H.
    - destruct (j_ok response); simpl; [|reflexivity]. now rewrite H. }
  intros videoId response entries texts E F Hok Hjson Htexts.
  rewrite E, (Id _ E). simpl. rewrite F. simpl. rewrite Hok, Hjson. simpl.
  rewrite entryTexts_objects, Htexts. simpl.
  now rewrite joinValues_strings.
Qed.

(** *** Runs on concrete data *)

Definition linkedTopic : JsValue :=
  JsObject [("Text", JsString "Rocq prover");
            ("FirstURL", JsString "https://rocq-prover.org")].

Definition plainTopic : JsValue := JsObject [("Text", JsString "No link")].

Definition topicGroup : JsValue :=
  JsObject [("Name", JsString "Related"); ("Text", JsString "ignored");
            ("Topics", JsArray [plainTopic; JsObject [("FirstURL", JsString "x")]])].

(** A group contributes its sub-topics that have a text, nothing else. *)
Example flatten_group :
  flattenDuckDuckGoTopics [linkedTopic; topicGroup]
  = Resolved [{| title := JsString "https://rocq-prover.org";
                 text := JsString "Rocq prover";
                 url := JsString "https://rocq-prover.org" |};
              {| title := JsString "No link";
                 text := JsString "No link";
                 url := JsUndefined |}].
Proof. reflexivity. Qed.

(** A host whose DuckDuckGo answers with an abstract and the two topics
    above, and which converts values as [ToString] does. *)
Definition sampleHost : WebHost := {|
  fetchJson := fun address =>
    Resolved {| j_ok := true; j_status := 200;
                json := Resolved
                  (JsObject [("Heading", JsString "Rocq");
                             ("AbstractText", JsString "A proof assistant");
                             ("AbstractURL", JsString "");
                             ("RelatedTopics", JsArray [linkedTopic; topicGroup])]) |};
  encodeURIComponent := fun s => s;
  malformedURI := fun _ => false;
  stringOf := fun v => Resolved (ToString v);
  URL_parse := fun _ => Rejected "TypeError: Invalid URL"
|}.

Example webSearch_sample :
  webSearch sampleHost "rocq"
  = Resolved
      {| content := "1. Rocq" +:+ newline +:+ "A proof assistant"
                    +:+ newline +:+ newline
                    +:+ "2. https://rocq-prover.org" +:+ newline +:+ "Rocq prover"
                    +:+ newline +:+ "Source: https://rocq-prover.org"
                    +:+ newline +:+ newline
                    +:+ "3. No link" +:+ newline +:+ "No link";
         citations := [JsString "https://rocq-prover.org"] |}.
Proof. vm_compute. reflexivity. Qed.

(** The pattern takes the first eleven identifier characters behind the
    leftmost slash that has them. *)
Example matchId_paths :
  matchId "/watch/dQw4w9WgXcQ" = Some "dQw4w9WgXcQ"
  /\ matchId "/dQw4w9WgXcQ" = Some "dQw4w9WgXcQ"
  /\ matchId "/channel/UCabcdefghijklmnop" = Some "UCabcdefghi"
  /\ matchId "/embed/short" = None.
Proof. repeat split; vm_compute; reflexivity. Qed.

End WebServices.


(** ** externalServicesClient.ts: the text handed to the language model *)

(** The text functions of the client once more, over UTF-16 code units, so
    that white space is all of JavaScript's white space and not only that
    of the ASCII range. *)
Module CompactText.
Import Js.
Local Open Scope js_scope.
Local Open Scope list_scope.

(** A JavaScript string: the sequence of its UTF-16 code units. *)
Definition Text := list N.

Definition space : N := 32.
Definition lineFeed : N := 10.

(** The code units that [\s] matches and [trim] strips: the white space
    and the line terminators of ECMAScript (tab, line feed, vertical tab,
    form feed, carriage return, space, U+00A0, U+1680, U+2000 to U+200A,
    U+2028, U+2029, U+202F, U+205F, U+3000, U+FEFF). *)
Definition isWhiteSpace (c : N) : bool :=
  ((9 <=? c) && (c <=? 13) || (c =? 32) || (c =? 160) || (c =? 5760)
   || (8192 <=? c) && (c <=? 8202) || (c =? 8232) || (c =? 8233)
   || (c =? 8239) || (c =? 8287) || (c =? 12288) || (c =? 65279))%N.

Fixpoint trimStart (s : Text) : Text :=
  match s with
  | [] => []
  | c :: rest => if isWhiteSpace c then trimStart rest else s
  end.

(** [String.prototype.trim]. *)
Definition trim (s : Text) : Text := rev (trimStart (rev (trimStart s))).

(** [s.replace(/\s+/g, " ")]: every run of white space becomes one space;
    [inRun] tells that the previous code unit was white space. *)
Fixpoint collapseFrom (inRun : bool) (s : Text) : Text :=
  match s with
  | [] => []
  | c :: rest =>
      if isWhiteSpace c
      then (if inRun then collapseFrom true rest else space :: collapseFrom true rest)
      else c :: collapseFrom false rest
  end.

Definition collapseWhitespace (s : Text) : Text := collapseFrom false s.

(** [parts.join(sep)]. *)
Fixpoint join (sep : Text) (parts : list Text) : Text :=
  match parts with
  | [] => []
  | [part] => part
  | part :: rest => part ++ sep ++ join sep rest
  end.

(** The responses; [elapsed_time_ms] is left out. *)
Record TextResponse := { text_response : Text }.

(** The result of [fetch]. *)
Record HttpResponse := {
  ok : bool;
  status : Z;
  contentType : option string;            (* headers.get("content-type") *)
  arrayBuffer : IO ArrayBuffer;
  text : IO Text
}.

(** The libraries and browser objects the client calls. *)
Record Host := {
  fetch : string -> IO HttpResponse;
  (** pdfjs: loading a document gives its pages; reading the text items of
      a page may fail; an item has a [str] or not. *)
  pdfjs_getDocument : ArrayBuffer -> IO (list (IO (list (option Text))));
  (** [import("mammoth")] and its [convertToHtml], when it has one. *)
  mammoth_import : IO (option (ArrayBuffer -> IO Text));
  (** [new DOMParser().parseFromString(html, "text/html").body?.textContent] *)
  DOMParser_bodyText : Text -> IO (option Text);
  (** [new TextDecoder("utf-8").decode(binary)] *)
  TextDecoder_decode : ArrayBuffer -> IO Text
}.

(** [("str" in item ? item.str : "")]. *)
Definition itemText (item : option Text) : Text := default [] item.

Section Client.
Variable host : Host.

Fixpoint readPages (pages : list (IO (list (option Text)))) (combinedText : Text)
  : IO Text :=
  match pages with
  | [] => Resolved combinedText
  | page :: rest =>
      items <~ page ;;
      let pageText := join [space] (map itemText items) in
      readPages rest (combinedText ++ pageText ++ [lineFeed; lineFeed])
  end.

Definition pdf4llm (binaryContent : ArrayBuffer) : IO TextResponse :=
  io_catch
    (pages <~ pdfjs_getDocument host binaryContent ;;
     combinedText <~ readPages pages [] ;;
     Resolved {| text_response := trim combinedText |})
    (fun _ => Resolved {| text_response := [] |}).

Definition decodeToText (binaryContent : ArrayBuffer) : Text :=
  match TextDecoder_decode host binaryContent with
  | Resolved s => s
  | Rejected _ => []
  end.

Definition htmlToText (html : Text) : IO Text :=
  body <~ DOMParser_bodyText host html ;;
  let textContent := default [] body in
  Resolved (trim (collapseWhitespace textContent)).

Definition docs4llm (binaryContent : ArrayBuffer) (fileType : string)
  : IO TextResponse :=
  let normalizedExtension := toLowerCase fileType in
  io_catch
    (if bool_decide (normalizedExtension = "pdf") then
       pdf4llm binaryContent
     else if bool_decide (normalizedExtension = "docx") then
       mammothModule <~ mammoth_import host ;;
       match mammothModule with
       | None => Rejected "mammoth.convertToHtml is not available"
       | Some convertToHtml =>
           value <~ convertToHtml binaryContent ;;
           t <~ htmlToText value ;;
           Resolved {| text_response := t |}
       end
     else if bool_decide (normalizedExtension = "html")
             || bool_decide (normalizedExtension = "htm") then
       let decoded := decodeToText binaryContent in
       t <~ htmlToText decoded ;;
       Resolved {| text_response := t |}
     else
       Resolved {| text_response := decodeToText binaryContent |})
    (fun _ => Resolved {| text_response := [] |}).

Definition url4llm (url : string) : IO TextResponse :=
  io_catch
    (response <~ fetch host url ;;
     if negb (ok response)
     then Rejected ("URL fetch failed with status " +:+ decimal (status response))
     else
       let contentType := default ""%string (contentType response) in
       content <~ (if includes "application/pdf" contentType then
                     binary <~ arrayBuffer response ;;
                     parsed <~ pdf4llm binary ;;
                     Resolved (text_response parsed)
                   else if includes "text/html" contentType then
                     html <~ text response ;;
                     htmlToText html
                   else text response) ;;
       Resolved {| text_response := content |})
    (fun _ => Resolved {| text_response := [] |}).

End Client.

(** *** What compact means *)

(** The code units of [s] that are not white space, in order. *)
Definition nonWhite (s : Text) : Text :=
  List.filter (fun c => negb (isWhiteSpace c)) s.

(** [s] neither starts nor ends with white space. *)
Definition trimmed (s : Text) : Prop :=
  (forall c rest, s = c :: rest -> isWhiteSpace c = false)
  /\ (forall init c, s = init ++ [c] -> isWhiteSpace c = false).

(** Every white space code unit of [s] is a space, and no white space
    follows it. *)
Definition singleSpaced (s : Text) : Prop :=
  forall before c after,
    s = before ++ c :: after -> isWhiteSpace c = true ->
    c = space /\ forall d rest, after = d :: rest -> isWhiteSpace d = false.

(** All the [str] of the text items of the pages, in order. *)
Definition itemTexts (pages : list (list (option Text))) : Text :=
  concat (map itemText (concat pages)).

Lemma trimStart_head s c rest : trimStart s = c :: rest -> isWhiteSpace c = false.
Proof.
  induction s as [|x s IH]; simpl; [discriminate|].
  destruct (isWhiteSpace x) eqn:E; [exact IH|].
  intros H. inversion H; subst. exact E.
Qed.

Lemma trimStart_split s : exists ws, s = ws ++ trimStart s.
Proof.
  induction s as [|x s [ws IH]]; simpl; [now exists []|].
  destruct (isWhiteSpace x).
  - exists (x :: ws). simpl. now rewrite <- IH.
  - now exists [].
Qed.

(** What [trim] cuts off on both sides. *)
Lemma trim_split s :
  exists ws1 ws2, s = ws1 ++ trim s ++ ws2 /\ trimStart s = trim s ++ ws2.
Proof.
  unfold trim. destruct (trimStart_split s) as [ws1 E1].
  destruct (trimStart_split (rev (trimStart s))) as [ws E2].
  exists ws1, (rev ws).
  assert (U : trimStart s = rev (trimStart (rev (trimStart s))) ++ rev ws).
  { rewrite <- rev_app_distr, <- E2. now rewrite rev_involutive. }
  split; [|exact U]. now rewrite <- U.
Qed.

Lemma trim_trimmed s : trimmed (trim s).
Proof.
  split.
  - intros c rest E. destruct (trim_split s) as [ws1 [ws2 [_ U]]].
    rewrite E in U. simpl in U. now apply trimStart_head in U.
  - intros init c E. unfold trim in E.
    apply (f_equal (@rev N)) in E.
    rewrite rev_involutive, rev_app_distr in E. simpl in E.
    now apply trimStart_head in E.
Qed.

Lemma nonWhite_app a b : nonWhite (a ++ b) = nonWhite a ++ nonWhite b.
Proof. apply List.filter_app. Qed.

Lemma nonWhite_trimStart s : nonWhite (trimStart s) = nonWhite s.
Proof.
  induction s as [|x s IH]; simpl; [reflexivity|].
  destruct (isWhiteSpace x) eqn:E; simpl; [exact IH|]. now rewrite E.
Qed.

Lemma nonWhite_rev s : nonWhite (rev s) = rev (nonWhite s).
Proof.
  induction s as [|x s IH]; [reflexivity|].
  simpl. rewrite nonWhite_app, IH. simpl.
  destruct (isWhiteSpace x); simpl; [apply app_nil_r | reflexivity].
Qed.

Lemma nonWhite_trim s : nonWhite (trim s) = nonWhite s.
Proof.
  unfold trim.
  now rewrite nonWhite_rev, nonWhite_trimStart, nonWhite_rev, rev_involutive,
    nonWhite_trimStart.
Qed.

Lemma nonWhite_collapseFrom inRun s : nonWhite (collapseFrom inRun s) = nonWhite s.
Proof.
  revert inRun. induction s as [|x s IH]; intros inRun; simpl; [reflexivity|].
  destruct (isWhiteSpace x) eqn:E.
  - destruct inRun; simpl; apply IH.
  - simpl. now rewrite E, IH.
Qed.

Lemma collapseFrom_singleSpaced inRun s :
  (inRun = true -> forall c rest, collapseFrom inRun s = c :: rest ->
                   isWhiteSpace c = false)
  /\ singleSpaced (collapseFrom inRun s).
Proof.
  revert inRun. induction s as [|x s IH]; intros inRun; simpl.
  { split; [discriminate|]. intros [|d before] c after E; discriminate E. }
  destruct (isWhiteSpace x) eqn:Ex.
  - destruct inRun; [apply IH|].
    split; [discriminate|]. intros before c after E Hc.
    destruct before as [|d before]; simpl in E; inversion E; subst.
    + split; [reflexivity|]. intros d rest Ed.
      now apply (proj1 (IH true) eq_refl d rest).
    + now apply (proj2 (IH true) before c after).
  - split.
    + intros _ c rest E. inversion E; subst. exact Ex.
    + intros before c after E Hc.
      destruct before as [|d before]; simpl in E; inversion E; subst.
      * congruence.
      * now apply (proj2 (IH false) before c after).
Qed.

Lemma singleSpaced_infix x t y : singleSpaced (x ++ t ++ y) -> singleSpaced t.
Proof.
  intros H before c after E Hc.
  destruct (H (x ++ before) c (after ++ y)) as [Hs Hn].
  { rewrite E, <- !app_assoc. reflexivity. }
  { exact Hc. }
  split; [exact Hs|]. intros d rest ->. now apply (Hn d (rest ++ y)).
Qed.

Lemma trimmed_empty : trimmed [].
Proof.
  split; [discriminate|]. intros [|d init] c E; discriminate E.
Qed.


Lemma compact_trim_collapse s :
  trimmed (trim (collapseWhitespace s)) /\ singleSpaced (trim (collapseWhitespace s)).
Proof.
  split; [apply trim_trimmed|].
  destruct (trim_split (collapseWhitespace s)) as [ws1 [ws2 [E _]]].
  apply (singleSpaced_infix ws1 _ ws2). rewrite <- E.
  apply collapseFrom_singleSpaced.
Qed.

Lemma nonWhite_join (parts : list Text) :
  nonWhite (join [space] parts) = nonWhite (concat parts).
Proof.
  induction parts as [|part rest IH]; [reflexivity|].
  destruct rest as [|next rest].
  - simpl. now rewrite app_nil_r.
  - change (join [space] (part :: next :: rest))
      with (part ++ [space] ++ join [space] (next :: rest)).
    change (concat (part :: next :: rest)) with (part ++ concat (next :: rest)).
    rewrite !nonWhite_app, IH. reflexivity.
Qed.

Section Text.
Variable host : Host.

Lemma readPages_nonWhite (pages : list (list (option Text))) (combinedText : Text) :
  exists t, readPages (map Resolved pages) combinedText = Resolved t
            /\ nonWhite t = nonWhite combinedText ++ nonWhite (itemTexts pages).
Proof.
  revert combinedText. induction pages as [|page rest IH]; intros combinedText; simpl.
  { eexists. split; [reflexivity|]. now rewrite app_nil_r. }
  destruct (IH (combinedText ++ join [space] (map itemText page)
                ++ [lineFeed; lineFeed])) as [t [E N]].
  exists t. split; [exact E|]. rewrite N.
  unfold itemTexts. simpl concat. rewrite map_app, concat_app.
  rewrite !nonWhite_app, nonWhite_join. simpl. rewrite app_nil_r.
  now rewrite <- app_assoc.
Qed.

Lemma readPages_rejected pages combinedText msg :
  In (Rejected msg) pages -> exists msg', readPages pages combinedText = Rejected msg'.
Proof.
  revert combinedText. induction pages as [|page rest IH]; intros combinedText; [intros []|].
  intros [->|H]; simpl; [eauto|].
  destruct page as [items|msg0]; simpl; [now apply IH | eauto].
Qed.



(** X18. [htmlToText] makes compact text: it fails only when the HTML
    parser does; the text it returns neither starts nor ends with white
    space, contains no white space but single spaces between other
    characters, and consists of exactly the code units of the body text
    that are not white space, in their order.  White space is JavaScript's:
    a no-break space is stripped and collapsed like a blank. *)
Theorem htmlToText_is_compact (html : Text) :
  match htmlToText host html with
  | Resolved t =>
      trimmed t /\ singleSpaced t
      /\ exists body, DOMParser_bodyText host html = Resolved body
                      /\ nonWhite t = nonWhite (default [] body)
  | Rejected msg => DOMParser_bodyText host html = Rejected msg
  end.
Proof.
  unfold htmlToText.
  destruct (DOMParser_bodyText host html) as [body|msg]; simpl; [|reflexivity].
  split; [apply compact_trim_collapse|]. split; [apply compact_trim_collapse|].
  exists body. split; [reflexivity|].
  rewrite nonWhite_trim. apply nonWhite_collapseFrom.
Qed.

(** X19. [pdf4llm] always resolves, with a text that neither starts nor
    ends with white space.  When every page can be read, the code units of
    the text that are not white space are exactly those of the text items
    of all pages, in order: only white space is added between items and
    pages.  When the document cannot be loaded or one of its pages cannot
    be read, the text is empty, whatever the other pages hold. *)
Theorem pdf4llm_text (binaryContent : ArrayBuffer) :
  exists r, pdf4llm host binaryContent = Resolved r
            /\ trimmed (text_response r)
            /\ (forall pages,
                  pdfjs_getDocument host binaryContent = Resolved (map Resolved pages) ->
                  nonWhite (text_response r) = nonWhite (itemTexts pages))
            /\ ((exists msg, pdfjs_getDocument host binaryContent = Rejected msg)
                \/ (exists pages msg,
                      pdfjs_getDocument host binaryContent = Resolved pages
                      /\ In (Rejected msg) pages) ->
                text_response r = []).
Proof.
  unfold pdf4llm.
  destruct (pdfjs_getDocument host binaryContent) as [pages|msg0] eqn:D; simpl.
  2:{ eexists. split; [reflexivity|]. simpl. split; [apply trimmed_empty|].
      split; [discriminate | reflexivity]. }
  destruct (readPages pages []) as [t|msg1] eqn:R; simpl.
  - eexists. split; [reflexivity|]. simpl. split; [apply trim_trimmed|]. split.
    + intros pages' E. inversion E; subst.
      destruct (readPages_nonWhite pages' []) as [t' [E' N]].
      rewrite R in E'. inversion E'; subst. now rewrite nonWhite_trim, N.
    + intros [[msg H] | [pages' [msg [H Hin]]]]; [discriminate|].
      inversion H; subst.
      destruct (readPages_rejected _ [] _ Hin) as [msg' E']. congruence.
  - eexists. split; [reflexivity|]. simpl. split; [apply trimmed_empty|]. split.
    + intros pages' E. inversion E; subst.
      destruct (readPages_nonWhite pages' []) as [t' [E' _]]. congruence.
    + reflexivity.
Qed.



End Text.

(** *** Runs on concrete text *)

(** A no-break space (160) at either end is stripped, and a run of a tab, a
    no-break space and a line feed between two words becomes one space. *)
Example trim_collapse_unicode :
  trim (collapseWhitespace [160; 72; 105; 9; 160; 10; 121; 111; 117; 160]%N)
  = [72; 105; 32; 121; 111; 117]%N.
Proof. reflexivity. Qed.

End CompactText.


(** ** src/components/modals/SourcesModal.tsx: expanding an explanation *)
Module SourcesModal.

(** The two classes a click changes on a source that has an explanation. *)
Record ItemState := {
  explanationHidden : bool;               (* explanationDiv has "tw-hidden" *)
  indicatorRotated : bool                 (* expandIndicator has "tw-rotate-90" *)
}.

(** As [createSourceList] leaves the item: the explanation collapsed. *)
Definition rendered : ItemState :=
  {| explanationHidden := true; indicatorRotated := false |}.

(** The click listener of the item; [classList.toggle(name, force)] leaves
    the class present exactly when [force] holds. *)
Definition onClick (targetIsLink : bool) (st : ItemState) : ItemState :=
  if targetIsLink then st
  else
    let isExpanded := negb (explanationHidden st) in
    {| explanationHidden := isExpanded; indicatorRotated := negb isExpanded |}.

Definition clicks (targets : list bool) (st : ItemState) : ItemState :=
  fold_left (fun st targetIsLink => onClick targetIsLink st) targets st.

(** The clicks that are not on the link. *)
Definition toggles (targets : list bool) : nat := length (List.filter negb targets).

Lemma clicks_snoc targets target st :
  clicks (targets ++ [target])%list st = onClick target (clicks targets st).
Proof. unfold clicks. now rewrite fold_left_app. Qed.

(** X22. The expand indicator of a source follows its explanation: after
    any series of clicks on the item the indicator is rotated exactly when
    the explanation is shown, the explanation is shown exactly when the
    number of clicks outside the link is odd, and clicks on the link change
    nothing. *)
Theorem indicator_follows_explanation (targets : list bool) :
  let st := clicks targets rendered in
  indicatorRotated st = negb (explanationHidden st)
  /\ explanationHidden st = Nat.even (toggles targets)
  /\ (forall st', onClick true st' = st')
  /\ clicks (List.filter negb targets) rendered = st.
Proof.
  induction targets as [|target targets IH] using rev_ind; [now repeat split|].
  simpl in IH. destruct IH as [R [H [_ F]]].
  simpl. rewrite clicks_snoc. unfold toggles in *.
  rewrite List.filter_app, length_app.
  destruct target; simpl.
  - rewrite app_nil_r, Nat.add_0_r. auto.
  - rewrite clicks_snoc, F. simpl.
    replace (length (List.filter negb targets) + 1)%nat
      with (S (length (List.filter negb targets))) by lia.
    rewrite Nat.even_succ, <- Nat.negb_even, <- H.
    now rewrite negb_involutive.
Qed.

End SourcesModal.
